(** * Timekeeping::Scheduler: a shallow embedding and its properties

    The repository holds two revisions of [Scheduler.cpp]:

    - [src/src/Scheduler.cpp] keeps the canceled tokens in a
      [std::set<int> canceledCallbacks] and calls the callback while the
      worker still owns the recursive mutex (module [SchedulerSet]);
    - [src/unnamed/part_000] keeps a [std::map<int, bool> isCallbackCanceled]
      and unlocks the mutex around the call (module [SchedulerMap]).

    Modelling conventions, shared by both modules.

    - A [double] (due times, clock readings) is a rational, one of the two
      infinities or NaN, and comparisons and arithmetic treat the infinities
      and NaN as IEEE 754 does: every comparison with NaN is false.  The
      finite values are not restricted to the binary64 ones and arithmetic
      on them is exact, so the results of [due - now] and of [... * 1000.0]
      are those of the real numbers, without the rounding of the machine:
      the number of milliseconds in [EvWaitFor] is the one computed without
      rounding.  The theorems below use its value at one input only, a wait
      of 3000000 seconds, whose product with 1000.0 the machine computes
      without rounding as well.
    - [int] values are integers [Z]; the two places where the C++ leaves the
      result undefined (signed overflow of [nextToken++], a floating value
      that does not fit the [int] it is converted to) and the dereference of
      a null [clock] yield the outcome [Undefined].
    - A [std::function] callback and a [Clock] object are opaque identities;
      calling a callback is recorded as the event [EvCall], reading the
      clock takes the reading from a function [Clock -> double] that stands
      for the clocks' values at that moment.
    - Every public method and every iteration of the worker loop is one
      transition; what a transition does to the mutex and to the condition
      variable, and the call it makes, is the list of events it returns, in
      program order.  [replay] runs such a list on a recursive mutex.
    - The worker of the set-based revision owns the mutex from the loop
      condition to the end of the body, the call included.  The worker of
      the map-based revision releases it between the pop and the call:
      [SchedulerMap.interleaved_step] splits the firing branch there, and
      [SchedulerMap.run] is the case in which nothing happens in between
      ([interleaved_run_atomic]). *)

From Stdlib Require Import ZArith QArith Qround Lia.
From stdpp Require Import gmap list sorting.

Open Scope Z_scope.

(** ** Values *)

Inductive double : Type :=
| Finite (q : Q)
| PInf
| NInf
| NaN.
Coercion Finite : Q >-> double.

Declare Scope double_scope.
Delimit Scope double_scope with D.
Bind Scope double_scope with double.

Definition Callback := nat.
Definition Clock := nat.
Definition Thread := nat.

Definition INT_MAX : Z := 2147483647.
Definition INT_MIN : Z := -2147483648.

(** [a > b] on doubles: false as soon as one side is NaN. *)
Definition double_gt (a b : double) : bool :=
  match a, b with
  | NaN, _ | _, NaN => false
  | Finite x, Finite y => negb (Qle_bool x y)
  | PInf, PInf => false
  | PInf, _ => true
  | _, PInf => false
  | NInf, _ => false
  | Finite _, NInf => true
  end.

(** [a <= b] on doubles: false as soon as one side is NaN. *)
Definition double_le (a b : double) : bool :=
  match a, b with
  | NaN, _ | _, NaN => false
  | Finite x, Finite y => Qle_bool x y
  | NInf, _ => true
  | _, PInf => true
  | _, _ => false
  end.

(** [a - b] on doubles. *)
Definition double_sub (a b : double) : double :=
  match a, b with
  | NaN, _ | _, NaN => NaN
  | Finite x, Finite y => Finite (x - y)
  | Finite _, PInf => NInf
  | Finite _, NInf => PInf
  | PInf, PInf => NaN
  | PInf, _ => PInf
  | NInf, NInf => NaN
  | NInf, _ => NInf
  end.

(** [a * b] on doubles, for a finite [b]. *)
Definition double_mul (a : double) (b : Q) : double :=
  match a with
  | Finite x => Finite (x * b)
  | NaN => NaN
  | PInf =>
      match (b ?= 0)%Q with Gt => PInf | Lt => NInf | Eq => NaN end
  | NInf =>
      match (b ?= 0)%Q with Gt => NInf | Lt => PInf | Eq => NaN end
  end.

(** [ceil(a)] *)
Definition double_ceil (a : double) : double :=
  match a with
  | Finite x => Finite (inject_Z (Qceiling x))
  | _ => a
  end.

Notation "a - b" := (double_sub a b) : double_scope.
Notation "a < b" := (double_gt b a = true) : double_scope.
Notation "a <= b" := (double_le a b = true) : double_scope.

(** The doubles that are numbers, and equality of value on them. *)
Definition is_number (a : double) : Prop := a <> NaN.

Definition double_eq (a b : double) : Prop :=
  match a, b with
  | Finite x, Finite y => (x == y)%Q
  | PInf, PInf | NInf, NInf => True
  | _, _ => False
  end.

Inductive UB : Type :=
| NullClockDereference
| SignedOverflow
| FloatToIntOverflow.

Inductive Outcome (A : Type) : Type :=
| Done (a : A)
| Undefined (why : UB).
Arguments Done {A} a.
Arguments Undefined {A} why.

(** [(int)x]: the fractional part is discarded; the behaviour is undefined
    when the truncated value is not an [int], as it is for the infinities
    and NaN. *)
Definition int_of_double (x : double) : Outcome Z :=
  match x with
  | Finite q =>
      let z := if Qle_bool 0 q then Qfloor q else Qceiling q in
      if (INT_MIN <=? z) && (z <=? INT_MAX) then Done z
      else Undefined FloatToIntOverflow
  | _ => Undefined FloatToIntOverflow
  end.

(** [(int)ceil(waitTimeSeconds * 1000.0)] *)
Definition wait_milliseconds (waitTimeSeconds : double) : Outcome Z :=
  int_of_double (double_ceil (double_mul waitTimeSeconds 1000)).

(** [nextToken++]: the old value and the new one. *)
Definition post_increment (n : Z) : Outcome (Z * Z) :=
  if n =? INT_MAX then Undefined SignedOverflow else Done (n, n + 1).

(** ** ScheduledCallback and the priority queue *)

Record ScheduledCallback : Type := mkScheduledCallback {
  token : Z;
  due : double;
  callback : Callback
}.
Arguments mkScheduledCallback token%_Z due%_Q callback%_nat.

(** [ScheduledCallback::operator>] *)
Definition ScheduledCallback_gt (a other : ScheduledCallback) : bool :=
  double_gt (due a) (due other).

(** [std::priority_queue<ScheduledCallback, std::vector<...>, std::greater<...>>]:
    the elements in the order they were pushed.  [top] is an element that is
    not [>] any other as long as every [due] is a number; which one among
    several of equal [due] is left to the heap algorithm by the C++ library,
    here it is the one pushed first.  With a NaN among the [due] values
    [operator>] is no strict weak ordering and the entry on top depends on
    the heap algorithm: the theorems about the order of the calls assume
    that the [due] values are numbers, the others use only that [top] is a
    pending entry and that [pop] removes that one entry. *)
Definition priority_queue := list ScheduledCallback.

Definition push (x : ScheduledCallback) (q : priority_queue) : priority_queue :=
  q ++ [x].

Fixpoint extract (x : ScheduledCallback) (q : list ScheduledCallback)
  : ScheduledCallback * list ScheduledCallback :=
  match q with
  | [] => (x, [])
  | y :: q' =>
      let '(m, r) := extract y q' in
      if ScheduledCallback_gt x m then (m, x :: r) else (x, y :: q')
  end.

Definition top (q : priority_queue) : option ScheduledCallback :=
  match q with
  | [] => None
  | x :: q' => Some (fst (extract x q'))
  end.

Definition pop (q : priority_queue) : priority_queue :=
  match q with
  | [] => []
  | x :: q' => snd (extract x q')
  end.

Definition tokens (q : priority_queue) : list Z := map token q.

(** ** Events and the recursive mutex *)

Inductive Event : Type :=
| EvLock
| EvUnlock
| EvNotifyOne
| EvWait
| EvWaitFor (milliseconds : Z)
| EvCall (cb : Callback)
| EvReturn (tok : Z).
Arguments EvCall cb%_nat.

(** [std::recursive_mutex]: free, or owned by a thread that has locked it
    a number of times. *)
Definition recursive_mutex := option (Thread * nat).

(** [lock]: [None] when the calling thread would have to block. *)
Definition mutex_lock (t : Thread) (m : recursive_mutex) : option recursive_mutex :=
  match m with
  | None => Some (Some (t, 1%nat))
  | Some (o, n) => if decide (o = t) then Some (Some (t, S n)) else None
  end.

(** [unlock]: [None] when the calling thread does not own the mutex. *)
Definition mutex_unlock (t : Thread) (m : recursive_mutex) : option recursive_mutex :=
  match m with
  | None => None
  | Some (o, n) =>
      if decide (o = t) then
        match n with
        | O => None
        | S O => Some None
        | S n' => Some (Some (t, n'))
        end
      else None
  end.

(** Thread [t] executes the events in order, starting with the mutex in
    state [m].  The result is the mutex state at each [EvCall], and the final
    mutex state.  A wait on the condition variable releases the lock and
    takes it again before it returns, so it needs the lock and leaves the
    mutex as it was. *)
Fixpoint replay (t : Thread) (m : recursive_mutex) (evs : list Event)
  : option (list (Callback * recursive_mutex) * recursive_mutex) :=
  match evs with
  | [] => Some ([], m)
  | ev :: evs' =>
      match ev with
      | EvLock =>
          m' ← mutex_lock t m; replay t m' evs'
      | EvUnlock =>
          m' ← mutex_unlock t m; replay t m' evs'
      | EvWait | EvWaitFor _ =>
          m' ← mutex_unlock t m; m'' ← mutex_lock t m'; replay t m'' evs'
      | EvCall cb =>
          '(calls, m') ← replay t m evs'; Some ((cb, m) :: calls, m')
      | EvNotifyOne | EvReturn _ => replay t m evs'
      end
  end.

Definition WorkerThread : Thread := 0%nat.

(** The callbacks called by a list of events, in order. *)
Definition calls (evs : list Event) : list Callback :=
  omap (fun ev => match ev with EvCall cb => Some cb | _ => None end) evs.

(** The tokens returned by [Schedule] in a list of events, in order. *)
Definition returned (evs : list Event) : list Z :=
  omap (fun ev => match ev with EvReturn tok => Some tok | _ => None end) evs.

(** ** Well-formed pending sets

    The tokens of the pending entries are pairwise distinct and were all
    handed out already: they lie between 1 and [nextToken]. *)

Definition wf_queue (q : priority_queue) (next : Z) : Prop :=
  NoDup (tokens q) /\ Forall (fun t => 1 <= t < next) (tokens q) /\ 1 <= next.

(** The tokens of the successful [Schedule] calls among the returned ones. *)
Definition successful (toks : list Z) : list Z :=
  filter (fun t => t <> 0) toks.

(** ** The operations a client thread or the worker can perform *)

Inductive Op : Type :=
| OpSetClock (clock : option Clock)
| OpSchedule (callback : Callback) (due : double)
| OpCancel (token : Z)
| OpWakeUp
| OpWorker (GetCurrentTime : Clock -> double).
Arguments OpSchedule callback%_nat due%_Q.

Definition is_null_SetClock (o : Op) : bool :=
  match o with
  | OpSetClock None => true
  | _ => false
  end.

Definition no_null_SetClock (ops : list Op) : Prop :=
  Forall (fun o => is_null_SetClock o = false) ops.

(** The tokens passed to [Cancel] and the clocks passed to [SetClock] by a
    list of operations. *)
Definition cancel_arguments (ops : list Op) : list Z :=
  omap (fun o => match o with OpCancel tok => Some tok | _ => None end) ops.

Fixpoint last_SetClock (ops : list Op) (current : option Clock) : option Clock :=
  match ops with
  | [] => current
  | OpSetClock c :: ops' => last_SetClock ops' c
  | _ :: ops' => last_SetClock ops' current
  end.

Definition is_Worker (o : Op) : bool :=
  match o with
  | OpWorker _ => true
  | _ => false
  end.

(** The number of [Schedule] calls in a list of operations. *)
Definition is_Schedule (o : Op) : bool :=
  match o with
  | OpSchedule _ _ => true
  | _ => false
  end.

Definition schedule_calls (ops : list Op) : Z :=
  Z.of_nat (length (filter (fun o => is_Schedule o = true) ops)).

(** What [Impl::~Impl] does besides writing [stopWorker]. *)
Inductive ShutdownEvent : Type :=
| SdLock
| SdNotifyAll
| SdUnlock
| SdJoin.

(** The order in which a min-queue on [due] hands out its entries. *)
Definition due_le (a b : ScheduledCallback) : Prop := (due a <= due b)%D.

(** The [due] values are numbers: of the pending entries, and of the entries
    a list of operations schedules. *)
Definition numeric_queue (q : priority_queue) : Prop :=
  Forall (fun e => is_number (due e)) q.

Definition numeric_op (o : Op) : Prop :=
  match o with
  | OpSchedule _ d => is_number d
  | _ => True
  end.

Definition numeric_dues (ops : list Op) : Prop := Forall numeric_op ops.

(** ** src/src/Scheduler.cpp: canceled tokens in a [std::set<int>] *)

Module SchedulerSet.

Record Impl : Type := mkImpl {
  clock : option Clock;
  scheduledCallbacks : priority_queue;
  stopWorker : bool;
  nextToken : Z;
  canceledCallbacks : gset Z
}.

(** [Scheduler::Scheduler()]: the members' initial values. *)
Definition init : Impl :=
  {| clock := None;
     scheduledCallbacks := [];
     stopWorker := false;
     nextToken := 1;
     canceledCallbacks := ∅ |}.

Definition set_clock (c : option Clock) (s : Impl) : Impl :=
  mkImpl c (scheduledCallbacks s) (stopWorker s) (nextToken s)
         (canceledCallbacks s).

Definition set_scheduledCallbacks (q : priority_queue) (s : Impl) : Impl :=
  mkImpl (clock s) q (stopWorker s) (nextToken s) (canceledCallbacks s).

Definition set_nextToken (n : Z) (s : Impl) : Impl :=
  mkImpl (clock s) (scheduledCallbacks s) (stopWorker s) n
         (canceledCallbacks s).

Definition set_canceledCallbacks (c : gset Z) (s : Impl) : Impl :=
  mkImpl (clock s) (scheduledCallbacks s) (stopWorker s) (nextToken s) c.

Definition wf (s : Impl) : Prop :=
  wf_queue (scheduledCallbacks s) (nextToken s).

(** The worker can read the clock whenever it has a pending entry. *)
Definition clock_safe (s : Impl) : Prop :=
  scheduledCallbacks s <> [] -> clock s <> None.

(** One evaluation of the loop condition of [Impl::Worker] and, when it
    holds, one execution of the loop body.  The worker owns the mutex when
    it starts. *)
Definition Worker_iteration (GetCurrentTime : Clock -> double) (s : Impl)
  : Outcome (Impl * list Event) :=
  if stopWorker s then Done (s, [EvUnlock])
  else
    match top (scheduledCallbacks s) with
    | None => Done (s, [EvWait])
    | Some nextInSchedule =>
        match clock s with
        | None => Undefined NullClockDereference
        | Some c =>
            let now := GetCurrentTime c in
            let waitTimeSeconds := (due nextInSchedule - now)%D in
            let isNotCanceled :=
              bool_decide (token nextInSchedule ∉ canceledCallbacks s) in
            if double_gt waitTimeSeconds 0%Q && isNotCanceled then
              match wait_milliseconds waitTimeSeconds with
              | Done ms => Done (s, [EvWaitFor ms])
              | Undefined why => Undefined why
              end
            else if isNotCanceled then
              Done (set_scheduledCallbacks (pop (scheduledCallbacks s)) s,
                    [EvCall (callback nextInSchedule)])
            else
              Done (set_scheduledCallbacks (pop (scheduledCallbacks s)) s, [])
        end
    end.

(** The same iteration as a relation, one rule per branch of the loop. *)
Inductive worker_step (time : Clock -> double) (s : Impl)
  : Impl -> list Event -> Prop :=
| Stopped :
    stopWorker s = true ->
    worker_step time s s [EvUnlock]
| Idle :
    stopWorker s = false ->
    scheduledCallbacks s = [] ->
    worker_step time s s [EvWait]
| Waiting e c ms :
    stopWorker s = false ->
    top (scheduledCallbacks s) = Some e ->
    clock s = Some c ->
    double_gt (due e - time c)%D 0%Q = true ->
    token e ∉ canceledCallbacks s ->
    wait_milliseconds (due e - time c)%D = Done ms ->
    worker_step time s s [EvWaitFor ms]
| Firing e c :
    stopWorker s = false ->
    top (scheduledCallbacks s) = Some e ->
    clock s = Some c ->
    double_gt (due e - time c)%D 0%Q = false ->
    token e ∉ canceledCallbacks s ->
    worker_step time s
      (set_scheduledCallbacks (pop (scheduledCallbacks s)) s)
      [EvCall (callback e)]
| Draining e c :
    stopWorker s = false ->
    top (scheduledCallbacks s) = Some e ->
    clock s = Some c ->
    token e ∈ canceledCallbacks s ->
    worker_step time s
      (set_scheduledCallbacks (pop (scheduledCallbacks s)) s)
      [].

Definition SetClock (c : option Clock) (s : Impl) : Impl := set_clock c s.

Definition Schedule (callback : Callback) (due : double) (s : Impl)
  : Outcome (Z * Impl * list Event) :=
  match clock s with
  | None => Done (0, s, [])
  | Some _ =>
      match post_increment (nextToken s) with
      | Undefined why => Undefined why
      | Done (token, next) =>
          let scheduledCallback := mkScheduledCallback token due callback in
          Done (token,
                set_scheduledCallbacks
                  (push scheduledCallback (scheduledCallbacks s))
                  (set_nextToken next s),
                [EvLock; EvNotifyOne; EvUnlock])
      end
  end.

Arguments Schedule callback%_nat due%_Q s.

Definition Cancel (token : Z) (s : Impl) : Impl * list Event :=
  (set_canceledCallbacks ({[ token ]} ∪ canceledCallbacks s) s,
   [EvLock; EvUnlock]).

Definition WakeUp (s : Impl) : Impl * list Event :=
  (s, [EvLock; EvNotifyOne; EvUnlock]).

Definition step (o : Op) (s : Impl) : Outcome (Impl * list Event) :=
  match o with
  | OpSetClock c => Done (SetClock c s, [])
  | OpSchedule cb d =>
      match Schedule cb d s with
      | Done (tok, s', evs) => Done (s', evs ++ [EvReturn tok])
      | Undefined why => Undefined why
      end
  | OpCancel tok => Done (Cancel tok s)
  | OpWakeUp => Done (WakeUp s)
  | OpWorker time => Worker_iteration time s
  end.

Fixpoint run (ops : list Op) (s : Impl) : Outcome (Impl * list Event) :=
  match ops with
  | [] => Done (s, [])
  | o :: ops' =>
      match step o s with
      | Undefined why => Undefined why
      | Done (s1, evs1) =>
          match run ops' s1 with
          | Undefined why => Undefined why
          | Done (s2, evs2) => Done (s2, evs1 ++ evs2)
          end
      end
  end.

(** The pending entry whose callback a transition calls, if it calls one. *)
Definition fired_by (o : Op) (s : Impl) : option ScheduledCallback :=
  match o with
  | OpWorker time =>
      match Worker_iteration time s with
      | Done (_, evs) =>
          match calls evs with
          | [] => None
          | _ :: _ => top (scheduledCallbacks s)
          end
      | Undefined _ => None
      end
  | _ => None
  end.

(** The entries fired along a run, in the order of the calls. *)
Fixpoint fired (ops : list Op) (s : Impl) : list ScheduledCallback :=
  match ops with
  | [] => []
  | o :: ops' =>
      match step o s with
      | Undefined _ => []
      | Done (s1, _) =>
          match fired_by o s with
          | Some e => e :: fired ops' s1
          | None => fired ops' s1
          end
      end
  end.

Definition set_stopWorker (b : bool) (s : Impl) : Impl :=
  mkImpl (clock s) (scheduledCallbacks s) b (nextToken s) (canceledCallbacks s).

(** [Impl::~Impl]; [joinable] is the value of [worker.joinable()]. *)
Definition Destructor (joinable : bool) (s : Impl)
  : Impl * list ShutdownEvent :=
  if joinable then
    (set_stopWorker true s, [SdLock; SdNotifyAll; SdUnlock; SdJoin])
  else (s, []).

End SchedulerSet.

(** ** src/unnamed/part_000: canceled flags in a [std::map<int, bool>] *)

Module SchedulerMap.

Record Impl : Type := mkImpl {
  clock : option Clock;
  scheduledCallbacks : priority_queue;
  stopWorker : bool;
  nextToken : Z;
  isCallbackCanceled : gmap Z bool
}.

Definition init : Impl :=
  {| clock := None;
     scheduledCallbacks := [];
     stopWorker := false;
     nextToken := 1;
     isCallbackCanceled := ∅ |}.

Definition set_clock (c : option Clock) (s : Impl) : Impl :=
  mkImpl c (scheduledCallbacks s) (stopWorker s) (nextToken s)
         (isCallbackCanceled s).

Definition set_nextToken (n : Z) (s : Impl) : Impl :=
  mkImpl (clock s) (scheduledCallbacks s) (stopWorker s) n
         (isCallbackCanceled s).

Definition set_isCallbackCanceled (m : gmap Z bool) (s : Impl) : Impl :=
  mkImpl (clock s) (scheduledCallbacks s) (stopWorker s) (nextToken s) m.

Definition set_scheduledCallbacks (q : priority_queue) (s : Impl) : Impl :=
  mkImpl (clock s) q (stopWorker s) (nextToken s) (isCallbackCanceled s).

Definition wf (s : Impl) : Prop :=
  wf_queue (scheduledCallbacks s) (nextToken s).

(** The worker can read the clock whenever it has a pending entry. *)
Definition clock_safe (s : Impl) : Prop :=
  scheduledCallbacks s <> [] -> clock s <> None.

(** The keys of [isCallbackCanceled] are the tokens of the pending entries. *)
Definition tracked (s : Impl) : Prop :=
  dom (isCallbackCanceled s) = list_to_set (tokens (scheduledCallbacks s)).

(** [m[k]] of [std::map<int, bool>]: the value, and the map, in which a
    missing key has been inserted with the value [false]. *)
Definition subscript (m : gmap Z bool) (k : Z) : bool * gmap Z bool :=
  match m !! k with
  | Some v => (v, m)
  | None => (false, <[k := false]> m)
  end.

Definition Worker_iteration (GetCurrentTime : Clock -> double) (s : Impl)
  : Outcome (Impl * list Event) :=
  if stopWorker s then Done (s, [EvUnlock])
  else
    match top (scheduledCallbacks s) with
    | None => Done (s, [EvWait])
    | Some nextInSchedule =>
        match clock s with
        | None => Undefined NullClockDereference
        | Some c =>
            let now := GetCurrentTime c in
            let waitTimeSeconds := (due nextInSchedule - now)%D in
            let '(canceled, m) :=
              subscript (isCallbackCanceled s) (token nextInSchedule) in
            let isNotCanceled := negb canceled in
            if double_gt waitTimeSeconds 0%Q && isNotCanceled then
              match wait_milliseconds waitTimeSeconds with
              | Done ms => Done (set_isCallbackCanceled m s, [EvWaitFor ms])
              | Undefined why => Undefined why
              end
            else if isNotCanceled then
              Done (set_scheduledCallbacks (pop (scheduledCallbacks s))
                      (set_isCallbackCanceled
                         (delete (token nextInSchedule) m) s),
                    [EvUnlock; EvCall (callback nextInSchedule); EvLock])
            else
              Done (set_scheduledCallbacks (pop (scheduledCallbacks s))
                      (set_isCallbackCanceled
                         (delete (token nextInSchedule) m) s),
                    [])
        end
    end.

(** The same iteration as a relation, one rule per branch of the loop.
    [canceled] is the flag that [isCallbackCanceled[token]] reads. *)
Definition canceled (s : Impl) (tok : Z) : bool :=
  fst (subscript (isCallbackCanceled s) tok).

Inductive worker_step (time : Clock -> double) (s : Impl)
  : Impl -> list Event -> Prop :=
| Stopped :
    stopWorker s = true ->
    worker_step time s s [EvUnlock]
| Idle :
    stopWorker s = false ->
    scheduledCallbacks s = [] ->
    worker_step time s s [EvWait]
| Waiting e c ms :
    stopWorker s = false ->
    top (scheduledCallbacks s) = Some e ->
    clock s = Some c ->
    double_gt (due e - time c)%D 0%Q = true ->
    canceled s (token e) = false ->
    wait_milliseconds (due e - time c)%D = Done ms ->
    worker_step time s
      (set_isCallbackCanceled
         (snd (subscript (isCallbackCanceled s) (token e))) s)
      [EvWaitFor ms]
| Firing e c :
    stopWorker s = false ->
    top (scheduledCallbacks s) = Some e ->
    clock s = Some c ->
    double_gt (due e - time c)%D 0%Q = false ->
    canceled s (token e) = false ->
    worker_step time s
      (set_scheduledCallbacks (pop (scheduledCallbacks s))
         (set_isCallbackCanceled
            (delete (token e) (isCallbackCanceled s)) s))
      [EvUnlock; EvCall (callback e); EvLock]
| Draining e c :
    stopWorker s = false ->
    top (scheduledCallbacks s) = Some e ->
    clock s = Some c ->
    canceled s (token e) = true ->
    worker_step time s
      (set_scheduledCallbacks (pop (scheduledCallbacks s))
         (set_isCallbackCanceled
            (delete (token e) (isCallbackCanceled s)) s))
      [].

Definition GetClock (s : Impl) : option Clock := clock s.

Definition SetClock (c : option Clock) (s : Impl) : Impl := set_clock c s.

Definition Schedule (callback : Callback) (due : double) (s : Impl)
  : Outcome (Z * Impl * list Event) :=
  match clock s with
  | None => Done (0, s, [])
  | Some _ =>
      match post_increment (nextToken s) with
      | Undefined why => Undefined why
      | Done (token, next) =>
          let scheduledCallback := mkScheduledCallback token due callback in
          Done (token,
                set_scheduledCallbacks
                  (push scheduledCallback (scheduledCallbacks s))
                  (set_isCallbackCanceled
                     (<[token := false]> (isCallbackCanceled s))
                     (set_nextToken next s)),
                [EvLock; EvNotifyOne; EvUnlock])
      end
  end.

Arguments Schedule callback%_nat due%_Q s.

Definition Cancel (token : Z) (s : Impl) : Impl * list Event :=
  (match isCallbackCanceled s !! token with
   | Some _ =>
       set_isCallbackCanceled (<[token := true]> (isCallbackCanceled s)) s
   | None => s
   end,
   [EvLock; EvUnlock]).

Definition WakeUp (s : Impl) : Impl * list Event :=
  (s, [EvLock; EvNotifyOne; EvUnlock]).

Definition step (o : Op) (s : Impl) : Outcome (Impl * list Event) :=
  match o with
  | OpSetClock c => Done (SetClock c s, [])
  | OpSchedule cb d =>
      match Schedule cb d s with
      | Done (tok, s', evs) => Done (s', evs ++ [EvReturn tok])
      | Undefined why => Undefined why
      end
  | OpCancel tok => Done (Cancel tok s)
  | OpWakeUp => Done (WakeUp s)
  | OpWorker time => Worker_iteration time s
  end.

Fixpoint run (ops : list Op) (s : Impl) : Outcome (Impl * list Event) :=
  match ops with
  | [] => Done (s, [])
  | o :: ops' =>
      match step o s with
      | Undefined why => Undefined why
      | Done (s1, evs1) =>
          match run ops' s1 with
          | Undefined why => Undefined why
          | Done (s2, evs2) => Done (s2, evs1 ++ evs2)
          end
      end
  end.

(** The pending entry whose callback a transition calls, if it calls one. *)
Definition fired_by (o : Op) (s : Impl) : option ScheduledCallback :=
  match o with
  | OpWorker time =>
      match Worker_iteration time s with
      | Done (_, evs) =>
          match calls evs with
          | [] => None
          | _ :: _ => top (scheduledCallbacks s)
          end
      | Undefined _ => None
      end
  | _ => None
  end.

(** The entries fired along a run, in the order of the calls. *)
Fixpoint fired (ops : list Op) (s : Impl) : list ScheduledCallback :=
  match ops with
  | [] => []
  | o :: ops' =>
      match step o s with
      | Undefined _ => []
      | Done (s1, _) =>
          match fired_by o s with
          | Some e => e :: fired ops' s1
          | None => fired ops' s1
          end
      end
  end.

Definition set_stopWorker (b : bool) (s : Impl) : Impl :=
  mkImpl (clock s) (scheduledCallbacks s) b (nextToken s) (isCallbackCanceled s).

(** [Impl::~Impl]; [joinable] is the value of [worker.joinable()]. *)
Definition Destructor (joinable : bool) (s : Impl)
  : Impl * list ShutdownEvent :=
  if joinable then
    (set_stopWorker true s, [SdLock; SdNotifyAll; SdUnlock; SdJoin])
  else (s, []).

(** The token has been handed out and, if its entry is still pending, the
    entry is flagged as canceled. *)
Definition cancel_recorded (tok : Z) (s : Impl) : Prop :=
  tok < nextToken s /\
  (tok ∈ tokens (scheduledCallbacks s) -> isCallbackCanceled s !! tok = Some true).

(** *** The mutex released around the call

    The firing branch of [Impl::Worker] unlocks the mutex after it has
    popped the entry and before it calls the callback.  So the methods of
    other threads, [Cancel] and the destructor among them, can run to their
    end between the pop and the call.  [Worker_iteration] above takes the
    firing branch in one piece; the transitions below split it at
    [lock.unlock()].  The state is an [Impl] and the entry whose callback
    the worker holds in its local variable [callback] while it is between
    [lock.unlock()] and [lock.lock()]. *)

(** The loop of [Impl::Worker] from its condition to the end of the body or,
    in the firing branch, to [lock.unlock()]. *)
Definition Worker_evaluate (GetCurrentTime : Clock -> double) (s : Impl)
  : Outcome (Impl * option ScheduledCallback * list Event) :=
  if stopWorker s then Done (s, None, [EvUnlock])
  else
    match top (scheduledCallbacks s) with
    | None => Done (s, None, [EvWait])
    | Some nextInSchedule =>
        match clock s with
        | None => Undefined NullClockDereference
        | Some c =>
            let now := GetCurrentTime c in
            let waitTimeSeconds := (due nextInSchedule - now)%D in
            let '(canceled, m) :=
              subscript (isCallbackCanceled s) (token nextInSchedule) in
            let isNotCanceled := negb canceled in
            if double_gt waitTimeSeconds 0%Q && isNotCanceled then
              match wait_milliseconds waitTimeSeconds with
              | Done ms => Done (set_isCallbackCanceled m s, None, [EvWaitFor ms])
              | Undefined why => Undefined why
              end
            else if isNotCanceled then
              Done (set_scheduledCallbacks (pop (scheduledCallbacks s))
                      (set_isCallbackCanceled
                         (delete (token nextInSchedule) m) s),
                    Some nextInSchedule,
                    [EvUnlock])
            else
              Done (set_scheduledCallbacks (pop (scheduledCallbacks s))
                      (set_isCallbackCanceled
                         (delete (token nextInSchedule) m) s),
                    None,
                    [])
        end
    end.

(** What a thread can do next: a client thread calls a public method or
    destroys the scheduler (the destructor up to [join], which waits for the
    worker), the worker evaluates its loop, or the worker, having unlocked
    the mutex in the firing branch, calls the callback and locks again. *)
Inductive Action : Type :=
| ActSetClock (clock : option Clock)
| ActSchedule (callback : Callback) (due : double)
| ActCancel (token : Z)
| ActWakeUp
| ActDestructor
| ActEvaluate (GetCurrentTime : Clock -> double)
| ActCall.
Arguments ActSchedule callback%_nat due%_Q.

(** One action.  The worker evaluates its loop only when it holds no
    callback to call, and calls only when it holds one; elsewhere these two
    actions leave the state as it is. *)
Definition interleaved_step (a : Action) (st : Impl * option ScheduledCallback)
  : Outcome (Impl * option ScheduledCallback * list Event) :=
  let '(s, inflight) := st in
  match a with
  | ActSetClock c => Done (SetClock c s, inflight, [])
  | ActSchedule cb d =>
      match Schedule cb d s with
      | Done (tok, s', evs) => Done (s', inflight, evs ++ [EvReturn tok])
      | Undefined why => Undefined why
      end
  | ActCancel tok => Done (fst (Cancel tok s), inflight, snd (Cancel tok s))
  | ActWakeUp => Done (fst (WakeUp s), inflight, snd (WakeUp s))
  | ActDestructor => Done (fst (Destructor true s), inflight, [])
  | ActEvaluate time =>
      match inflight with
      | None => Worker_evaluate time s
      | Some _ => Done (s, inflight, [])
      end
  | ActCall =>
      match inflight with
      | Some e => Done (s, None, [EvCall (callback e); EvLock])
      | None => Done (s, None, [])
      end
  end.

Fixpoint interleaved_run (acts : list Action)
  (st : Impl * option ScheduledCallback)
  : Outcome (Impl * option ScheduledCallback * list Event) :=
  match acts with
  | [] => Done (st, [])
  | a :: acts' =>
      match interleaved_step a st with
      | Undefined why => Undefined why
      | Done (st1, evs1) =>
          match interleaved_run acts' st1 with
          | Undefined why => Undefined why
          | Done (st2, evs2) => Done (st2, evs1 ++ evs2)
          end
      end
  end.

(** The entries whose callbacks a run calls, in the order of the calls. *)
Fixpoint interleaved_called (acts : list Action)
  (st : Impl * option ScheduledCallback) : list ScheduledCallback :=
  match acts with
  | [] => []
  | a :: acts' =>
      match interleaved_step a st with
      | Undefined _ => []
      | Done (st1, _) =>
          match a, snd st with
          | ActCall, Some e => e :: interleaved_called acts' st1
          | _, _ => interleaved_called acts' st1
          end
      end
  end.

(** The public method an action calls, and the actions that take the
    worker through the iterations of [run]: every evaluation is followed by
    the call at once. *)
Definition public (a : Action) : option Op :=
  match a with
  | ActSetClock c => Some (OpSetClock c)
  | ActSchedule cb d => Some (OpSchedule cb d)
  | ActCancel tok => Some (OpCancel tok)
  | ActWakeUp => Some OpWakeUp
  | _ => None
  end.

Definition atomic (o : Op) : list Action :=
  match o with
  | OpSetClock c => [ActSetClock c]
  | OpSchedule cb d => [ActSchedule cb d]
  | OpCancel tok => [ActCancel tok]
  | OpWakeUp => [ActWakeUp]
  | OpWorker time => [ActEvaluate time; ActCall]
  end.

End SchedulerMap.

(** ** Comparing the two revisions *)

(** What a list of events shows apart from the handling of the mutex. *)
Definition is_lock_event (ev : Event) : bool :=
  match ev with
  | EvLock | EvUnlock => true
  | _ => false
  end.

Definition observable (evs : list Event) : list Event :=
  filter (fun ev => is_lock_event ev = false) evs.

(** Every [Cancel] of the run is given a token that is below [nextToken] at
    the time of the call: one that [Schedule] has handed out, or a number
    below 1. *)
Fixpoint cancels_issued (ops : list Op) (s : SchedulerMap.Impl) : Prop :=
  match ops with
  | [] => True
  | o :: ops' =>
      match o with
      | OpCancel tok => tok < SchedulerMap.nextToken s
      | _ => True
      end /\
      match SchedulerMap.step o s with
      | Done (s1, _) => cancels_issued ops' s1
      | Undefined _ => True
      end
  end.

(** A state of the set-based revision and one of the map-based revision that
    hold the same clock, pending entries, stop flag and counter, and agree
    on which pending entries are canceled. *)
Definition revisions_agree (ss : SchedulerSet.Impl) (sm : SchedulerMap.Impl)
  : Prop :=
  SchedulerSet.clock ss = SchedulerMap.clock sm /\
  SchedulerSet.scheduledCallbacks ss = SchedulerMap.scheduledCallbacks sm /\
  SchedulerSet.stopWorker ss = SchedulerMap.stopWorker sm /\
  SchedulerSet.nextToken ss = SchedulerMap.nextToken sm /\
  SchedulerMap.wf sm /\ SchedulerMap.tracked sm /\
  (forall t, t ∈ SchedulerSet.canceledCallbacks ss ->
             t < SchedulerSet.nextToken ss) /\
  (forall t, t ∈ tokens (SchedulerMap.scheduledCallbacks sm) ->
             (t ∈ SchedulerSet.canceledCallbacks ss
              <-> SchedulerMap.isCallbackCanceled sm !! t = Some true)).

(** ** Facts about the priority queue *)

Lemma Qgt_bool_true x y : negb (Qle_bool x y) = true <-> (y < x)%Q.
Proof.
  rewrite negb_true_iff. split.
  - intros H. apply Qnot_le_lt. intros Hle. apply Qle_bool_iff in Hle. congruence.
  - intros H. destruct (Qle_bool x y) eqn:E; [|reflexivity].
    apply Qle_bool_iff in E. exfalso. exact (Qlt_not_le _ _ H E).
Qed.

Lemma Qgt_bool_false x y : negb (Qle_bool x y) = false <-> (x <= y)%Q.
Proof. rewrite negb_false_iff. apply Qle_bool_iff. Qed.

Lemma double_lt_number a b : (a < b)%D -> is_number a /\ is_number b.
Proof. destruct a, b; simpl; try discriminate; by split. Qed.

Lemma double_le_number a b : (a <= b)%D -> is_number a /\ is_number b.
Proof. destruct a, b; simpl; try discriminate; by split. Qed.

Lemma double_gt_false a b :
  is_number a -> is_number b -> double_gt a b = false <-> (a <= b)%D.
Proof.
  unfold is_number. destruct a, b; simpl; try done.
  intros _ _. by rewrite Qgt_bool_false, Qle_bool_iff.
Qed.

Lemma double_le_refl a : is_number a -> (a <= a)%D.
Proof.
  unfold is_number. destruct a; simpl; try done.
  intros _. apply Qle_bool_iff, Qle_refl.
Qed.

Lemma double_le_trans a b c : (a <= b)%D -> (b <= c)%D -> (a <= c)%D.
Proof.
  destruct a, b, c; simpl; try done.
  rewrite !Qle_bool_iff. apply Qle_trans.
Qed.

Lemma double_lt_le a b : (a < b)%D -> (a <= b)%D.
Proof.
  destruct a, b; simpl; try done.
  rewrite Qgt_bool_true, Qle_bool_iff. apply Qlt_le_weak.
Qed.

Lemma double_lt_not_le a b : (a < b)%D -> ~ (b <= a)%D.
Proof.
  destruct a, b; simpl; try done.
  rewrite Qgt_bool_true, Qle_bool_iff. apply Qlt_not_le.
Qed.

Lemma double_le_not_lt a b : (a <= b)%D -> ~ (b < a)%D.
Proof. intros H L. exact (double_lt_not_le _ _ L H). Qed.

Lemma double_lt_trans a b c : (a < b)%D -> (b < c)%D -> (a < c)%D.
Proof.
  destruct a, b, c; simpl; try done.
  rewrite !Qgt_bool_true. apply Qlt_trans.
Qed.

Lemma double_le_antisym a b : (a <= b)%D -> (b <= a)%D -> double_eq a b.
Proof.
  destruct a, b; simpl; try done.
  rewrite !Qle_bool_iff. apply Qle_antisym.
Qed.

Lemma double_eq_le a b : double_eq a b -> (a <= b)%D /\ (b <= a)%D.
Proof.
  destruct a, b; simpl; try done.
  intros E. rewrite !Qle_bool_iff, E. split; apply Qle_refl.
Qed.

Lemma double_not_lt_le a b :
  is_number a -> is_number b -> ~ (a < b)%D <-> (b <= a)%D.
Proof.
  intros Ha Hb. rewrite <- (double_gt_false b a) by done.
  destruct (double_gt b a); split; congruence.
Qed.

Lemma extract_perm x q : fst (extract x q) :: snd (extract x q) ≡ₚ x :: q.
Proof.
  revert x. induction q as [|y q IH]; intros x; simpl; [reflexivity|].
  specialize (IH y). destruct (extract y q) as [m r]. simpl in IH.
  destruct (ScheduledCallback_gt x m); simpl; [|reflexivity].
  rewrite <- IH. apply Permutation_swap.
Qed.

Lemma extract_elem x q : fst (extract x q) ∈ x :: q.
Proof.
  rewrite <- (extract_perm x q). apply list_elem_of_here.
Qed.

Lemma extract_min x q e :
  numeric_queue (x :: q) ->
  e ∈ x :: q -> (due (fst (extract x q)) <= due e)%D.
Proof.
  unfold numeric_queue.
  revert x e. induction q as [|y q IH]; intros x e Hn He; simpl.
  - apply list_elem_of_singleton in He. subst.
    apply double_le_refl. by apply Forall_cons in Hn as [? _].
  - apply Forall_cons in Hn as [Hx Hn].
    pose proof (IH y) as IHy. pose proof (extract_elem y q) as Hm.
    destruct (extract y q) as [m r]. simpl in IHy, Hm.
    assert (is_number (due m)) as Nm.
    { rewrite Forall_forall in Hn. by apply Hn. }
    destruct (ScheduledCallback_gt x m) eqn:G; simpl.
    + apply elem_of_cons in He as [->|He]; [apply double_lt_le; exact G|].
      by apply IHy.
    + apply double_gt_false in G; [|done..].
      apply elem_of_cons in He as [->|He]; [by apply double_le_refl|].
      eapply double_le_trans; [exact G|]. by apply IHy.
Qed.

Lemma top_Some_perm q e : top q = Some e -> e :: pop q ≡ₚ q.
Proof.
  destruct q as [|x q]; simpl; [discriminate|].
  intros [= <-]. apply extract_perm.
Qed.

Lemma top_min q e e' :
  numeric_queue q -> top q = Some e -> e' ∈ q -> (due e <= due e')%D.
Proof.
  destruct q as [|x q]; simpl; [discriminate|].
  intros Hn [= <-]. by apply extract_min.
Qed.

Lemma top_elem q e : top q = Some e -> e ∈ q.
Proof.
  intros H. rewrite <- (top_Some_perm q e H). apply list_elem_of_here.
Qed.

Lemma top_None q : top q = None <-> q = [].
Proof. destruct q; simpl; split; congruence. Qed.

Lemma pop_subset q e : e ∈ pop q -> e ∈ q.
Proof.
  destruct (top q) as [m|] eqn:T.
  - intros H. rewrite <- (top_Some_perm q m T). apply list_elem_of_further, H.
  - apply top_None in T. subst. simpl. auto.
Qed.

Lemma tokens_pop_perm q e : top q = Some e -> token e :: tokens (pop q) ≡ₚ tokens q.
Proof.
  intros H. unfold tokens.
  exact (Permutation_map token (top_Some_perm q e H)).
Qed.

Lemma tokens_push x q : tokens (push x q) = tokens q ++ [token x].
Proof. unfold tokens, push. apply map_app. Qed.

Lemma elem_of_pop q m e : top q = Some m -> e ∈ q -> e = m \/ e ∈ pop q.
Proof.
  intros T He. rewrite <- (top_Some_perm q m T) in He.
  apply elem_of_cons in He. exact He.
Qed.

Lemma wf_queue_pop q n : wf_queue q n -> wf_queue (pop q) n.
Proof.
  intros (ND & B & Hn). destruct (top q) as [m|] eqn:T.
  - pose proof (tokens_pop_perm q m T) as P.
    rewrite <- P in ND, B.
    apply NoDup_cons in ND as [_ ND]. apply Forall_cons in B as [_ B].
    repeat split; assumption.
  - apply top_None in T. subst. repeat split; assumption.
Qed.

Lemma wf_queue_push q n d cb :
  wf_queue q n -> wf_queue (push (mkScheduledCallback n d cb) q) (n + 1).
Proof.
  intros (ND & B & Hn). unfold wf_queue. rewrite tokens_push. simpl. repeat split.
  - apply NoDup_app. repeat split; [exact ND| |apply NoDup_singleton].
    intros t Ht Ht'. apply list_elem_of_singleton in Ht'. subst t.
    rewrite Forall_forall in B. specialize (B _ Ht). lia.
  - apply Forall_app. split.
    + eapply Forall_impl; [exact B|]. simpl. intros; lia.
    + apply Forall_singleton. lia.
  - lia.
Qed.

Lemma wf_queue_next q n n' : wf_queue q n -> n <= n' -> wf_queue q n'.
Proof.
  intros (ND & B & Hn) Hle. repeat split; [exact ND| |lia].
  eapply Forall_impl; [exact B|]. simpl. intros; lia.
Qed.

(** In a well-formed pending set the token identifies the entry. *)
Lemma wf_queue_token_inj q n e e' :
  wf_queue q n -> e ∈ q -> e' ∈ q -> token e = token e' -> e = e'.
Proof.
  intros (ND & _ & _). unfold tokens in ND.
  induction q as [|x q IH]; intros He He' Ht; [inversion He|].
  simpl in ND. apply NoDup_cons in ND as [Hx ND].
  apply elem_of_cons in He as [->|He]; apply elem_of_cons in He' as [->|He'].
  - reflexivity.
  - exfalso. apply Hx. rewrite Ht. apply list_elem_of_fmap_2; exact He'.
  - exfalso. apply Hx. rewrite <- Ht. apply list_elem_of_fmap_2; exact He.
  - apply IH; assumption.
Qed.

(** The popped entry is gone: no pending entry carries its token. *)
Lemma wf_queue_pop_fresh q n m :
  wf_queue q n -> top q = Some m -> token m ∉ tokens (pop q).
Proof.
  intros (ND & _ & _) T. rewrite <- (tokens_pop_perm q m T) in ND.
  apply NoDup_cons in ND as [H _]. exact H.
Qed.

Lemma post_increment_Done n tok next :
  post_increment n = Done (tok, next) <-> n <> INT_MAX /\ tok = n /\ next = n + 1.
Proof.
  unfold post_increment. destruct (Z.eqb_spec n INT_MAX); split.
  - discriminate.
  - intros (? & _); contradiction.
  - intros [= <- <-]. auto.
  - intros (_ & -> & ->). reflexivity.
Qed.

(** ** The set-based revision *)

Lemma set_Worker_iteration_spec time s s' evs :
  SchedulerSet.Worker_iteration time s = Done (s', evs)
  <-> SchedulerSet.worker_step time s s' evs.
Proof.
  unfold SchedulerSet.Worker_iteration. split.
  - destruct (SchedulerSet.stopWorker s) eqn:St.
    { intros [= <- <-]. by constructor. }
    destruct (top (SchedulerSet.scheduledCallbacks s)) as [e|] eqn:T.
    2:{ intros [= <- <-]. constructor; [done|]. by apply top_None. }
    destruct (SchedulerSet.clock s) as [c|] eqn:C; [|discriminate].
    destruct (double_gt (due e - time c)%D 0%Q) eqn:G; simpl.
    + case_bool_decide as N; simpl.
      * destruct (wait_milliseconds (due e - time c)%D) as [ms|] eqn:W;
          [|discriminate].
        intros [= <- <-].
        by eapply SchedulerSet.Waiting.
      * intros [= <- <-]. eapply SchedulerSet.Draining; eauto.
    + case_bool_decide as N; simpl.
      * intros [= <- <-]. by eapply SchedulerSet.Firing.
      * intros [= <- <-]. eapply SchedulerSet.Draining; eauto.
  - intros H. destruct H as [St|St E|e c ms St T C G N W|e c St T C G N|e c St T C N];
      rewrite St; try done.
    + by rewrite E.
    + rewrite T, C. rewrite G.
      rewrite bool_decide_eq_true_2 by done. simpl. by rewrite W.
    + rewrite T, C. rewrite G.
      rewrite bool_decide_eq_true_2 by done. done.
    + rewrite T, C. rewrite bool_decide_eq_false_2 by tauto.
      by rewrite andb_false_r.
Qed.

Lemma set_Schedule_spec cb d s tok s' evs :
  SchedulerSet.Schedule cb d s = Done (tok, s', evs) <->
  (SchedulerSet.clock s = None /\ tok = 0 /\ s' = s /\ evs = []) \/
  (SchedulerSet.clock s <> None /\ SchedulerSet.nextToken s <> INT_MAX /\
   tok = SchedulerSet.nextToken s /\
   s' = SchedulerSet.set_scheduledCallbacks
          (push (mkScheduledCallback tok d cb) (SchedulerSet.scheduledCallbacks s))
          (SchedulerSet.set_nextToken (tok + 1) s) /\
   evs = [EvLock; EvNotifyOne; EvUnlock]).
Proof.
  unfold SchedulerSet.Schedule.
  destruct (SchedulerSet.clock s) as [c|] eqn:C.
  - destruct (post_increment (SchedulerSet.nextToken s)) as [[t n]|] eqn:P.
    + apply post_increment_Done in P as (Hn & -> & ->). split.
      * intros [= <- <- <-]. right. done.
      * intros [(? & _)|(_ & _ & -> & -> & ->)]; done.
    + split; [discriminate|]. intros [(? & _)|(_ & Hn & -> & _)]; [done|].
      exfalso. unfold post_increment in P.
      destruct (Z.eqb_spec (SchedulerSet.nextToken s) INT_MAX); done.
  - split.
    + intros [= <- <- <-]. left. done.
    + intros [(_ & -> & -> & ->)|(? & _)]; done.
Qed.

Lemma set_wf_init : SchedulerSet.wf SchedulerSet.init.
Proof. repeat split; simpl; [constructor|constructor|lia]. Qed.

Lemma set_wf_step o s s' evs :
  SchedulerSet.wf s -> SchedulerSet.step o s = Done (s', evs) ->
  SchedulerSet.wf s' /\ SchedulerSet.nextToken s <= SchedulerSet.nextToken s'.
Proof.
  intros W. destruct o as [c|cb d|tok| |time]; simpl.
  - intros [= <- <-]. split; [exact W|simpl; lia].
  - destruct (SchedulerSet.Schedule cb d s) as [[[tok s1] e1]|] eqn:S;
      [|discriminate].
    intros [= <- <-].
    apply set_Schedule_spec in S as [(_ & _ & -> & _)|(_ & _ & -> & -> & _)].
    + split; [exact W|lia].
    + split; [|simpl; lia]. apply wf_queue_push. exact W.
  - intros [= <- <-]. split; [exact W|simpl; lia].
  - intros [= <- <-]. split; [exact W|lia].
  - intros H. apply set_Worker_iteration_spec in H.
    destruct H; (split; [|simpl; lia]); try exact W;
      apply wf_queue_pop; exact W.
Qed.

Lemma set_returned_step o s s' evs :
  SchedulerSet.wf s -> SchedulerSet.step o s = Done (s', evs) ->
  successful (returned evs)
  = seqZ (SchedulerSet.nextToken s)
         (SchedulerSet.nextToken s' - SchedulerSet.nextToken s).
Proof.
  intros W. destruct o as [c|cb d|tok| |time]; simpl.
  - intros [= <- <-]. simpl. by rewrite Z.sub_diag.
  - destruct (SchedulerSet.Schedule cb d s) as [[[tok s1] e1]|] eqn:S;
      [|discriminate].
    intros [= <- <-].
    apply set_Schedule_spec in S
      as [(_ & -> & -> & ->)|(_ & _ & -> & -> & ->)]; simpl.
    + by rewrite Z.sub_diag.
    + destruct W as (_ & _ & Hn). unfold successful, returned. simpl.
      rewrite filter_cons_True by lia.
      replace (SchedulerSet.nextToken s + 1 - SchedulerSet.nextToken s)
        with 1 by lia.
      done.
  - intros [= <- <-]. simpl. by rewrite Z.sub_diag.
  - intros [= <- <-]. simpl. by rewrite Z.sub_diag.
  - intros H. apply set_Worker_iteration_spec in H.
    destruct H; simpl; by rewrite Z.sub_diag.
Qed.

Lemma successful_app l1 l2 : successful (l1 ++ l2) = successful l1 ++ successful l2.
Proof. apply filter_app. Qed.

Lemma returned_app l1 l2 : returned (l1 ++ l2) = returned l1 ++ returned l2.
Proof. apply omap_app. Qed.

Lemma set_run_tokens ops s s' evs :
  SchedulerSet.wf s -> SchedulerSet.run ops s = Done (s', evs) ->
  SchedulerSet.wf s' /\
  SchedulerSet.nextToken s <= SchedulerSet.nextToken s' /\
  successful (returned evs)
  = seqZ (SchedulerSet.nextToken s)
         (SchedulerSet.nextToken s' - SchedulerSet.nextToken s).
Proof.
  revert s s' evs. induction ops as [|o ops IH]; intros s s' evs W; simpl.
  - intros [= <- <-]. split; [exact W|split; [lia|]]. by rewrite Z.sub_diag.
  - destruct (SchedulerSet.step o s) as [[s1 e1]|] eqn:S; [|discriminate].
    destruct (SchedulerSet.run ops s1) as [[s2 e2]|] eqn:R; [|discriminate].
    intros [= <- <-].
    pose proof (set_returned_step _ _ _ _ W S) as T1.
    apply (set_wf_step _ _ _ _ W) in S as [W1 L1].
    destruct (IH _ _ _ W1 R) as (W2 & L2 & T2).
    split; [exact W2|split; [lia|]].
    rewrite returned_app, successful_app, T1, T2.
    replace (SchedulerSet.nextToken s2 - SchedulerSet.nextToken s)
      with ((SchedulerSet.nextToken s1 - SchedulerSet.nextToken s)
            + (SchedulerSet.nextToken s2 - SchedulerSet.nextToken s1)) by lia.
    rewrite seqZ_app by lia. do 2 f_equal. lia.
Qed.

(** ** The map-based revision *)

Lemma subscript_present (m : gmap Z bool) k v :
  m !! k = Some v -> SchedulerMap.subscript m k = (v, m).
Proof. unfold SchedulerMap.subscript. by intros ->. Qed.

Lemma subscript_true (m : gmap Z bool) k :
  fst (SchedulerMap.subscript m k) = true <-> m !! k = Some true.
Proof.
  unfold SchedulerMap.subscript. destruct (m !! k) as [[]|]; simpl; split; congruence.
Qed.

Lemma delete_subscript (m : gmap Z bool) k :
  delete k (snd (SchedulerMap.subscript m k)) = delete k m.
Proof.
  unfold SchedulerMap.subscript. destruct (m !! k); simpl; [done|].
  apply delete_insert_eq.
Qed.

Lemma map_Worker_iteration_spec time s s' evs :
  SchedulerMap.Worker_iteration time s = Done (s', evs)
  <-> SchedulerMap.worker_step time s s' evs.
Proof.
  unfold SchedulerMap.Worker_iteration. split.
  - destruct (SchedulerMap.stopWorker s) eqn:St.
    { intros [= <- <-]. by constructor. }
    destruct (top (SchedulerMap.scheduledCallbacks s)) as [e|] eqn:T.
    2:{ intros [= <- <-]. constructor; [done|]. by apply top_None. }
    destruct (SchedulerMap.clock s) as [c|] eqn:C; [|discriminate].
    pose proof (delete_subscript (SchedulerMap.isCallbackCanceled s) (token e)) as D.
    destruct (SchedulerMap.subscript (SchedulerMap.isCallbackCanceled s) (token e))
      as [cn m] eqn:Sub. simpl in D. rewrite D.
    assert (SchedulerMap.canceled s (token e) = cn) as Cn
      by (unfold SchedulerMap.canceled; by rewrite Sub).
    destruct (double_gt (due e - time c)%D 0%Q) eqn:G; simpl.
    + destruct cn; simpl.
      * intros [= <- <-]. by eapply SchedulerMap.Draining.
      * destruct (wait_milliseconds (due e - time c)%D) as [ms|] eqn:W;
          [|discriminate].
        intros [= <- <-].
        replace m
          with (snd (SchedulerMap.subscript (SchedulerMap.isCallbackCanceled s) (token e)))
          by (by rewrite Sub).
        by eapply SchedulerMap.Waiting.
    + destruct cn; simpl.
      * intros [= <- <-]. by eapply SchedulerMap.Draining.
      * intros [= <- <-]. by eapply SchedulerMap.Firing.
  - intros H.
    destruct H as [St|St E|e c ms St T C G N W|e c St T C G N|e c St T C N];
      rewrite St; try done.
    + by rewrite E.
    + rewrite T, C. rewrite G.
      unfold SchedulerMap.canceled in N.
      destruct (SchedulerMap.subscript (SchedulerMap.isCallbackCanceled s) (token e))
        as [cn m]. simpl in N. subst cn. simpl. by rewrite W.
    + rewrite T, C. rewrite G.
      pose proof (delete_subscript (SchedulerMap.isCallbackCanceled s) (token e)) as D.
      unfold SchedulerMap.canceled in N.
      destruct (SchedulerMap.subscript (SchedulerMap.isCallbackCanceled s) (token e))
        as [cn m]. simpl in N, D. subst cn. simpl. by rewrite D.
    + rewrite T, C.
      pose proof (delete_subscript (SchedulerMap.isCallbackCanceled s) (token e)) as D.
      unfold SchedulerMap.canceled in N.
      destruct (SchedulerMap.subscript (SchedulerMap.isCallbackCanceled s) (token e))
        as [cn m]. simpl in N, D. subst cn. simpl. rewrite D.
      by rewrite andb_false_r.
Qed.

Lemma map_Schedule_spec cb d s tok s' evs :
  SchedulerMap.Schedule cb d s = Done (tok, s', evs) <->
  (SchedulerMap.clock s = None /\ tok = 0 /\ s' = s /\ evs = []) \/
  (SchedulerMap.clock s <> None /\ SchedulerMap.nextToken s <> INT_MAX /\
   tok = SchedulerMap.nextToken s /\
   s' = SchedulerMap.set_scheduledCallbacks
          (push (mkScheduledCallback tok d cb) (SchedulerMap.scheduledCallbacks s))
          (SchedulerMap.set_isCallbackCanceled
             (<[tok := false]> (SchedulerMap.isCallbackCanceled s))
             (SchedulerMap.set_nextToken (tok + 1) s)) /\
   evs = [EvLock; EvNotifyOne; EvUnlock]).
Proof.
  unfold SchedulerMap.Schedule.
  destruct (SchedulerMap.clock s) as [c|] eqn:C.
  - destruct (post_increment (SchedulerMap.nextToken s)) as [[t n]|] eqn:P.
    + apply post_increment_Done in P as (Hn & -> & ->). split.
      * intros [= <- <- <-]. right. done.
      * intros [(? & _)|(_ & _ & -> & -> & ->)]; done.
    + split; [discriminate|]. intros [(? & _)|(_ & Hn & -> & _)]; [done|].
      exfalso. unfold post_increment in P.
      destruct (Z.eqb_spec (SchedulerMap.nextToken s) INT_MAX); done.
  - split.
    + intros [= <- <- <-]. left. done.
    + intros [(_ & -> & -> & ->)|(? & _)]; done.
Qed.

Lemma map_wf_init : SchedulerMap.wf SchedulerMap.init.
Proof. repeat split; simpl; [constructor|constructor|lia]. Qed.

Lemma map_Cancel_queue tok s :
  SchedulerMap.scheduledCallbacks (fst (SchedulerMap.Cancel tok s))
  = SchedulerMap.scheduledCallbacks s /\
  SchedulerMap.nextToken (fst (SchedulerMap.Cancel tok s))
  = SchedulerMap.nextToken s /\
  SchedulerMap.clock (fst (SchedulerMap.Cancel tok s)) = SchedulerMap.clock s.
Proof.
  unfold SchedulerMap.Cancel. simpl.
  destruct (SchedulerMap.isCallbackCanceled s !! tok); done.
Qed.

Lemma map_wf_step o s s' evs :
  SchedulerMap.wf s -> SchedulerMap.step o s = Done (s', evs) ->
  SchedulerMap.wf s' /\ SchedulerMap.nextToken s <= SchedulerMap.nextToken s'.
Proof.
  intros W. destruct o as [c|cb d|tok| |time]; simpl.
  - intros [= <- <-]. split; [exact W|simpl; lia].
  - destruct (SchedulerMap.Schedule cb d s) as [[[tok s1] e1]|] eqn:S;
      [|discriminate].
    intros [= <- <-].
    apply map_Schedule_spec in S as [(_ & _ & -> & _)|(_ & _ & -> & -> & _)].
    + split; [exact W|lia].
    + split; [|simpl; lia]. apply wf_queue_push. exact W.
  - unfold SchedulerMap.Cancel. intros [= <- <-].
    destruct (SchedulerMap.isCallbackCanceled s !! tok);
      (split; [exact W|simpl; lia]).
  - intros [= <- <-]. split; [exact W|lia].
  - intros H. apply map_Worker_iteration_spec in H.
    destruct H; (split; [|simpl; lia]); try exact W;
      apply wf_queue_pop; exact W.
Qed.

Lemma tokens_pop_set q n e :
  wf_queue q n -> top q = Some e ->
  list_to_set (C := gset Z) (tokens (pop q))
  = list_to_set (tokens q) ∖ {[ token e ]}.
Proof.
  intros W T. pose proof (wf_queue_pop_fresh q n e W T) as F.
  pose proof (tokens_pop_perm q e T) as P.
  apply set_eq. intros t.
  rewrite elem_of_difference, !elem_of_list_to_set, <- P, elem_of_cons.
  rewrite elem_of_singleton. split.
  - intros Ht. split; [by right|]. intros ->. contradiction.
  - intros [[->|Ht] Hne]; done.
Qed.

Lemma map_tracked_step o s s' evs :
  SchedulerMap.wf s -> SchedulerMap.tracked s ->
  SchedulerMap.step o s = Done (s', evs) ->
  SchedulerMap.tracked s'.
Proof.
  unfold SchedulerMap.tracked. intros W Inv.
  destruct o as [c|cb d|tok| |time]; simpl.
  - intros [= <- <-]. exact Inv.
  - destruct (SchedulerMap.Schedule cb d s) as [[[tok s1] e1]|] eqn:S;
      [|discriminate].
    intros [= <- <-].
    apply map_Schedule_spec in S as [(_ & _ & -> & _)|(_ & _ & -> & -> & _)];
      [exact Inv|].
    simpl. rewrite dom_insert_L, tokens_push, list_to_set_app_L, Inv. simpl.
    apply set_eq. intros t.
    rewrite !elem_of_union, elem_of_singleton, elem_of_empty. tauto.
  - unfold SchedulerMap.Cancel. intros [= <- <-].
    destruct (SchedulerMap.isCallbackCanceled s !! tok) eqn:L; [|exact Inv].
    simpl. rewrite dom_insert_L, <- Inv.
    assert (tok ∈ dom (SchedulerMap.isCallbackCanceled s)) as D
      by (apply elem_of_dom; eauto).
    apply set_eq. intros t. rewrite elem_of_union, elem_of_singleton.
    split; [intros [->|?]; done|tauto].
  - intros [= <- <-]. exact Inv.
  - intros H. apply map_Worker_iteration_spec in H.
    destruct H as [St|St E|e c ms St T C G N Wm|e c St T C G N|e c St T C N];
      try exact Inv; simpl.
    + assert (token e ∈ dom (SchedulerMap.isCallbackCanceled s)) as D.
      { rewrite Inv. apply elem_of_list_to_set. unfold tokens.
        apply list_elem_of_fmap_2. by apply top_elem. }
      apply elem_of_dom in D as [v D].
      by rewrite (subscript_present _ _ _ D).
    + rewrite dom_delete_L, Inv. symmetry. by eapply tokens_pop_set.
    + rewrite dom_delete_L, Inv. symmetry. by eapply tokens_pop_set.
Qed.

Lemma map_run_invariant ops s s' evs :
  SchedulerMap.wf s -> SchedulerMap.tracked s ->
  SchedulerMap.run ops s = Done (s', evs) ->
  SchedulerMap.wf s' /\ SchedulerMap.tracked s'.
Proof.
  revert s s' evs. induction ops as [|o ops IH]; intros s s' evs W I; simpl.
  - intros [= <- <-]. done.
  - destruct (SchedulerMap.step o s) as [[s1 e1]|] eqn:S; [|discriminate].
    destruct (SchedulerMap.run ops s1) as [[s2 e2]|] eqn:R; [|discriminate].
    intros [= <- <-].
    pose proof (map_tracked_step _ _ _ _ W I S) as I1.
    apply (map_wf_step _ _ _ _ W) in S as [W1 _].
    exact (IH _ _ _ W1 I1 R).
Qed.

Lemma set_run_wf ops s s' evs :
  SchedulerSet.wf s -> SchedulerSet.run ops s = Done (s', evs) ->
  SchedulerSet.wf s'.
Proof. intros W R. by destruct (set_run_tokens _ _ _ _ W R). Qed.

Lemma StronglySorted_seqZ m n : StronglySorted Z.lt (seqZ m n).
Proof.
  destruct (Z.le_gt_cases n 0) as [Hn|Hn]; [rewrite seqZ_nil by lia; constructor|].
  rewrite <- (Z2Nat.id n) by lia. generalize (Z.to_nat n) as k. clear Hn n.
  intros k. revert m. induction k as [|k IH]; intros m.
  - rewrite seqZ_nil by lia. constructor.
  - rewrite seqZ_cons by lia. constructor.
    + replace (Z.pred (Z.of_nat (S k))) with (Z.of_nat k) by lia. apply IH.
    + apply Forall_seqZ. intros; lia.
Qed.

(** ** Scheduling without a clock *)

(** C3: a call of [Schedule] made while no clock is set returns the token 0
    and changes nothing: the state it returns is the state it was given (so
    the pending set and the token counter are as before), it emits no event,
    and every continuation of the run is the continuation there would have
    been without the call, so the callback is never called because of it.
    This holds for both revisions of the file. *)
Theorem C3_schedule_without_clock :
  (forall cb d s,
     SchedulerSet.clock s = None ->
     SchedulerSet.Schedule cb d s = Done (0, s, []) /\
     forall ops,
       SchedulerSet.run (OpSchedule cb d :: ops) s
       = match SchedulerSet.run ops s with
         | Done (s', evs) => Done (s', EvReturn 0 :: evs)
         | Undefined why => Undefined why
         end) /\
  (forall cb d s,
     SchedulerMap.clock s = None ->
     SchedulerMap.Schedule cb d s = Done (0, s, []) /\
     forall ops,
       SchedulerMap.run (OpSchedule cb d :: ops) s
       = match SchedulerMap.run ops s with
         | Done (s', evs) => Done (s', EvReturn 0 :: evs)
         | Undefined why => Undefined why
         end).
Proof.
  split; intros cb d s C.
  - assert (SchedulerSet.Schedule cb d s = Done (0, s, [])) as E
      by (unfold SchedulerSet.Schedule; by rewrite C).
    split; [exact E|]. intros ops. simpl. rewrite E. simpl.
    by destruct (SchedulerSet.run ops s) as [[s' evs]|].
  - assert (SchedulerMap.Schedule cb d s = Done (0, s, [])) as E
      by (unfold SchedulerMap.Schedule; by rewrite C).
    split; [exact E|]. intros ops. simpl. rewrite E. simpl.
    by destruct (SchedulerMap.run ops s) as [[s' evs]|].
Qed.

Lemma C3_schedule_without_clock_witness :
  SchedulerSet.Schedule 7 10 SchedulerSet.init = Done (0, SchedulerSet.init, [])
  /\ SchedulerMap.Schedule 7 10 SchedulerMap.init = Done (0, SchedulerMap.init, []).
Proof.
  destruct C3_schedule_without_clock as [HS HM]. split.
  - apply (HS 7%nat 10%Q SchedulerSet.init). reflexivity.
  - apply (HM 7%nat 10%Q SchedulerMap.init). reflexivity.
Defined.

(** ** Tokens *)

(** As long as the counter is below [INT_MAX], a [Schedule] call made with
    a clock set returns the counter's value and moves the counter on by one;
    at [INT_MAX] the increment overflows. *)
Lemma set_Schedule_next cb d s :
  SchedulerSet.clock s <> None ->
  SchedulerSet.nextToken s <> INT_MAX ->
  SchedulerSet.Schedule cb d s
  = Done (SchedulerSet.nextToken s,
          SchedulerSet.set_scheduledCallbacks
            (push (mkScheduledCallback (SchedulerSet.nextToken s) d cb)
                  (SchedulerSet.scheduledCallbacks s))
            (SchedulerSet.set_nextToken (SchedulerSet.nextToken s + 1) s),
          [EvLock; EvNotifyOne; EvUnlock]).
Proof.
  intros C N. apply set_Schedule_spec. right. done.
Qed.

Lemma set_Schedule_overflow cb d s :
  SchedulerSet.clock s <> None ->
  SchedulerSet.nextToken s = INT_MAX ->
  SchedulerSet.Schedule cb d s = Undefined SignedOverflow.
Proof.
  intros C N. unfold SchedulerSet.Schedule.
  destruct (SchedulerSet.clock s); [|done]. by rewrite N.
Qed.

(** Along every run from the freshly constructed scheduler that ends
    without undefined behaviour, the tokens returned by the successful
    calls of [Schedule] are 1, 2, 3, ... up to the counter: positive, the
    first of them 1, each greater than all returned before it, none twice;
    the counter is at most [INT_MAX]; and a further call of [Schedule]
    returns 0 when no clock is set, the counter's value, which is greater
    than all tokens returned so far, when a clock is set and the counter is
    below [INT_MAX], and overflows the counter at [INT_MAX]. *)
Lemma set_tokens ops s evs :
  SchedulerSet.run ops SchedulerSet.init = Done (s, evs) ->
  let toks := successful (returned evs) in
  toks = seqZ 1 (SchedulerSet.nextToken s - 1) /\
  Forall (fun t => 0 < t) toks /\
  (forall t rest, toks = t :: rest -> t = 1) /\
  StronglySorted Z.lt toks /\
  NoDup toks /\
  (forall cb d,
     SchedulerSet.clock s = None ->
     SchedulerSet.Schedule cb d s = Done (0, s, [])) /\
  (forall cb d,
     SchedulerSet.clock s <> None ->
     SchedulerSet.nextToken s <> INT_MAX ->
     exists s',
       SchedulerSet.Schedule cb d s
       = Done (SchedulerSet.nextToken s, s', [EvLock; EvNotifyOne; EvUnlock]) /\
       0 < SchedulerSet.nextToken s /\
       Forall (fun t => t < SchedulerSet.nextToken s) toks) /\
  (forall cb d,
     SchedulerSet.clock s <> None ->
     SchedulerSet.nextToken s = INT_MAX ->
     SchedulerSet.Schedule cb d s = Undefined SignedOverflow).
Proof.
  intros R toks.
  destruct (set_run_tokens _ _ _ _ set_wf_init R) as (W & L & T).
  simpl in T, L. fold toks in T.
  split; [exact T|]. split; [|split; [|split; [|split; [|split; [|split]]]]].
  - rewrite T. apply Forall_seqZ. intros; lia.
  - intros t rest E. rewrite E in T.
    destruct (Z.le_gt_cases (SchedulerSet.nextToken s - 1) 0) as [Hn|Hn].
    + rewrite seqZ_nil in T by lia. discriminate.
    + rewrite seqZ_cons in T by lia. by injection T.
  - rewrite T. apply StronglySorted_seqZ.
  - rewrite T. apply NoDup_seqZ.
  - intros cb d C. unfold SchedulerSet.Schedule. by rewrite C.
  - intros cb d C N. eexists. split; [by apply set_Schedule_next|].
    split; [lia|]. rewrite T. apply Forall_seqZ. intros; lia.
  - intros cb d. apply set_Schedule_overflow.
Qed.

(** [n] calls of [Schedule] in a row, with a clock set and the counter at
    least [n] below [INT_MAX], return the next [n] values of the counter. *)
Lemma set_Schedule_repeat cb d n s :
  SchedulerSet.clock s <> None ->
  SchedulerSet.nextToken s + Z.of_nat n <= INT_MAX ->
  exists s' evs,
    SchedulerSet.run (replicate n (OpSchedule cb d)) s = Done (s', evs) /\
    SchedulerSet.clock s' = SchedulerSet.clock s /\
    SchedulerSet.nextToken s' = SchedulerSet.nextToken s + Z.of_nat n /\
    returned evs = seqZ (SchedulerSet.nextToken s) (Z.of_nat n).
Proof.
  revert s. induction n as [|n IH]; intros s C B.
  - exists s, []. repeat split. simpl. lia.
  - cbn [replicate SchedulerSet.run SchedulerSet.step].
    rewrite set_Schedule_next by (done || lia).
    match goal with
    | |- context [SchedulerSet.run _ ?s1] =>
        destruct (IH s1) as (s' & evs & R & C' & N' & T')
    end; [done|simpl; lia|].
    rewrite R. eexists _, _. split; [reflexivity|].
    split; [by rewrite C'|]. split; [rewrite N'; simpl; lia|].
    rewrite returned_app, T'. simpl.
    rewrite (seqZ_cons _ (Z.of_nat (S n))) by lia.
    f_equal. f_equal. lia.
Qed.

(** ** Reading the clock *)

Lemma wait_milliseconds_why w why :
  wait_milliseconds w = Undefined why -> why = FloatToIntOverflow.
Proof.
  unfold wait_milliseconds, int_of_double.
  intros H. repeat case_match; by simplify_eq.
Qed.

Ltac not_null_clock :=
  repeat case_match; simplify_eq;
  match goal with
  | W : wait_milliseconds _ = Undefined _ |- _ =>
      apply wait_milliseconds_why in W; discriminate
  end.

Lemma set_Worker_null_clock time s :
  SchedulerSet.stopWorker s = false ->
  SchedulerSet.scheduledCallbacks s <> [] ->
  SchedulerSet.Worker_iteration time s = Undefined NullClockDereference
  <-> SchedulerSet.clock s = None.
Proof.
  intros St Q. unfold SchedulerSet.Worker_iteration. rewrite St.
  destruct (top (SchedulerSet.scheduledCallbacks s)) as [e|] eqn:T;
    [|by apply top_None in T].
  destruct (SchedulerSet.clock s) as [c|]; [|done].
  split; [|done].
  intros H. not_null_clock.
Qed.

Lemma set_step_null_clock o s :
  SchedulerSet.step o s = Undefined NullClockDereference ->
  SchedulerSet.scheduledCallbacks s <> [] /\ SchedulerSet.clock s = None.
Proof.
  destruct o as [c|cb d|tok| |time]; simpl; try discriminate.
  - unfold SchedulerSet.Schedule, post_increment.
    intros H. repeat case_match; simplify_eq.
  - unfold SchedulerSet.Worker_iteration.
    destruct (SchedulerSet.stopWorker s); [discriminate|].
    destruct (top (SchedulerSet.scheduledCallbacks s)) as [e|] eqn:T;
      [|discriminate].
    intros H. split; [intros E; by rewrite E in T|].
    destruct (SchedulerSet.clock s); [|done].
    not_null_clock.
Qed.

Lemma set_clock_safe_step o s s' evs :
  is_null_SetClock o = false ->
  SchedulerSet.clock_safe s ->
  SchedulerSet.step o s = Done (s', evs) ->
  SchedulerSet.clock_safe s'.
Proof.
  unfold SchedulerSet.clock_safe. intros No Safe.
  destruct o as [c|cb d|tok| |time]; simpl.
  - intros [= <- <-]. simpl. destruct c; done.
  - destruct (SchedulerSet.Schedule cb d s) as [[[tok s1] e1]|] eqn:S;
      [|discriminate].
    intros [= <- <-].
    apply set_Schedule_spec in S as [(_ & _ & -> & _)|(C & _ & -> & -> & _)];
      [exact Safe|].
    intros _. exact C.
  - intros [= <- <-]. exact Safe.
  - intros [= <- <-]. exact Safe.
  - intros H. apply set_Worker_iteration_spec in H.
    destruct H as [St|St E|e c ms St T C G N Wm|e c St T C G N|e c St T C N];
      try exact Safe; simpl; intros _; by rewrite C.
Qed.

Lemma set_run_app ops1 ops2 s :
  SchedulerSet.run (ops1 ++ ops2) s
  = match SchedulerSet.run ops1 s with
    | Undefined why => Undefined why
    | Done (s1, evs1) =>
        match SchedulerSet.run ops2 s1 with
        | Undefined why => Undefined why
        | Done (s2, evs2) => Done (s2, evs1 ++ evs2)
        end
    end.
Proof.
  revert s. induction ops1 as [|o ops1 IH]; intros s; simpl.
  - by destruct (SchedulerSet.run ops2 s) as [[s2 evs2]|].
  - destruct (SchedulerSet.step o s) as [[s1 e1]|]; [|done].
    rewrite IH. destruct (SchedulerSet.run ops1 s1) as [[s2 e2]|]; [|done].
    destruct (SchedulerSet.run ops2 s2) as [[s3 e3]|]; [|done].
    by rewrite app_assoc.
Qed.

(** ** The token counter at INT_MAX *)

(** The scheduler after [n] successful calls of [Schedule], when the
    counter has reached [INT_MAX]. *)
Lemma set_counter_at_INT_MAX cb d c n :
  1 + Z.of_nat n = INT_MAX ->
  exists s evs,
    SchedulerSet.run (OpSetClock (Some c) :: replicate n (OpSchedule cb d))
      SchedulerSet.init
    = Done (s, evs) /\
    returned evs = seqZ 1 (Z.of_nat n) /\
    SchedulerSet.clock s = Some c /\
    SchedulerSet.nextToken s = INT_MAX /\
    SchedulerSet.Schedule cb d s = Undefined SignedOverflow /\
    SchedulerSet.run
      (OpSetClock (Some c) :: replicate n (OpSchedule cb d) ++ [OpSchedule cb d])
      SchedulerSet.init
    = Undefined SignedOverflow.
Proof.
  intros Hn.
  destruct (set_Schedule_repeat cb d n
              (SchedulerSet.SetClock (Some c) SchedulerSet.init))
    as (s & evs & R & C & N & T).
  { done. }
  { simpl. lia. }
  simpl in C, N, T.
  assert (SchedulerSet.Schedule cb d s = Undefined SignedOverflow) as O.
  { apply set_Schedule_overflow; [by rewrite C|lia]. }
  exists s, evs. split; [|split; [|split; [|split; [|split]]]].
  - cbn [SchedulerSet.run SchedulerSet.step]. by rewrite R.
  - exact T.
  - exact C.
  - lia.
  - exact O.
  - cbn [SchedulerSet.run SchedulerSet.step]. rewrite set_run_app, R.
    cbn [SchedulerSet.run SchedulerSet.step]. by rewrite O.
Qed.

(** C5 at a scheduler whose [Schedule] has succeeded [INT_MAX - 1] times
    (set-based revision).  With a clock set, the first [INT_MAX - 1] calls
    of [Schedule] return 1, 2, ..., [INT_MAX - 1] and leave [nextToken] at
    [INT_MAX].  The next call evaluates [nextToken++] at [INT_MAX]: the
    increment overflows the [int], which C++ leaves undefined, so the call
    is not bound to return a positive token that was not returned before,
    neither are the calls after it. *)
Theorem C5_token_counter_overflows :
  exists s evs,
    SchedulerSet.run
      (OpSetClock (Some 1%nat)
       :: replicate (Z.to_nat (INT_MAX - 1)) (OpSchedule 7 0))
      SchedulerSet.init
    = Done (s, evs) /\
    returned evs = seqZ 1 (INT_MAX - 1) /\
    SchedulerSet.clock s = Some 1%nat /\
    SchedulerSet.nextToken s = INT_MAX /\
    SchedulerSet.Schedule 7 0 s = Undefined SignedOverflow /\
    SchedulerSet.run
      (OpSetClock (Some 1%nat)
       :: replicate (Z.to_nat (INT_MAX - 1)) (OpSchedule 7 0)
          ++ [OpSchedule 7 0])
      SchedulerSet.init
    = Undefined SignedOverflow.
Proof.
  assert (1 + Z.of_nat (Z.to_nat (INT_MAX - 1)) = INT_MAX) as Hn.
  { rewrite Z2Nat.id; unfold INT_MAX; lia. }
  assert (Z.of_nat (Z.to_nat (INT_MAX - 1)) = INT_MAX - 1) as Hm by lia.
  destruct (set_counter_at_INT_MAX 7%nat 0%Q 1%nat _ Hn)
    as (s & evs & R & T & C & N & O & U).
  rewrite Hm in T.
  exists s, evs. exact (conj R (conj T (conj C (conj N (conj O U))))).
Qed.

(** The counter cannot overflow earlier: a run that ends in the overflow
    of [nextToken++] has made at least [INT_MAX] minus the counter's first
    value [Schedule] calls, and one more. *)
Lemma set_nextToken_step o s s' evs :
  SchedulerSet.step o s = Done (s', evs) ->
  SchedulerSet.nextToken s'
  <= SchedulerSet.nextToken s + (if is_Schedule o then 1 else 0).
Proof.
  destruct o as [c|cb d|tok| |time]; simpl.
  - intros [= <- <-]. simpl. lia.
  - destruct (SchedulerSet.Schedule cb d s) as [[[tok s1] e1]|] eqn:S;
      [|discriminate].
    intros [= <- <-].
    apply set_Schedule_spec in S as [(_ & _ & -> & _)|(_ & _ & -> & -> & _)];
      simpl; lia.
  - intros [= <- <-]. simpl. lia.
  - intros [= <- <-]. simpl. lia.
  - intros H. apply set_Worker_iteration_spec in H.
    destruct H; simpl; lia.
Qed.

Lemma set_step_overflow o s :
  SchedulerSet.step o s = Undefined SignedOverflow ->
  is_Schedule o = true /\ SchedulerSet.nextToken s = INT_MAX.
Proof.
  destruct o as [c|cb d|tok| |time]; simpl; try discriminate.
  - unfold SchedulerSet.Schedule, post_increment. intros H.
    destruct (SchedulerSet.clock s); [|discriminate].
    destruct (Z.eqb_spec (SchedulerSet.nextToken s) INT_MAX); [done|discriminate].
  - unfold SchedulerSet.Worker_iteration. intros H.
    repeat case_match; simplify_eq.
    match goal with
    | W : wait_milliseconds _ = Undefined _ |- _ =>
        apply wait_milliseconds_why in W; discriminate
    end.
Qed.

Lemma schedule_calls_cons o ops :
  schedule_calls (o :: ops)
  = (if is_Schedule o then 1 else 0) + schedule_calls ops.
Proof.
  unfold schedule_calls. rewrite filter_cons.
  destruct (is_Schedule o); case_decide; try done; simpl length; lia.
Qed.

Lemma schedule_calls_nonneg ops : 0 <= schedule_calls ops.
Proof. unfold schedule_calls. lia. Qed.

Lemma set_run_overflow ops s :
  SchedulerSet.run ops s = Undefined SignedOverflow ->
  INT_MAX < SchedulerSet.nextToken s + schedule_calls ops.
Proof.
  revert s. induction ops as [|o ops IH]; intros s; simpl; [discriminate|].
  rewrite schedule_calls_cons.
  destruct (SchedulerSet.step o s) as [[s1 e1]|why] eqn:S.
  - destruct (SchedulerSet.run ops s1) as [[s2 e2]|why] eqn:R; [discriminate|].
    intros [= ->]. specialize (IH _ R).
    pose proof (set_nextToken_step _ _ _ _ S). lia.
  - intros [= ->]. apply set_step_overflow in S as [-> N].
    pose proof (schedule_calls_nonneg ops). lia.
Qed.

Lemma set_run_clock_safe ops s :
  no_null_SetClock ops ->
  SchedulerSet.clock_safe s ->
  SchedulerSet.run ops s <> Undefined NullClockDereference.
Proof.
  revert s. induction ops as [|o ops IH]; intros s No Safe; simpl; [done|].
  apply Forall_cons in No as [No1 No].
  destruct (SchedulerSet.step o s) as [[s1 e1]|why] eqn:S.
  - pose proof (set_clock_safe_step _ _ _ _ No1 Safe S) as Safe1.
    specialize (IH s1 No Safe1).
    destruct (SchedulerSet.run ops s1) as [[s2 e2]|why]; [done|].
    intros [= ->]. done.
  - intros [= ->]. apply set_step_null_clock in S as [Q C]. by apply Safe.
Qed.

(** Until a [Schedule] succeeds the pending set stays empty. *)
Lemma set_run_nothing_scheduled ops s s' evs :
  SchedulerSet.wf s ->
  SchedulerSet.scheduledCallbacks s = [] ->
  SchedulerSet.run ops s = Done (s', evs) ->
  successful (returned evs) = [] ->
  SchedulerSet.scheduledCallbacks s' = [].
Proof.
  revert s s' evs. induction ops as [|o ops IH]; intros s s' evs W Q; simpl.
  - by intros [= <- <-].
  - destruct (SchedulerSet.step o s) as [[s1 e1]|] eqn:S; [|discriminate].
    destruct (SchedulerSet.run ops s1) as [[s2 e2]|] eqn:R; [|discriminate].
    intros [= <- <-]. rewrite returned_app, successful_app.
    intros E. apply app_eq_nil in E as [E1 E2].
    pose proof (set_returned_step _ _ _ _ W S) as T. rewrite E1 in T.
    destruct (set_wf_step _ _ _ _ W S) as [W1 L].
    apply (IH s1 s2 e2 W1); [|exact R|exact E2].
    destruct o as [c|cb d|tok| |time]; simpl in S.
    + by injection S as <- <-.
    + destruct (SchedulerSet.Schedule cb d s) as [[[tok sx] ex]|] eqn:Sc;
        [|discriminate].
      injection S as <- <-.
      apply set_Schedule_spec in Sc as [(_ & _ & -> & _)|(_ & _ & -> & -> & _)];
        [exact Q|].
      simpl in T. rewrite seqZ_cons in T by lia. discriminate.
    + by injection S as <- <-.
    + by injection S as <- <-.
    + apply set_Worker_iteration_spec in S.
      destruct S; try exact Q; simpl; by rewrite Q.
Qed.

Lemma map_returned_step o s s' evs :
  SchedulerMap.wf s -> SchedulerMap.step o s = Done (s', evs) ->
  successful (returned evs)
  = seqZ (SchedulerMap.nextToken s)
         (SchedulerMap.nextToken s' - SchedulerMap.nextToken s).
Proof.
  intros W. destruct o as [c|cb d|tok| |time]; simpl.
  - intros [= <- <-]. simpl. by rewrite Z.sub_diag.
  - destruct (SchedulerMap.Schedule cb d s) as [[[tok s1] e1]|] eqn:S;
      [|discriminate].
    intros [= <- <-].
    apply map_Schedule_spec in S
      as [(_ & -> & -> & ->)|(_ & _ & -> & -> & ->)]; simpl.
    + by rewrite Z.sub_diag.
    + destruct W as (_ & _ & Hn). unfold successful, returned. simpl.
      rewrite filter_cons_True by lia.
      replace (SchedulerMap.nextToken s + 1 - SchedulerMap.nextToken s)
        with 1 by lia.
      done.
  - unfold SchedulerMap.Cancel. intros [= <- <-]. simpl.
    destruct (SchedulerMap.isCallbackCanceled s !! tok); simpl;
      by rewrite Z.sub_diag.
  - intros [= <- <-]. simpl. by rewrite Z.sub_diag.
  - intros H. apply map_Worker_iteration_spec in H.
    destruct H; simpl; by rewrite Z.sub_diag.
Qed.

Lemma map_Worker_null_clock time s :
  SchedulerMap.stopWorker s = false ->
  SchedulerMap.scheduledCallbacks s <> [] ->
  SchedulerMap.Worker_iteration time s = Undefined NullClockDereference
  <-> SchedulerMap.clock s = None.
Proof.
  intros St Q. unfold SchedulerMap.Worker_iteration. rewrite St.
  destruct (top (SchedulerMap.scheduledCallbacks s)) as [e|] eqn:T;
    [|by apply top_None in T].
  destruct (SchedulerMap.clock s) as [c|]; [|done].
  split; [|done].
  intros H. not_null_clock.
Qed.

Lemma map_step_null_clock o s :
  SchedulerMap.step o s = Undefined NullClockDereference ->
  SchedulerMap.scheduledCallbacks s <> [] /\ SchedulerMap.clock s = None.
Proof.
  destruct o as [c|cb d|tok| |time]; simpl; try discriminate.
  - unfold SchedulerMap.Schedule, post_increment.
    intros H. repeat case_match; simplify_eq.
  - unfold SchedulerMap.Worker_iteration.
    destruct (SchedulerMap.stopWorker s); [discriminate|].
    destruct (top (SchedulerMap.scheduledCallbacks s)) as [e|] eqn:T;
      [|discriminate].
    intros H. split; [intros E; by rewrite E in T|].
    destruct (SchedulerMap.clock s); [|done].
    not_null_clock.
Qed.

Lemma map_clock_safe_step o s s' evs :
  is_null_SetClock o = false ->
  SchedulerMap.clock_safe s ->
  SchedulerMap.step o s = Done (s', evs) ->
  SchedulerMap.clock_safe s'.
Proof.
  unfold SchedulerMap.clock_safe. intros No Safe.
  destruct o as [c|cb d|tok| |time]; simpl.
  - intros [= <- <-]. simpl. destruct c; done.
  - destruct (SchedulerMap.Schedule cb d s) as [[[tok s1] e1]|] eqn:S;
      [|discriminate].
    intros [= <- <-].
    apply map_Schedule_spec in S as [(_ & _ & -> & _)|(C & _ & -> & -> & _)];
      [exact Safe|].
    intros _. exact C.
  - unfold SchedulerMap.Cancel. intros [= <- <-].
    by destruct (SchedulerMap.isCallbackCanceled s !! tok).
  - intros [= <- <-]. exact Safe.
  - intros H. apply map_Worker_iteration_spec in H.
    destruct H as [St|St E|e c ms St T C G N Wm|e c St T C G N|e c St T C N];
      try exact Safe; simpl; intros _; by rewrite C.
Qed.

Lemma map_run_app ops1 ops2 s :
  SchedulerMap.run (ops1 ++ ops2) s
  = match SchedulerMap.run ops1 s with
    | Undefined why => Undefined why
    | Done (s1, evs1) =>
        match SchedulerMap.run ops2 s1 with
        | Undefined why => Undefined why
        | Done (s2, evs2) => Done (s2, evs1 ++ evs2)
        end
    end.
Proof.
  revert s. induction ops1 as [|o ops1 IH]; intros s; simpl.
  - by destruct (SchedulerMap.run ops2 s) as [[s2 evs2]|].
  - destruct (SchedulerMap.step o s) as [[s1 e1]|]; [|done].
    rewrite IH. destruct (SchedulerMap.run ops1 s1) as [[s2 e2]|]; [|done].
    destruct (SchedulerMap.run ops2 s2) as [[s3 e3]|]; [|done].
    by rewrite app_assoc.
Qed.

Lemma map_run_clock_safe ops s :
  no_null_SetClock ops ->
  SchedulerMap.clock_safe s ->
  SchedulerMap.run ops s <> Undefined NullClockDereference.
Proof.
  revert s. induction ops as [|o ops IH]; intros s No Safe; simpl; [done|].
  apply Forall_cons in No as [No1 No].
  destruct (SchedulerMap.step o s) as [[s1 e1]|why] eqn:S.
  - pose proof (map_clock_safe_step _ _ _ _ No1 Safe S) as Safe1.
    specialize (IH s1 No Safe1).
    destruct (SchedulerMap.run ops s1) as [[s2 e2]|why]; [done|].
    intros [= ->]. done.
  - intros [= ->]. apply map_step_null_clock in S as [Q C]. by apply Safe.
Qed.

(** Until a [Schedule] succeeds the pending set stays empty. *)
Lemma map_run_nothing_scheduled ops s s' evs :
  SchedulerMap.wf s ->
  SchedulerMap.scheduledCallbacks s = [] ->
  SchedulerMap.run ops s = Done (s', evs) ->
  successful (returned evs) = [] ->
  SchedulerMap.scheduledCallbacks s' = [].
Proof.
  revert s s' evs. induction ops as [|o ops IH]; intros s s' evs W Q; simpl.
  - by intros [= <- <-].
  - destruct (SchedulerMap.step o s) as [[s1 e1]|] eqn:S; [|discriminate].
    destruct (SchedulerMap.run ops s1) as [[s2 e2]|] eqn:R; [|discriminate].
    intros [= <- <-]. rewrite returned_app, successful_app.
    intros E. apply app_eq_nil in E as [E1 E2].
    pose proof (map_returned_step _ _ _ _ W S) as T. rewrite E1 in T.
    destruct (map_wf_step _ _ _ _ W S) as [W1 L].
    apply (IH s1 s2 e2 W1); [|exact R|exact E2].
    destruct o as [c|cb d|tok| |time]; simpl in S.
    + by injection S as <- <-.
    + destruct (SchedulerMap.Schedule cb d s) as [[[tok sx] ex]|] eqn:Sc;
        [|discriminate].
      injection S as <- <-.
      apply map_Schedule_spec in Sc as [(_ & _ & -> & _)|(_ & _ & -> & -> & _)];
        [exact Q|].
      simpl in T. rewrite seqZ_cons in T by lia. discriminate.
    + unfold SchedulerMap.Cancel in S. injection S as <- <-.
      by destruct (SchedulerMap.isCallbackCanceled s !! tok).
    + by injection S as <- <-.
    + apply map_Worker_iteration_spec in S.
      destruct S; try exact Q; simpl; by rewrite Q.
Qed.

Lemma set_Schedule_success cb d s tok s' evs :
  SchedulerSet.Schedule cb d s = Done (tok, s', evs) -> tok <> 0 ->
  SchedulerSet.clock s' <> None /\ SchedulerSet.scheduledCallbacks s' <> [].
Proof.
  intros S Ht.
  apply set_Schedule_spec in S as [(_ & -> & _)|(C & _ & -> & -> & _)]; [done|].
  split; [exact C|]. simpl. unfold push. intros E.
  by apply app_eq_nil in E as [_ E].
Qed.

Lemma map_Schedule_success cb d s tok s' evs :
  SchedulerMap.Schedule cb d s = Done (tok, s', evs) -> tok <> 0 ->
  SchedulerMap.clock s' <> None /\ SchedulerMap.scheduledCallbacks s' <> [].
Proof.
  intros S Ht.
  apply map_Schedule_spec in S as [(_ & -> & _)|(C & _ & -> & -> & _)]; [done|].
  split; [exact C|]. simpl. unfold push. intros E.
  by apply app_eq_nil in E as [_ E].
Qed.

Lemma set_run_null_safe ops1 ops2 s1 evs1 :
  SchedulerSet.run ops1 SchedulerSet.init = Done (s1, evs1) ->
  successful (returned evs1) = [] ->
  no_null_SetClock ops2 ->
  SchedulerSet.run (ops1 ++ ops2) SchedulerSet.init
  <> Undefined NullClockDereference.
Proof.
  intros R E No. rewrite set_run_app, R.
  pose proof (set_run_nothing_scheduled _ _ _ _ set_wf_init eq_refl R E) as Q.
  assert (SchedulerSet.clock_safe s1) as Safe by (intros Q'; by rewrite Q in Q').
  pose proof (set_run_clock_safe ops2 s1 No Safe) as N.
  destruct (SchedulerSet.run ops2 s1) as [[s2 e2]|why]; [done|].
  intros [= ->]. done.
Qed.

Lemma map_run_null_safe ops1 ops2 s1 evs1 :
  SchedulerMap.run ops1 SchedulerMap.init = Done (s1, evs1) ->
  successful (returned evs1) = [] ->
  no_null_SetClock ops2 ->
  SchedulerMap.run (ops1 ++ ops2) SchedulerMap.init
  <> Undefined NullClockDereference.
Proof.
  intros R E No. rewrite map_run_app, R.
  pose proof (map_run_nothing_scheduled _ _ _ _ map_wf_init eq_refl R E) as Q.
  assert (SchedulerMap.clock_safe s1) as Safe by (intros Q'; by rewrite Q in Q').
  pose proof (map_run_clock_safe ops2 s1 No Safe) as N.
  destruct (SchedulerMap.run ops2 s1) as [[s2 e2]|why]; [done|].
  intros [= ->]. done.
Qed.

(** C9: in both revisions, an iteration of the worker that finds a pending
    entry reads the clock through the stored pointer without testing it: the
    iteration is a null dereference exactly when the stored clock is null.
    A successful [Schedule] leaves a non-null clock and a pending entry;
    [SetClock] stores whatever it is given, null included, and keeps the
    pending entries.  So a run in which [SetClock] is not called with a null
    clock once a [Schedule] has succeeded never dereferences a null clock,
    and the run that sets a clock, schedules, sets a null clock and lets the
    worker look does. *)
Theorem C9_clock_dereference :
  ((forall time s,
      SchedulerSet.stopWorker s = false ->
      SchedulerSet.scheduledCallbacks s <> [] ->
      SchedulerSet.Worker_iteration time s = Undefined NullClockDereference
      <-> SchedulerSet.clock s = None) /\
   (forall cb d s tok s' evs,
      SchedulerSet.Schedule cb d s = Done (tok, s', evs) -> tok <> 0 ->
      SchedulerSet.clock s' <> None /\ SchedulerSet.scheduledCallbacks s' <> []) /\
   (forall s,
      SchedulerSet.clock (SchedulerSet.SetClock None s) = None /\
      SchedulerSet.scheduledCallbacks (SchedulerSet.SetClock None s)
      = SchedulerSet.scheduledCallbacks s) /\
   (forall ops1 ops2 s1 evs1,
      SchedulerSet.run ops1 SchedulerSet.init = Done (s1, evs1) ->
      successful (returned evs1) = [] ->
      no_null_SetClock ops2 ->
      SchedulerSet.run (ops1 ++ ops2) SchedulerSet.init
      <> Undefined NullClockDereference) /\
   (forall time,
      SchedulerSet.run
        [OpSetClock (Some 1%nat); OpSchedule 7 10; OpSetClock None; OpWorker time]
        SchedulerSet.init
      = Undefined NullClockDereference)) /\
  ((forall time s,
      SchedulerMap.stopWorker s = false ->
      SchedulerMap.scheduledCallbacks s <> [] ->
      SchedulerMap.Worker_iteration time s = Undefined NullClockDereference
      <-> SchedulerMap.clock s = None) /\
   (forall cb d s tok s' evs,
      SchedulerMap.Schedule cb d s = Done (tok, s', evs) -> tok <> 0 ->
      SchedulerMap.clock s' <> None /\ SchedulerMap.scheduledCallbacks s' <> []) /\
   (forall s,
      SchedulerMap.clock (SchedulerMap.SetClock None s) = None /\
      SchedulerMap.scheduledCallbacks (SchedulerMap.SetClock None s)
      = SchedulerMap.scheduledCallbacks s) /\
   (forall ops1 ops2 s1 evs1,
      SchedulerMap.run ops1 SchedulerMap.init = Done (s1, evs1) ->
      successful (returned evs1) = [] ->
      no_null_SetClock ops2 ->
      SchedulerMap.run (ops1 ++ ops2) SchedulerMap.init
      <> Undefined NullClockDereference) /\
   (forall time,
      SchedulerMap.run
        [OpSetClock (Some 1%nat); OpSchedule 7 10; OpSetClock None; OpWorker time]
        SchedulerMap.init
      = Undefined NullClockDereference)).
Proof.
  split; (split; [|split; [|split; [|split]]]).
  - apply set_Worker_null_clock.
  - apply set_Schedule_success.
  - done.
  - apply set_run_null_safe.
  - done.
  - apply map_Worker_null_clock.
  - apply map_Schedule_success.
  - done.
  - apply map_run_null_safe.
  - done.
Qed.

Lemma C9_clock_dereference_witness :
  SchedulerSet.run
    ([OpSetClock None; OpSchedule 6 1]
     ++ [OpSetClock (Some 1%nat); OpSchedule 7 10; OpWorker (fun _ => 0%Q)])
    SchedulerSet.init
  <> Undefined NullClockDereference /\
  SchedulerMap.run
    ([OpSetClock None; OpSchedule 6 1]
     ++ [OpSetClock (Some 1%nat); OpSchedule 7 10; OpWorker (fun _ => 0%Q)])
    SchedulerMap.init
  <> Undefined NullClockDereference.
Proof.
  destruct C9_clock_dereference
    as [(_ & _ & _ & HS & _) (_ & _ & _ & HM & _)].
  split.
  - apply (HS [OpSetClock None; OpSchedule 6 1] _ SchedulerSet.init [EvReturn 0]).
    + reflexivity.
    + reflexivity.
    + repeat constructor.
  - apply (HM [OpSetClock None; OpSchedule 6 1] _ SchedulerMap.init [EvReturn 0]).
    + reflexivity.
    + reflexivity.
    + repeat constructor.
Defined.

(** ** The keys of the map *)

(** C10 (map-based revision): after every run of public operations and
    worker iterations from the freshly constructed scheduler, the set of keys
    of [isCallbackCanceled] is the set of tokens of the pending entries, and
    no two pending entries share a token. *)
Theorem C10_map_keys_are_pending_tokens ops s evs :
  SchedulerMap.run ops SchedulerMap.init = Done (s, evs) ->
  dom (SchedulerMap.isCallbackCanceled s)
  = list_to_set (tokens (SchedulerMap.scheduledCallbacks s)) /\
  NoDup (tokens (SchedulerMap.scheduledCallbacks s)).
Proof.
  intros R.
  assert (SchedulerMap.tracked SchedulerMap.init) as I0 by done.
  destruct (map_run_invariant _ _ _ _ map_wf_init I0 R) as [W T].
  split; [exact T|]. by destruct W.
Qed.

Lemma C10_map_keys_are_pending_tokens_witness :
  dom (<[ 3 := false ]> (<[ 2 := true ]> ∅) : gmap Z bool)
  = (list_to_set [2; 3] : gset Z) /\ NoDup [2; 3].
Proof.
  refine (C10_map_keys_are_pending_tokens
    [OpSetClock (Some 1%nat); OpSchedule 7 0; OpSchedule 8 20; OpCancel 2;
     OpCancel 9; OpWorker (fun _ => 5%Q); OpSchedule 9 30; OpWakeUp]
    (SchedulerMap.mkImpl (Some 1%nat)
       [mkScheduledCallback 2 20 8; mkScheduledCallback 3 30 9]
       false 4 (<[ 3 := false ]> (<[ 2 := true ]> ∅)))
    [EvLock; EvNotifyOne; EvUnlock; EvReturn 1;
     EvLock; EvNotifyOne; EvUnlock; EvReturn 2;
     EvLock; EvUnlock; EvLock; EvUnlock;
     EvUnlock; EvCall 7; EvLock;
     EvLock; EvNotifyOne; EvUnlock; EvReturn 3;
     EvLock; EvNotifyOne; EvUnlock] _).
  vm_compute. reflexivity.
Defined.

Lemma map_run_wf ops s s' evs :
  SchedulerMap.wf s -> SchedulerMap.run ops s = Done (s', evs) ->
  SchedulerMap.wf s'.
Proof.
  revert s s' evs. induction ops as [|o ops IH]; intros s s' evs W; simpl.
  - by intros [= <- <-].
  - destruct (SchedulerMap.step o s) as [[s1 e1]|] eqn:S; [|discriminate].
    destruct (SchedulerMap.run ops s1) as [[s2 e2]|] eqn:R; [|discriminate].
    intros [= <- <-]. apply (map_wf_step _ _ _ _ W) in S as [W1 _].
    exact (IH _ _ _ W1 R).
Qed.

(** ** Draining a canceled entry *)

(** The set-based revision pops the canceled entry and leaves its token in
    [canceledCallbacks]. *)
Lemma C1_set_token_stays_canceled :
  let s := SchedulerSet.mkImpl (Some 1%nat) [mkScheduledCallback 1 10 7]
             false 2 {[ 1 ]} in
  top (SchedulerSet.scheduledCallbacks s) = Some (mkScheduledCallback 1 10 7) /\
  1 ∈ SchedulerSet.canceledCallbacks s /\
  exists s',
    SchedulerSet.Worker_iteration (fun _ => 0%Q) s = Done (s', []) /\
    ~ (1 ∉ SchedulerSet.canceledCallbacks s').
Proof.
  simpl. split; [reflexivity|]. split; [by apply elem_of_singleton|].
  eexists. split; [reflexivity|]. simpl. intros H. apply H.
  by apply elem_of_singleton.
Qed.

(** C1, as the two revisions have it.  In every state that a run reaches, if
    the worker finds the token of the earliest pending entry canceled, the
    iteration removes that entry from the pending set and calls nothing;
    afterwards no pending entry carries the token.  The map-based revision
    also erases the token's key, so the token is in neither structure; the
    set-based revision leaves [canceledCallbacks] as it was, with the token
    in it. *)
Theorem C1_draining :
  (forall ops s evs time e c,
     SchedulerMap.run ops SchedulerMap.init = Done (s, evs) ->
     SchedulerMap.stopWorker s = false ->
     top (SchedulerMap.scheduledCallbacks s) = Some e ->
     SchedulerMap.clock s = Some c ->
     SchedulerMap.isCallbackCanceled s !! token e = Some true ->
     exists s',
       SchedulerMap.Worker_iteration time s = Done (s', []) /\
       SchedulerMap.scheduledCallbacks s' = pop (SchedulerMap.scheduledCallbacks s) /\
       (token e ∉ tokens (SchedulerMap.scheduledCallbacks s')) /\
       SchedulerMap.isCallbackCanceled s' !! token e = None) /\
  (forall ops s evs time e c,
     SchedulerSet.run ops SchedulerSet.init = Done (s, evs) ->
     SchedulerSet.stopWorker s = false ->
     top (SchedulerSet.scheduledCallbacks s) = Some e ->
     SchedulerSet.clock s = Some c ->
     token e ∈ SchedulerSet.canceledCallbacks s ->
     exists s',
       SchedulerSet.Worker_iteration time s = Done (s', []) /\
       SchedulerSet.scheduledCallbacks s' = pop (SchedulerSet.scheduledCallbacks s) /\
       (token e ∉ tokens (SchedulerSet.scheduledCallbacks s')) /\
       SchedulerSet.canceledCallbacks s' = SchedulerSet.canceledCallbacks s).
Proof.
  split; intros ops s evs time e c R St T C N.
  - pose proof (map_run_wf _ _ _ _ map_wf_init R) as W.
    eexists. split; [|split; [|split]].
    + apply map_Worker_iteration_spec. eapply SchedulerMap.Draining; eauto.
      unfold SchedulerMap.canceled. by apply subscript_true.
    + reflexivity.
    + simpl. by eapply wf_queue_pop_fresh.
    + simpl. apply lookup_delete_eq.
  - pose proof (set_run_wf _ _ _ _ set_wf_init R) as W.
    eexists. split; [|split; [|split]].
    + apply set_Worker_iteration_spec. eapply SchedulerSet.Draining; eauto.
    + reflexivity.
    + simpl. by eapply wf_queue_pop_fresh.
    + reflexivity.
Qed.

Lemma C1_draining_witness :
  (exists s',
     SchedulerMap.Worker_iteration (fun _ => 5%Q)
       (SchedulerMap.mkImpl (Some 1%nat) [mkScheduledCallback 1 10 7] false 2
          (<[ 1 := true ]> (<[ 1 := false ]> ∅)))
     = Done (s', []) /\
     SchedulerMap.scheduledCallbacks s' = [] /\
     (1 ∉ tokens (SchedulerMap.scheduledCallbacks s')) /\
     SchedulerMap.isCallbackCanceled s' !! 1 = None) /\
  (exists s',
     SchedulerSet.Worker_iteration (fun _ => 5%Q)
       (SchedulerSet.mkImpl (Some 1%nat) [mkScheduledCallback 1 10 7] false 2
          ({[ 1 ]} ∪ ∅))
     = Done (s', []) /\
     SchedulerSet.scheduledCallbacks s' = [] /\
     (1 ∉ tokens (SchedulerSet.scheduledCallbacks s')) /\
     SchedulerSet.canceledCallbacks s' = {[ 1 ]} ∪ ∅).
Proof.
  destruct C1_draining as [HM HS]. split.
  - refine (HM [OpSetClock (Some 1%nat); OpSchedule 7 10; OpCancel 1]
              (SchedulerMap.mkImpl (Some 1%nat) [mkScheduledCallback 1 10 7]
                 false 2 (<[ 1 := true ]> (<[ 1 := false ]> ∅)))
              [EvLock; EvNotifyOne; EvUnlock; EvReturn 1; EvLock; EvUnlock]
              (fun _ => 5%Q) (mkScheduledCallback 1 10 7) 1%nat _ _ _ _ _).
    + vm_compute. reflexivity.
    + reflexivity.
    + reflexivity.
    + reflexivity.
    + vm_compute. reflexivity.
  - refine (HS [OpSetClock (Some 1%nat); OpSchedule 7 10; OpCancel 1]
              (SchedulerSet.mkImpl (Some 1%nat) [mkScheduledCallback 1 10 7]
                 false 2 ({[ 1 ]} ∪ ∅))
              [EvLock; EvNotifyOne; EvUnlock; EvReturn 1; EvLock; EvUnlock]
              (fun _ => 5%Q) (mkScheduledCallback 1 10 7) 1%nat _ _ _ _ _).
    + vm_compute. reflexivity.
    + reflexivity.
    + reflexivity.
    + reflexivity.
    + apply elem_of_union_l. by apply elem_of_singleton.
Defined.

(** ** Firing and the mutex *)

(** The set-based revision calls the callback while the worker owns the
    mutex: it emits no unlock before the call. *)
Lemma C2_set_calls_with_lock_held :
  let s := SchedulerSet.mkImpl (Some 1%nat) [mkScheduledCallback 1 10 7]
             false 2 ∅ in
  exists s',
    SchedulerSet.Worker_iteration (fun _ => 10%Q) s = Done (s', [EvCall 7]) /\
    replay WorkerThread (Some (WorkerThread, 1%nat)) [EvCall 7]
    = Some ([(7%nat, Some (WorkerThread, 1%nat))], Some (WorkerThread, 1%nat)) /\
    Some (WorkerThread, 1%nat) <> (None : recursive_mutex).
Proof.
  simpl. eexists. split; [reflexivity|]. split; [reflexivity|]. discriminate.
Qed.

(** C2, as the two revisions have it.  When the earliest pending entry is due
    (the test [due - now > 0] fails) and not canceled, the worker, which
    owns the mutex once, removes the entry from the pending set and calls
    its callback.  The map-based
    revision unlocks first, so the mutex is free during the call and any
    thread's [lock] succeeds, and locks again after the call.  The set-based
    revision does not unlock: the worker owns the mutex during the call; the
    mutex being recursive, a [lock] made on the worker's thread (a callback
    re-entering [Schedule] or [Cancel]) still succeeds, one made on another
    thread has to wait. *)
Theorem C2_firing :
  (forall time s e c,
     SchedulerMap.stopWorker s = false ->
     top (SchedulerMap.scheduledCallbacks s) = Some e ->
     SchedulerMap.clock s = Some c ->
     double_gt (due e - time c)%D 0%Q = false ->
     SchedulerMap.canceled s (token e) = false ->
     exists s',
       SchedulerMap.Worker_iteration time s
       = Done (s', [EvUnlock; EvCall (callback e); EvLock]) /\
       SchedulerMap.scheduledCallbacks s' = pop (SchedulerMap.scheduledCallbacks s) /\
       replay WorkerThread (Some (WorkerThread, 1%nat))
         [EvUnlock; EvCall (callback e); EvLock]
       = Some ([(callback e, None)], Some (WorkerThread, 1%nat)) /\
       forall t, is_Some (mutex_lock t None)) /\
  (forall time s e c,
     SchedulerSet.stopWorker s = false ->
     top (SchedulerSet.scheduledCallbacks s) = Some e ->
     SchedulerSet.clock s = Some c ->
     double_gt (due e - time c)%D 0%Q = false ->
     token e ∉ SchedulerSet.canceledCallbacks s ->
     exists s',
       SchedulerSet.Worker_iteration time s = Done (s', [EvCall (callback e)]) /\
       SchedulerSet.scheduledCallbacks s' = pop (SchedulerSet.scheduledCallbacks s) /\
       replay WorkerThread (Some (WorkerThread, 1%nat)) [EvCall (callback e)]
       = Some ([(callback e, Some (WorkerThread, 1%nat))],
               Some (WorkerThread, 1%nat)) /\
       is_Some (mutex_lock WorkerThread (Some (WorkerThread, 1%nat))) /\
       forall t, t <> WorkerThread ->
                 mutex_lock t (Some (WorkerThread, 1%nat)) = None).
Proof.
  split; intros time s e c St T C G N.
  - eexists. split; [|split; [|split]].
    + apply map_Worker_iteration_spec. by eapply SchedulerMap.Firing.
    + reflexivity.
    + reflexivity.
    + intros t. by eexists.
  - eexists. split; [|split; [|split; [|split]]].
    + apply set_Worker_iteration_spec. by eapply SchedulerSet.Firing.
    + reflexivity.
    + reflexivity.
    + by eexists.
    + intros t Ht. unfold mutex_lock. destruct (decide (WorkerThread = t)); done.
Qed.

Lemma C2_firing_witness :
  (exists s',
     SchedulerMap.Worker_iteration (fun _ => 10%Q)
       (SchedulerMap.mkImpl (Some 1%nat) [mkScheduledCallback 1 10 7] false 2
          (<[ 1 := false ]> ∅))
     = Done (s', [EvUnlock; EvCall 7; EvLock]) /\
     SchedulerMap.scheduledCallbacks s' = [] /\
     replay WorkerThread (Some (WorkerThread, 1%nat)) [EvUnlock; EvCall 7; EvLock]
     = Some ([(7%nat, None)], Some (WorkerThread, 1%nat)) /\
     forall t, is_Some (mutex_lock t None)) /\
  (exists s',
     SchedulerSet.Worker_iteration (fun _ => 10%Q)
       (SchedulerSet.mkImpl (Some 1%nat) [mkScheduledCallback 1 10 7] false 2 ∅)
     = Done (s', [EvCall 7]) /\
     SchedulerSet.scheduledCallbacks s' = [] /\
     replay WorkerThread (Some (WorkerThread, 1%nat)) [EvCall 7]
     = Some ([(7%nat, Some (WorkerThread, 1%nat))], Some (WorkerThread, 1%nat)) /\
     is_Some (mutex_lock WorkerThread (Some (WorkerThread, 1%nat))) /\
     forall t, t <> WorkerThread ->
               mutex_lock t (Some (WorkerThread, 1%nat)) = None).
Proof.
  destruct C2_firing as [HM HS]. split.
  - refine (HM (fun _ => 10%Q)
              (SchedulerMap.mkImpl (Some 1%nat) [mkScheduledCallback 1 10 7]
                 false 2 (<[ 1 := false ]> ∅))
              (mkScheduledCallback 1 10 7) 1%nat _ _ _ _ _).
    + reflexivity.
    + reflexivity.
    + reflexivity.
    + reflexivity.
    + vm_compute. reflexivity.
  - refine (HS (fun _ => 10%Q)
              (SchedulerSet.mkImpl (Some 1%nat) [mkScheduledCallback 1 10 7]
                 false 2 ∅)
              (mkScheduledCallback 1 10 7) 1%nat _ _ _ _ _).
    + reflexivity.
    + reflexivity.
    + reflexivity.
    + reflexivity.
    + apply not_elem_of_empty.
Defined.

(** ** Due times *)

(** [due - now > 0] is [now < due], whatever the two values are. *)
Lemma wait_positive (d now : double) :
  double_gt (d - now)%D 0%Q = true <-> (now < d)%D.
Proof.
  destruct d, now; simpl; try done.
  rewrite !Qgt_bool_true. unfold Qminus. symmetry. apply Qlt_minus_iff.
Qed.

Lemma wait_not_positive (d now : double) :
  double_gt (d - now)%D 0%Q = false <-> ~ (now < d)%D.
Proof.
  rewrite <- wait_positive.
  destruct (double_gt (d - now)%D 0%Q); split; congruence.
Qed.

(** Between numbers, [due - now > 0] fails exactly when [due <= now]. *)
Lemma wait_not_positive_le (d now : double) :
  is_number d -> is_number now ->
  double_gt (d - now)%D 0%Q = false <-> (d <= now)%D.
Proof.
  intros Hd Hn. rewrite wait_not_positive. by apply double_not_lt_le.
Qed.








(** ** The timeout of the timed wait *)

(** C8 at an entry due 3000000 seconds (some 35 days) after the clock's
    time, in both revisions: the wait is positive and the entry is not
    canceled, the number of milliseconds rounded up is 3000000000, which is
    more than [INT_MAX], so the conversion [(int)ceil(...)] is undefined and
    the iteration does not block with that timeout. *)
Theorem C8_timeout_overflows_int :
  let e := mkScheduledCallback 1 3000000 7 in
  let time : Clock -> double := fun _ => 0%Q in
  let sset := SchedulerSet.mkImpl (Some 1%nat) [e] false 2 ∅ in
  let smap := SchedulerMap.mkImpl (Some 1%nat) [e] false 2 (<[ 1 := false ]> ∅) in
  double_gt (due e - time 1%nat)%D 0%Q = true /\
  double_ceil (double_mul (due e - time 1%nat)%D 1000) = inject_Z 3000000000 /\
  INT_MAX < 3000000000 /\
  (token e ∉ SchedulerSet.canceledCallbacks sset) /\
  SchedulerMap.canceled smap (token e) = false /\
  SchedulerSet.Worker_iteration time sset = Undefined FloatToIntOverflow /\
  SchedulerMap.Worker_iteration time smap = Undefined FloatToIntOverflow.
Proof.
  simpl. repeat split.
  apply not_elem_of_empty.
Qed.

(** ** Cancel *)

(** In the map-based revision [Cancel] changes nothing unless the token is
    the key of an entry that is pending and not yet canceled. *)
Lemma map_Cancel_noop tok s :
  SchedulerMap.isCallbackCanceled s !! tok <> Some false ->
  SchedulerMap.Cancel tok s = (s, [EvLock; EvUnlock]).
Proof.
  intros N. unfold SchedulerMap.Cancel.
  destruct (SchedulerMap.isCallbackCanceled s !! tok) as [[]|] eqn:L; try done.
  rewrite insert_id by done. by destruct s.
Qed.

(** In the set-based revision [Cancel] changes nothing when the token is
    canceled already; it never touches the pending set or the counter. *)
Lemma set_Cancel_again tok s :
  tok ∈ SchedulerSet.canceledCallbacks s ->
  SchedulerSet.Cancel tok s = (s, [EvLock; EvUnlock]).
Proof.
  intros In. unfold SchedulerSet.Cancel.
  replace ({[tok]} ∪ SchedulerSet.canceledCallbacks s)
    with (SchedulerSet.canceledCallbacks s); [by destruct s|].
  apply set_eq. intros t. rewrite elem_of_union, elem_of_singleton.
  split; [tauto|intros [->|?]; done].
Qed.

(** C4 on the set-based revision, at the run: set a clock, [Cancel(1)]
    before any token was handed out, [Schedule] a callback due at once,
    let the worker look.  Without the [Cancel] the callback is called; with
    it the registration, which receives the token 1, is dropped without a
    call.  The map-based revision calls the callback in the same run. *)
Theorem C4_cancel_of_unissued_token :
  let time : Clock -> double := fun _ => 0%Q in
  (exists s evs,
     SchedulerSet.run
       [OpSetClock (Some 1%nat); OpSchedule 7 0; OpWorker time]
       SchedulerSet.init = Done (s, evs) /\
     returned evs = [1] /\ calls evs = [7%nat]) /\
  (exists s evs,
     SchedulerSet.run
       [OpSetClock (Some 1%nat); OpCancel 1; OpSchedule 7 0; OpWorker time]
       SchedulerSet.init = Done (s, evs) /\
     returned evs = [1] /\ calls evs = [] /\
     SchedulerSet.scheduledCallbacks s = []) /\
  (exists s evs,
     SchedulerMap.run
       [OpSetClock (Some 1%nat); OpCancel 1; OpSchedule 7 0; OpWorker time]
       SchedulerMap.init = Done (s, evs) /\
     returned evs = [1] /\ calls evs = [7%nat]).
Proof.
  simpl. split; [|split]; do 2 eexists; (split; [vm_compute; reflexivity|]);
    repeat split.
Qed.

(** ** The order of the calls *)

Lemma set_fired_by_spec o s e :
  SchedulerSet.fired_by o s = Some e ->
  top (SchedulerSet.scheduledCallbacks s) = Some e /\
  SchedulerSet.step o s
  = Done (SchedulerSet.set_scheduledCallbacks
            (pop (SchedulerSet.scheduledCallbacks s)) s,
          [EvCall (callback e)]).
Proof.
  destruct o as [c|cb d|tok| |time]; simpl; try discriminate.
  destruct (SchedulerSet.Worker_iteration time s) as [[s' evs]|] eqn:H;
    [|discriminate].
  apply set_Worker_iteration_spec in H.
  destruct H as [St|St E|e' c ms St T C G N Wm|e' c St T C G N|e' c St T C N];
    simpl; try discriminate.
  rewrite T. intros [= ->]. done.
Qed.

Lemma set_fired_by_None o s s' evs :
  SchedulerSet.fired_by o s = None ->
  SchedulerSet.step o s = Done (s', evs) ->
  calls evs = [].
Proof.
  destruct o as [c|cb d|tok| |time]; simpl.
  - by intros _ [= <- <-].
  - intros _. destruct (SchedulerSet.Schedule cb d s) as [[[tok s1] e1]|] eqn:S;
      [|discriminate].
    intros [= <- <-].
    by apply set_Schedule_spec in S as [(_ & _ & _ & ->)|(_ & _ & _ & _ & ->)].
  - by intros _ [= <- <-].
  - by intros _ [= <- <-].
  - intros F H. rewrite H in F.
    apply set_Worker_iteration_spec in H.
    destruct H as [St|St E|e' c ms St T C G N Wm|e' c St T C G N|e' c St T C N];
      try done.
    simpl in F. by rewrite T in F.
Qed.

(** A pending entry leaves the pending set only by being the earliest one
    when the worker pops. *)
Lemma set_step_keeps o s s' evs e :
  SchedulerSet.step o s = Done (s', evs) ->
  e ∈ SchedulerSet.scheduledCallbacks s ->
  e ∈ SchedulerSet.scheduledCallbacks s' \/
  (top (SchedulerSet.scheduledCallbacks s) = Some e /\
   SchedulerSet.scheduledCallbacks s' = pop (SchedulerSet.scheduledCallbacks s)).
Proof.
  intros S In. destruct o as [c|cb d|tok| |time]; simpl in S.
  - injection S as <- <-. by left.
  - destruct (SchedulerSet.Schedule cb d s) as [[[tok s1] e1]|] eqn:Sc;
      [|discriminate].
    injection S as <- <-.
    apply set_Schedule_spec in Sc as [(_ & _ & -> & _)|(_ & _ & _ & -> & _)];
      [by left|].
    left. simpl. unfold push. apply elem_of_app. by left.
  - injection S as <- <-. by left.
  - injection S as <- <-. by left.
  - apply set_Worker_iteration_spec in S.
    destruct S as [St|St E|e' c ms St T C G N Wm|e' c St T C G N|e' c St T C N];
      try (by left); simpl;
      (destruct (elem_of_pop _ _ _ T In) as [->|In']; [by right|by left]).
Qed.

(** A pending entry was pending before the step or has just been given
    the next token. *)
Lemma set_step_origin o s s' evs e :
  SchedulerSet.step o s = Done (s', evs) ->
  e ∈ SchedulerSet.scheduledCallbacks s' ->
  e ∈ SchedulerSet.scheduledCallbacks s \/ token e = SchedulerSet.nextToken s.
Proof.
  intros S In. destruct o as [c|cb d|tok| |time]; simpl in S.
  - injection S as <- <-. by left.
  - destruct (SchedulerSet.Schedule cb d s) as [[[tok s1] e1]|] eqn:Sc;
      [|discriminate].
    injection S as <- <-.
    apply set_Schedule_spec in Sc as [(_ & _ & -> & _)|(_ & _ & -> & -> & _)];
      [by left|].
    simpl in In. unfold push in In. apply elem_of_app in In as [In|In];
      [by left|].
    apply list_elem_of_singleton in In. subst e. by right.
  - injection S as <- <-. by left.
  - injection S as <- <-. by left.
  - apply set_Worker_iteration_spec in S.
    destruct S as [St|St E|e' c ms St T C G N Wm|e' c St T C G N|e' c St T C N];
      try (by left); left; by apply pop_subset.
Qed.

Lemma wf_queue_bound q n e : wf_queue q n -> e ∈ q -> 1 <= token e < n.
Proof.
  intros (_ & B & _) In. rewrite Forall_forall in B. apply B.
  unfold tokens. by apply list_elem_of_fmap_2.
Qed.

(** A fired entry was pending at the start of the run or was scheduled
    during it. *)
Lemma set_fired_origin ops s e :
  SchedulerSet.wf s ->
  e ∈ SchedulerSet.fired ops s ->
  e ∈ SchedulerSet.scheduledCallbacks s \/ SchedulerSet.nextToken s <= token e.
Proof.
  revert s. induction ops as [|o ops IH]; intros s W; simpl.
  - intros In. inversion In.
  - destruct (SchedulerSet.step o s) as [[s1 e1]|] eqn:S.
    2:{ intros In. inversion In. }
    destruct (set_wf_step _ _ _ _ W S) as [W1 L].
    assert (e ∈ SchedulerSet.fired ops s1 ->
            e ∈ SchedulerSet.scheduledCallbacks s \/
            SchedulerSet.nextToken s <= token e) as Rest.
    { intros In. destruct (IH s1 W1 In) as [In1|Ge]; [|right; lia].
      destruct (set_step_origin _ _ _ _ _ S In1) as [?|Eq]; [by left|right; lia]. }
    destruct (SchedulerSet.fired_by o s) as [e'|] eqn:F; [|exact Rest].
    intros In. apply elem_of_cons in In as [->|In]; [|by apply Rest].
    left. apply set_fired_by_spec in F as [T _]. by apply top_elem.
Qed.

(** As long as the due times that are scheduled are numbers, so are those
    of the pending entries. *)
Lemma numeric_queue_pop q : numeric_queue q -> numeric_queue (pop q).
Proof.
  unfold numeric_queue. rewrite !Forall_forall.
  intros H e In. by apply H, pop_subset.
Qed.

Lemma numeric_queue_push x q :
  is_number (due x) -> numeric_queue q -> numeric_queue (push x q).
Proof.
  intros Hx Hq. apply Forall_app. split; [exact Hq|]. by apply Forall_singleton.
Qed.

Lemma set_numeric_step o s s' evs :
  numeric_op o ->
  numeric_queue (SchedulerSet.scheduledCallbacks s) ->
  SchedulerSet.step o s = Done (s', evs) ->
  numeric_queue (SchedulerSet.scheduledCallbacks s').
Proof.
  intros No Nq. destruct o as [c|cb d|tok| |time]; simpl.
  - by intros [= <- <-].
  - destruct (SchedulerSet.Schedule cb d s) as [[[tok s1] e1]|] eqn:S;
      [|discriminate].
    intros [= <- <-].
    apply set_Schedule_spec in S as [(_ & _ & -> & _)|(_ & _ & _ & -> & _)];
      [done|].
    simpl. by apply numeric_queue_push.
  - by intros [= <- <-].
  - by intros [= <- <-].
  - intros H. apply set_Worker_iteration_spec in H.
    destruct H as [St|St E|e c ms St T C G N Wm|e c St T C G N|e c St T C N];
      try done; simpl; by apply numeric_queue_pop.
Qed.

Lemma set_numeric_run ops s s' evs :
  numeric_dues ops ->
  numeric_queue (SchedulerSet.scheduledCallbacks s) ->
  SchedulerSet.run ops s = Done (s', evs) ->
  numeric_queue (SchedulerSet.scheduledCallbacks s').
Proof.
  revert s s' evs. induction ops as [|o ops IH]; intros s s' evs No Nq; simpl.
  - by intros [= <- <-].
  - apply Forall_cons in No as [No1 No].
    destruct (SchedulerSet.step o s) as [[s1 e1]|] eqn:S; [|discriminate].
    destruct (SchedulerSet.run ops s1) as [[s2 e2]|] eqn:R; [|discriminate].
    intros [= <- <-].
    exact (IH _ _ _ No (set_numeric_step _ _ _ _ No1 Nq S) R).
Qed.

Lemma set_fired_order ops s e1 e2 l1 l3 :
  SchedulerSet.wf s ->
  numeric_queue (SchedulerSet.scheduledCallbacks s) ->
  numeric_dues ops ->
  e1 ∈ SchedulerSet.scheduledCallbacks s ->
  e2 ∈ SchedulerSet.scheduledCallbacks s ->
  (due e1 < due e2)%D ->
  SchedulerSet.fired ops s = l1 ++ e2 :: l3 ->
  e1 ∈ SchedulerSet.fired ops s ->
  e1 ∈ l1.
Proof.
  intros W Nq No In1 In2 Lt. revert s l1 W Nq In1 In2.
  induction ops as [|o ops IH]; intros s l1 W Nq In1 In2; simpl.
  - intros E. by destruct l1.
  - apply Forall_cons in No as [No1 No]. specialize (IH No).
    destruct (SchedulerSet.step o s) as [[s1 ev1]|] eqn:S.
    2:{ intros E. by destruct l1. }
    destruct (set_wf_step _ _ _ _ W S) as [W1 L].
    pose proof (set_numeric_step _ _ _ _ No1 Nq S) as Nq1.
    assert (top (SchedulerSet.scheduledCallbacks s) <> Some e2) as NotTop.
    { intros T. pose proof (top_min _ _ _ Nq T In1) as Le.
      exact (double_lt_not_le _ _ Lt Le). }
    destruct (set_step_keeps _ _ _ _ _ S In2) as [In2'|[T _]]; [|done].
    destruct (SchedulerSet.fired_by o s) as [e|] eqn:F.
    + apply set_fired_by_spec in F as [T S'].
      destruct l1 as [|x l1]; simpl.
      { intros [= ->]. done. }
      intros [= <- E] In.
      destruct (set_step_keeps _ _ _ _ _ S In1) as [In1'|[T1 _]].
      * apply elem_of_cons in In as [->|In]; [apply list_elem_of_here|].
        apply list_elem_of_further. by apply (IH s1).
      * rewrite T in T1. injection T1 as ->. apply list_elem_of_here.
    + intros E In.
      destruct (set_step_keeps _ _ _ _ _ S In1) as [In1'|[T1 Q1]].
      * by apply (IH s1).
      * exfalso.
        destruct (set_fired_origin _ _ _ W1 In) as [In1'|Ge].
        -- apply (wf_queue_pop_fresh _ _ _ W T1). rewrite <- Q1.
           unfold tokens. by apply list_elem_of_fmap_2.
        -- pose proof (wf_queue_bound _ _ _ W In1). lia.
Qed.

Lemma calls_app l1 l2 : calls (l1 ++ l2) = calls l1 ++ calls l2.
Proof. apply omap_app. Qed.

(** The calls that a run makes are the callbacks of the entries it fires. *)
Lemma set_calls_fired ops s s' evs :
  SchedulerSet.run ops s = Done (s', evs) ->
  calls evs = map callback (SchedulerSet.fired ops s).
Proof.
  revert s s' evs. induction ops as [|o ops IH]; intros s s' evs; simpl.
  - by intros [= <- <-].
  - destruct (SchedulerSet.step o s) as [[s1 e1]|] eqn:S; [|discriminate].
    destruct (SchedulerSet.run ops s1) as [[s2 e2]|] eqn:R; [|discriminate].
    intros [= <- <-]. rewrite calls_app, (IH _ _ _ R).
    destruct (SchedulerSet.fired_by o s) as [e|] eqn:F.
    + apply set_fired_by_spec in F as [_ S']. rewrite S' in S.
      by injection S as <- <-.
    + by rewrite (set_fired_by_None _ _ _ _ F S).
Qed.

(** A registration made after an entry with a later due time has fired
    fires after it, however early its own due time is. *)
Lemma C7_later_registration_fires_later :
  let ops := [OpSetClock (Some 1%nat); OpSchedule 7 5; OpWorker (fun _ => 6%Q);
              OpSchedule 8 3; OpWorker (fun _ => 6%Q)] in
  let first := mkScheduledCallback 1 5 7 in
  let second := mkScheduledCallback 2 3 8 in
  (due second < due first)%D /\
  SchedulerSet.fired ops SchedulerSet.init = [first; second] /\
  exists s evs,
    SchedulerSet.run ops SchedulerSet.init = Done (s, evs) /\
    returned evs = [1; 2] /\
    calls evs = [7%nat; 8%nat].
Proof.
  simpl. split; [reflexivity|]. split; [vm_compute; reflexivity|].
  do 2 eexists. split; [vm_compute; reflexivity|]. split; reflexivity.
Qed.

(** C7, as the code has it (set-based revision), for due times that are
    numbers: [operator>] compares the due times with [>], which is false on
    both sides for a NaN, and the priority queue then promises no order.
    When the due times of the pending entries are numbers, an entry that the
    worker fires is the earliest of the pending set: no entry pending at
    that moment has a smaller due time.  The calls of a run are the
    callbacks of the entries it fires, in that order.  So, in a run that
    schedules only due times that are numbers, of two entries that are
    pending together in a state the run has reached, the one with the
    smaller due time, if both fire in what follows, fires first. *)
Theorem C7_ordering :
  (forall o s e e',
     numeric_queue (SchedulerSet.scheduledCallbacks s) ->
     SchedulerSet.fired_by o s = Some e ->
     e' ∈ SchedulerSet.scheduledCallbacks s ->
     (due e <= due e')%D) /\
  (forall ops s s' evs,
     SchedulerSet.run ops s = Done (s', evs) ->
     calls evs = map callback (SchedulerSet.fired ops s)) /\
  (forall ops0 s evs0 ops e1 e2 l1 l3,
     numeric_dues ops0 ->
     numeric_dues ops ->
     SchedulerSet.run ops0 SchedulerSet.init = Done (s, evs0) ->
     e1 ∈ SchedulerSet.scheduledCallbacks s ->
     e2 ∈ SchedulerSet.scheduledCallbacks s ->
     (due e1 < due e2)%D ->
     SchedulerSet.fired ops s = l1 ++ e2 :: l3 ->
     e1 ∈ SchedulerSet.fired ops s ->
     e1 ∈ l1).
Proof.
  split; [|split].
  - intros o s e e' Nq F In. apply set_fired_by_spec in F as [T _].
    by eapply top_min.
  - apply set_calls_fired.
  - intros ops0 s evs0 ops e1 e2 l1 l3 No0 No R. apply set_fired_order.
    + exact (set_run_wf _ _ _ _ set_wf_init R).
    + exact (set_numeric_run ops0 SchedulerSet.init _ _ No0 (Forall_nil_2 _) R).
    + exact No.
Qed.

Lemma C7_ordering_witness :
  mkScheduledCallback 2 3 8 ∈ [mkScheduledCallback 2 3 8].
Proof.
  destruct C7_ordering as (_ & _ & H).
  refine (H [OpSetClock (Some 1%nat); OpSchedule 7 5; OpSchedule 8 3]
            (SchedulerSet.mkImpl (Some 1%nat)
               [mkScheduledCallback 1 5 7; mkScheduledCallback 2 3 8]
               false 3 ∅)
            [EvLock; EvNotifyOne; EvUnlock; EvReturn 1;
             EvLock; EvNotifyOne; EvUnlock; EvReturn 2]
            [OpWorker (fun _ => 6%Q); OpWorker (fun _ => 6%Q)]
            (mkScheduledCallback 2 3 8) (mkScheduledCallback 1 5 7)
            [mkScheduledCallback 2 3 8] [] _ _ _ _ _ _ _ _).
  - repeat (apply Forall_cons; split; [done|]). apply Forall_nil_2.
  - repeat (apply Forall_cons; split; [done|]). apply Forall_nil_2.
  - vm_compute. reflexivity.
  - apply list_elem_of_further, list_elem_of_here.
  - apply list_elem_of_here.
  - reflexivity.
  - vm_compute. reflexivity.
  - apply list_elem_of_here.
Defined.

(** ** The scenarios of SchedulerTests.cpp

    The mock clock is the clock 1; [AdvanceMockClock] changes its reading and
    calls [WakeUp], after which the worker evaluates again. *)

Example test_Schedule :
  let at_ (t : Q) : Clock -> double := fun _ => t in
  let early := [OpSetClock (Some 1%nat); OpSchedule 7 10; OpWorker (at_ 0%Q);
                OpWakeUp; OpWorker (at_ 5%Q)] in
  let on_time := [OpWakeUp; OpWorker (at_ (10001 # 1000))] in
  (exists s evs, SchedulerSet.run early SchedulerSet.init = Done (s, evs) /\
                 calls evs = []) /\
  (exists s evs, SchedulerSet.run (early ++ on_time) SchedulerSet.init
                 = Done (s, evs) /\ calls evs = [7%nat]) /\
  (exists s evs, SchedulerMap.run early SchedulerMap.init = Done (s, evs) /\
                 calls evs = []) /\
  (exists s evs, SchedulerMap.run (early ++ on_time) SchedulerMap.init
                 = Done (s, evs) /\ calls evs = [7%nat]).
Proof.
  simpl. repeat split; do 2 eexists; (split; [vm_compute; reflexivity|]);
    reflexivity.
Qed.

Example test_Cancel :
  let at_ (t : Q) : Clock -> double := fun _ => t in
  let ops := [OpSetClock (Some 1%nat); OpSchedule 7 10; OpWorker (at_ 0%Q);
              OpWakeUp; OpWorker (at_ 5%Q); OpCancel 1;
              OpWakeUp; OpWorker (at_ (10001 # 1000))] in
  (exists s evs, SchedulerSet.run ops SchedulerSet.init = Done (s, evs) /\
                 returned evs = [1] /\ calls evs = []) /\
  (exists s evs, SchedulerMap.run ops SchedulerMap.init = Done (s, evs) /\
                 returned evs = [1] /\ calls evs = []).
Proof.
  simpl. repeat split; do 2 eexists; (split; [vm_compute; reflexivity|]);
    split; reflexivity.
Qed.

Example test_ScheduleWithoutClock :
  let at_ (t : Q) : Clock -> double := fun _ => t in
  let ops := [OpSchedule 7 10; OpWorker (at_ 0%Q);
              OpWakeUp; OpWorker (at_ (10001 # 1000))] in
  (exists s evs, SchedulerSet.run ops SchedulerSet.init = Done (s, evs) /\
                 returned evs = [0] /\ calls evs = []) /\
  (exists s evs, SchedulerMap.run ops SchedulerMap.init = Done (s, evs) /\
                 returned evs = [0] /\ calls evs = []).
Proof.
  simpl. repeat split; do 2 eexists; (split; [vm_compute; reflexivity|]);
    split; reflexivity.
Qed.

(** A due time that is NaN.  The test [due - now > 0] fails on NaN, so the
    entry is called at the next evaluation, whatever the clock reports.
    While it is pending the comparison of the priority queue is no strict
    weak ordering: after [Schedule] with the due times 1, NaN, 2 and 1/2 the
    entry on top is the one due at 1, and it is called although the entry
    due at 1/2 is pending. *)
Example test_NaN_due_time :
  let now : Clock -> double := fun _ => 1%Q in
  (exists s evs,
     SchedulerSet.run [OpSetClock (Some 1%nat); OpSchedule 7 NaN; OpWorker now]
       SchedulerSet.init = Done (s, evs) /\
     calls evs = [7%nat] /\ double_le (NaN - now 1%nat)%D 0%Q = false) /\
  (exists s evs,
     SchedulerSet.run
       [OpSetClock (Some 1%nat); OpSchedule 7 1; OpSchedule 8 NaN;
        OpSchedule 9 2; OpSchedule 10 (1 # 2); OpWorker now]
       SchedulerSet.init = Done (s, evs) /\
     calls evs = [7%nat] /\
     mkScheduledCallback 4 (1 # 2) 10 ∈ SchedulerSet.scheduledCallbacks s).
Proof.
  simpl. split; do 2 eexists; (split; [vm_compute; reflexivity|]).
  - split; reflexivity.
  - split; [reflexivity|]. simpl. apply list_elem_of_further.
    apply list_elem_of_further. apply list_elem_of_here.
Qed.

Example test_GetClock :
  SchedulerMap.GetClock (SchedulerMap.SetClock (Some 1%nat) SchedulerMap.init)
  = Some 1%nat.
Proof. reflexivity. Qed.

(** ** Shutdown *)

Lemma set_stopped_step o s s' evs :
  SchedulerSet.stopWorker s = true ->
  SchedulerSet.step o s = Done (s', evs) ->
  SchedulerSet.stopWorker s' = true /\ calls evs = [] /\
  exists added,
    SchedulerSet.scheduledCallbacks s'
    = SchedulerSet.scheduledCallbacks s ++ added.
Proof.
  intros St. destruct o as [c0|cb d|tok| |time]; simpl.
  - intros [= <- <-]. repeat split; [done|]. exists []. by rewrite app_nil_r.
  - destruct (SchedulerSet.Schedule cb d s) as [[[tok s1] e1]|] eqn:S;
      [|discriminate].
    intros [= <- <-].
    apply set_Schedule_spec in S
      as [(_ & _ & -> & ->)|(_ & _ & -> & -> & ->)].
    + repeat split; [done|]. exists []. by rewrite app_nil_r.
    + repeat split; [done|]. by eexists.
  - intros [= <- <-]. repeat split; [done|]. exists []. by rewrite app_nil_r.
  - intros [= <- <-]. repeat split; [done|]. exists []. by rewrite app_nil_r.
  - unfold SchedulerSet.Worker_iteration. rewrite St. intros [= <- <-].
    repeat split; [done|]. exists []. by rewrite app_nil_r.
Qed.

Lemma set_stopped_undefined o s why :
  SchedulerSet.stopWorker s = true ->
  SchedulerSet.step o s = Undefined why ->
  why = SignedOverflow.
Proof.
  intros St. destruct o as [c0|cb d|tok| |time]; simpl; try discriminate.
  - unfold SchedulerSet.Schedule, post_increment.
    intros H. repeat case_match; simplify_eq. done.
  - unfold SchedulerSet.Worker_iteration. by rewrite St.
Qed.

Lemma set_stopped_run ops s :
  SchedulerSet.stopWorker s = true ->
  match SchedulerSet.run ops s with
  | Done (s', evs) =>
      SchedulerSet.stopWorker s' = true /\ calls evs = [] /\
      exists added,
        SchedulerSet.scheduledCallbacks s'
        = SchedulerSet.scheduledCallbacks s ++ added
  | Undefined why => why = SignedOverflow
  end.
Proof.
  revert s. induction ops as [|o ops IH]; intros s St; simpl.
  - repeat split; [done|]. exists []. by rewrite app_nil_r.
  - destruct (SchedulerSet.step o s) as [[s1 e1]|why] eqn:S.
    + destruct (set_stopped_step _ _ _ _ St S) as (St1 & C1 & a1 & Q1).
      specialize (IH s1 St1).
      destruct (SchedulerSet.run ops s1) as [[s2 e2]|why]; [|exact IH].
      destruct IH as (St2 & C2 & a2 & Q2).
      repeat split; [done|by rewrite calls_app, C1, C2|].
      exists (a1 ++ a2). by rewrite Q2, Q1, app_assoc.
    + by eapply set_stopped_undefined.
Qed.


Lemma map_stopped_step o s s' evs :
  SchedulerMap.stopWorker s = true ->
  SchedulerMap.step o s = Done (s', evs) ->
  SchedulerMap.stopWorker s' = true /\ calls evs = [] /\
  exists added,
    SchedulerMap.scheduledCallbacks s'
    = SchedulerMap.scheduledCallbacks s ++ added.
Proof.
  intros St. destruct o as [c0|cb d|tok| |time]; simpl.
  - intros [= <- <-]. repeat split; [done|]. exists []. by rewrite app_nil_r.
  - destruct (SchedulerMap.Schedule cb d s) as [[[tok s1] e1]|] eqn:S;
      [|discriminate].
    intros [= <- <-].
    apply map_Schedule_spec in S
      as [(_ & _ & -> & ->)|(_ & _ & -> & -> & ->)].
    + repeat split; [done|]. exists []. by rewrite app_nil_r.
    + repeat split; [done|]. by eexists.
  - unfold SchedulerMap.Cancel. intros [= <- <-].
    destruct (SchedulerMap.isCallbackCanceled s !! tok); simpl;
      (repeat split; [done|]; exists []; by rewrite app_nil_r).
  - intros [= <- <-]. repeat split; [done|]. exists []. by rewrite app_nil_r.
  - unfold SchedulerMap.Worker_iteration. rewrite St. intros [= <- <-].
    repeat split; [done|]. exists []. by rewrite app_nil_r.
Qed.

Lemma map_stopped_undefined o s why :
  SchedulerMap.stopWorker s = true ->
  SchedulerMap.step o s = Undefined why ->
  why = SignedOverflow.
Proof.
  intros St. destruct o as [c0|cb d|tok| |time]; simpl; try discriminate.
  - unfold SchedulerMap.Schedule, post_increment.
    intros H. repeat case_match; simplify_eq. done.
  - unfold SchedulerMap.Worker_iteration. by rewrite St.
Qed.

Lemma map_stopped_run ops s :
  SchedulerMap.stopWorker s = true ->
  match SchedulerMap.run ops s with
  | Done (s', evs) =>
      SchedulerMap.stopWorker s' = true /\ calls evs = [] /\
      exists added,
        SchedulerMap.scheduledCallbacks s'
        = SchedulerMap.scheduledCallbacks s ++ added
  | Undefined why => why = SignedOverflow
  end.
Proof.
  revert s. induction ops as [|o ops IH]; intros s St; simpl.
  - repeat split; [done|]. exists []. by rewrite app_nil_r.
  - destruct (SchedulerMap.step o s) as [[s1 e1]|why] eqn:S.
    + destruct (map_stopped_step _ _ _ _ St S) as (St1 & C1 & a1 & Q1).
      specialize (IH s1 St1).
      destruct (SchedulerMap.run ops s1) as [[s2 e2]|why]; [|exact IH].
      destruct IH as (St2 & C2 & a2 & Q2).
      repeat split; [done|by rewrite calls_app, C1, C2|].
      exists (a1 ++ a2). by rewrite Q2, Q1, app_assoc.
    + by eapply map_stopped_undefined.
Qed.

(** The actions of the map-based revision with the mutex released around
    the call. *)
Lemma interleaved_step_public a o s fl :
  SchedulerMap.public a = Some o ->
  SchedulerMap.interleaved_step a (s, fl)
  = match SchedulerMap.step o s with
    | Done (s', evs) => Done (s', fl, evs)
    | Undefined why => Undefined why
    end.
Proof.
  destruct a; simpl; intros [= <-]; simpl; try done.
  by destruct (SchedulerMap.Schedule _ _ s) as [[[? ?] ?]|].
Qed.

Lemma public_not_Worker a o : SchedulerMap.public a = Some o -> is_Worker o = false.
Proof. destruct a; simpl; intros [= <-]; done. Qed.

Lemma interleaved_stopped_step a s fl s' fl' evs :
  SchedulerMap.stopWorker s = true ->
  SchedulerMap.interleaved_step a (s, fl) = Done (s', fl', evs) ->
  SchedulerMap.stopWorker s' = true /\
  (exists added,
     SchedulerMap.scheduledCallbacks s'
     = SchedulerMap.scheduledCallbacks s ++ added) /\
  ((fl' = fl /\ calls evs = []) \/
   (exists e, fl = Some e /\ fl' = None /\ calls evs = [callback e])).
Proof.
  intros St.
  destruct (SchedulerMap.public a) as [o|] eqn:P.
  - rewrite (interleaved_step_public _ _ _ _ P).
    destruct (SchedulerMap.step o s) as [[s1 e1]|] eqn:S; [|discriminate].
    intros [= <- <- <-].
    destruct (map_stopped_step _ _ _ _ St S) as (St1 & C1 & Q1).
    split; [done|]. split; [done|]. by left.
  - destruct a; try discriminate; simpl.
    + intros [= <- <- <-]. split; [done|].
      split; [exists []; by rewrite app_nil_r|]. by left.
    + destruct fl as [x|].
      * intros [= <- <- <-]. split; [done|].
        split; [exists []; by rewrite app_nil_r|]. by left.
      * unfold SchedulerMap.Worker_evaluate. rewrite St.
        intros [= <- <- <-]. split; [done|].
        split; [exists []; by rewrite app_nil_r|]. by left.
    + destruct fl as [x|]; intros [= <- <- <-]; (split; [done|]);
        (split; [exists []; by rewrite app_nil_r|]).
      * right. by exists x.
      * by left.
Qed.

Lemma interleaved_stopped_undefined a s fl why :
  SchedulerMap.stopWorker s = true ->
  SchedulerMap.interleaved_step a (s, fl) = Undefined why ->
  why = SignedOverflow.
Proof.
  intros St.
  destruct (SchedulerMap.public a) as [o|] eqn:P.
  - rewrite (interleaved_step_public _ _ _ _ P).
    destruct (SchedulerMap.step o s) as [[s1 e1]|w] eqn:S; [discriminate|].
    intros [= <-]. by eapply map_stopped_undefined.
  - destruct a; try discriminate; simpl.
    + destruct fl; [discriminate|].
      unfold SchedulerMap.Worker_evaluate. by rewrite St.
    + by destruct fl.
Qed.

Lemma interleaved_stopped_run acts s fl :
  SchedulerMap.stopWorker s = true ->
  match SchedulerMap.interleaved_run acts (s, fl) with
  | Done (s', fl', evs) =>
      SchedulerMap.stopWorker s' = true /\
      (exists added,
         SchedulerMap.scheduledCallbacks s'
         = SchedulerMap.scheduledCallbacks s ++ added) /\
      ((fl' = fl /\ calls evs = []) \/
       (exists e, fl = Some e /\ fl' = None /\ calls evs = [callback e]))
  | Undefined why => why = SignedOverflow
  end.
Proof.
  revert s fl. induction acts as [|a acts IH]; intros s fl St;
    cbn [SchedulerMap.interleaved_run].
  - split; [done|]. split; [exists []; by rewrite app_nil_r|]. by left.
  - destruct (SchedulerMap.interleaved_step a (s, fl)) as [[[s1 fl1] e1]|why] eqn:S.
    + destruct (interleaved_stopped_step _ _ _ _ _ _ St S) as (St1 & (a1 & Q1) & F1).
      specialize (IH s1 fl1 St1).
      destruct (SchedulerMap.interleaved_run acts (s1, fl1))
        as [[[s2 fl2] e2]|why]; [|exact IH].
      destruct IH as (St2 & (a2 & Q2) & F2).
      split; [done|]. split.
      { exists (a1 ++ a2). by rewrite Q2, Q1, app_assoc. }
      rewrite calls_app.
      destruct F1 as [[-> C1]|(x & -> & -> & C1)];
        destruct F2 as [[-> C2]|(y & E & -> & C2)]; rewrite C1, C2.
      * by left.
      * right. by exists y.
      * right. by exists x.
      * discriminate.
    + by eapply interleaved_stopped_undefined.
Qed.

(** X1: once the destructor of a joinable scheduler has set [stopWorker],
    no pending entry is fired any more, whatever the clocks report and
    whatever is pending: the entries that were pending stay in the pending
    set ([Schedule] may still append to it), the stop flag stays set, and
    the only undefined behaviour left is the overflow of [nextToken]; in
    particular the worker no longer reads the clock, null or not.  In the
    set-based revision, where the worker calls with the mutex held, no
    callback is called at all.  In the map-based revision the worker may
    have popped an entry and unlocked the mutex when the destructor sets the
    flag: then the callback of that one entry is still called, once, and
    nothing else is; if the worker holds no such entry, nothing is called.
    A scheduler that is not joinable is left as it is. *)
Theorem X1_no_call_after_destructor :
  (forall s ops,
     match SchedulerSet.run ops (fst (SchedulerSet.Destructor true s)) with
     | Done (s', evs) =>
         SchedulerSet.stopWorker s' = true /\ calls evs = [] /\
         exists added,
           SchedulerSet.scheduledCallbacks s'
           = SchedulerSet.scheduledCallbacks s ++ added
     | Undefined why => why = SignedOverflow
     end) /\
  (forall s inflight acts,
     match SchedulerMap.interleaved_run acts
             (fst (SchedulerMap.Destructor true s), inflight) with
     | Done (s', inflight', evs) =>
         SchedulerMap.stopWorker s' = true /\
         (exists added,
            SchedulerMap.scheduledCallbacks s'
            = SchedulerMap.scheduledCallbacks s ++ added) /\
         ((inflight' = inflight /\ calls evs = []) \/
          (exists e, inflight = Some e /\ inflight' = None /\
                     calls evs = [callback e]))
     | Undefined why => why = SignedOverflow
     end) /\
  (forall s, SchedulerSet.Destructor false s = (s, [])) /\
  (forall s, SchedulerMap.Destructor false s = (s, [])).
Proof.
  split; [|split; [|split]]; try done.
  - intros s ops.
    exact (set_stopped_run ops (SchedulerSet.set_stopWorker true s) eq_refl).
  - intros s inflight acts.
    exact (interleaved_stopped_run acts (SchedulerMap.set_stopWorker true s)
             inflight eq_refl).
Qed.

(** ** Fired entries in the map-based revision *)

Lemma map_fired_by_spec o s e :
  SchedulerMap.fired_by o s = Some e ->
  top (SchedulerMap.scheduledCallbacks s) = Some e /\
  SchedulerMap.canceled s (token e) = false /\
  SchedulerMap.step o s
  = Done (SchedulerMap.set_scheduledCallbacks
            (pop (SchedulerMap.scheduledCallbacks s))
            (SchedulerMap.set_isCallbackCanceled
               (delete (token e) (SchedulerMap.isCallbackCanceled s)) s),
          [EvUnlock; EvCall (callback e); EvLock]).
Proof.
  destruct o as [c0|cb d|tok| |time]; simpl; try discriminate.
  destruct (SchedulerMap.Worker_iteration time s) as [[s' evs]|] eqn:H;
    [|discriminate].
  apply map_Worker_iteration_spec in H.
  destruct H as [St|St E|e' c ms St T C G N Wm|e' c St T C G N|e' c St T C N];
    simpl; try discriminate.
  rewrite T. intros [= ->]. done.
Qed.

Lemma map_fired_by_None o s s' evs :
  SchedulerMap.fired_by o s = None ->
  SchedulerMap.step o s = Done (s', evs) ->
  calls evs = [].
Proof.
  destruct o as [c0|cb d|tok| |time]; simpl.
  - by intros _ [= <- <-].
  - intros _. destruct (SchedulerMap.Schedule cb d s) as [[[tok s1] e1]|] eqn:S;
      [|discriminate].
    intros [= <- <-].
    by apply map_Schedule_spec in S as [(_ & _ & _ & ->)|(_ & _ & _ & _ & ->)].
  - by intros _ [= <- <-].
  - by intros _ [= <- <-].
  - intros F H. rewrite H in F.
    apply map_Worker_iteration_spec in H.
    destruct H as [St|St E|e' c ms St T C G N Wm|e' c St T C G N|e' c St T C N];
      try done.
    simpl in F. by rewrite T in F.
Qed.

Lemma map_step_keeps o s s' evs e :
  SchedulerMap.step o s = Done (s', evs) ->
  e ∈ SchedulerMap.scheduledCallbacks s ->
  e ∈ SchedulerMap.scheduledCallbacks s' \/
  (top (SchedulerMap.scheduledCallbacks s) = Some e /\
   SchedulerMap.scheduledCallbacks s' = pop (SchedulerMap.scheduledCallbacks s)).
Proof.
  intros S In. destruct o as [c0|cb d|tok| |time]; simpl in S.
  - injection S as <- <-. by left.
  - destruct (SchedulerMap.Schedule cb d s) as [[[tok s1] e1]|] eqn:Sc;
      [|discriminate].
    injection S as <- <-.
    apply map_Schedule_spec in Sc as [(_ & _ & -> & _)|(_ & _ & _ & -> & _)];
      [by left|].
    left. simpl. unfold push. apply elem_of_app. by left.
  - unfold SchedulerMap.Cancel in S. injection S as <- <-. left.
    by destruct (SchedulerMap.isCallbackCanceled s !! tok).
  - injection S as <- <-. by left.
  - apply map_Worker_iteration_spec in S.
    destruct S as [St|St E|e' c ms St T C G N Wm|e' c St T C G N|e' c St T C N];
      try (by left); simpl;
      (destruct (elem_of_pop _ _ _ T In) as [->|In']; [by right|by left]).
Qed.

(** Where a pending entry comes from: it was pending before the step, or the
    step is the [Schedule] call that made it, and it carries the next token. *)
Lemma map_step_origin o s s' evs e :
  SchedulerMap.step o s = Done (s', evs) ->
  e ∈ SchedulerMap.scheduledCallbacks s' ->
  e ∈ SchedulerMap.scheduledCallbacks s \/
  (token e = SchedulerMap.nextToken s /\ o = OpSchedule (callback e) (due e)).
Proof.
  intros S In. destruct o as [c0|cb d|tok| |time]; simpl in S.
  - injection S as <- <-. by left.
  - destruct (SchedulerMap.Schedule cb d s) as [[[tok s1] e1]|] eqn:Sc;
      [|discriminate].
    injection S as <- <-.
    apply map_Schedule_spec in Sc as [(_ & _ & -> & _)|(_ & _ & -> & -> & _)];
      [by left|].
    simpl in In. unfold push in In. apply elem_of_app in In as [In|In];
      [by left|].
    apply list_elem_of_singleton in In. subst e. by right.
  - unfold SchedulerMap.Cancel in S. injection S as <- <-. left.
    by destruct (SchedulerMap.isCallbackCanceled s !! tok).
  - injection S as <- <-. by left.
  - apply map_Worker_iteration_spec in S.
    destruct S as [St|St E|e' c ms St T C G N Wm|e' c St T C G N|e' c St T C N];
      try (by left); left; by apply pop_subset.
Qed.

Lemma set_step_origin_op o s s' evs e :
  SchedulerSet.step o s = Done (s', evs) ->
  e ∈ SchedulerSet.scheduledCallbacks s' ->
  e ∈ SchedulerSet.scheduledCallbacks s \/
  (token e = SchedulerSet.nextToken s /\ o = OpSchedule (callback e) (due e)).
Proof.
  intros S In. destruct o as [c0|cb d|tok| |time]; simpl in S.
  - injection S as <- <-. by left.
  - destruct (SchedulerSet.Schedule cb d s) as [[[tok s1] e1]|] eqn:Sc;
      [|discriminate].
    injection S as <- <-.
    apply set_Schedule_spec in Sc as [(_ & _ & -> & _)|(_ & _ & -> & -> & _)];
      [by left|].
    simpl in In. unfold push in In. apply elem_of_app in In as [In|In];
      [by left|].
    apply list_elem_of_singleton in In. subst e. by right.
  - injection S as <- <-. by left.
  - injection S as <- <-. by left.
  - apply set_Worker_iteration_spec in S.
    destruct S as [St|St E|e' c ms St T C G N Wm|e' c St T C G N|e' c St T C N];
      try (by left); left; by apply pop_subset.
Qed.

Lemma map_fired_origin ops s e :
  SchedulerMap.wf s ->
  e ∈ SchedulerMap.fired ops s ->
  e ∈ SchedulerMap.scheduledCallbacks s \/ SchedulerMap.nextToken s <= token e.
Proof.
  revert s. induction ops as [|o ops IH]; intros s W; simpl.
  - intros In. inversion In.
  - destruct (SchedulerMap.step o s) as [[s1 e1]|] eqn:S.
    2:{ intros In. inversion In. }
    destruct (map_wf_step _ _ _ _ W S) as [W1 L].
    assert (e ∈ SchedulerMap.fired ops s1 ->
            e ∈ SchedulerMap.scheduledCallbacks s \/
            SchedulerMap.nextToken s <= token e) as Rest.
    { intros In. destruct (IH s1 W1 In) as [In1|Ge]; [|right; lia].
      destruct (map_step_origin _ _ _ _ _ S In1) as [?|[Eq _]];
        [by left|right; lia]. }
    destruct (SchedulerMap.fired_by o s) as [e'|] eqn:F; [|exact Rest].
    intros In. apply elem_of_cons in In as [->|In]; [|by apply Rest].
    left. apply map_fired_by_spec in F as [T _]. by apply top_elem.
Qed.

Lemma map_calls_fired ops s s' evs :
  SchedulerMap.run ops s = Done (s', evs) ->
  calls evs = map callback (SchedulerMap.fired ops s).
Proof.
  revert s s' evs. induction ops as [|o ops IH]; intros s s' evs; simpl.
  - by intros [= <- <-].
  - destruct (SchedulerMap.step o s) as [[s1 e1]|] eqn:S; [|discriminate].
    destruct (SchedulerMap.run ops s1) as [[s2 e2]|] eqn:R; [|discriminate].
    intros [= <- <-]. rewrite calls_app, (IH _ _ _ R).
    destruct (SchedulerMap.fired_by o s) as [e|] eqn:F.
    + apply map_fired_by_spec in F as (_ & _ & S'). rewrite S' in S.
      by injection S as <- <-.
    + by rewrite (map_fired_by_None _ _ _ _ F S).
Qed.

(** ** What fires, and how often *)

Lemma set_fired_NoDup ops s :
  SchedulerSet.wf s -> NoDup (map token (SchedulerSet.fired ops s)).
Proof.
  revert s. induction ops as [|o ops IH]; intros s W; simpl; [constructor|].
  destruct (SchedulerSet.step o s) as [[s1 e1]|] eqn:S; [|constructor].
  destruct (set_wf_step _ _ _ _ W S) as [W1 L].
  destruct (SchedulerSet.fired_by o s) as [e|] eqn:F; [|by apply IH].
  simpl. apply NoDup_cons. split; [|by apply IH].
  intros In. apply list_elem_of_fmap in In as (e' & Eq & In).
  apply set_fired_by_spec in F as [T S']. rewrite S' in S.
  injection S as <- _.
  destruct (set_fired_origin _ _ _ W1 In) as [In1|Ge].
  - apply (wf_queue_pop_fresh _ _ _ W T). rewrite Eq. unfold tokens.
    by apply list_elem_of_fmap_2.
  - pose proof (wf_queue_bound _ _ _ W (top_elem _ _ T)) as B.
    simpl in Ge. lia.
Qed.

Lemma set_fired_scheduled ops s e :
  e ∈ SchedulerSet.fired ops s ->
  e ∈ SchedulerSet.scheduledCallbacks s \/
  OpSchedule (callback e) (due e) ∈ ops.
Proof.
  revert s. induction ops as [|o ops IH]; intros s; simpl.
  - intros In. inversion In.
  - destruct (SchedulerSet.step o s) as [[s1 e1]|] eqn:S.
    2:{ intros In. inversion In. }
    assert (e ∈ SchedulerSet.fired ops s1 ->
            e ∈ SchedulerSet.scheduledCallbacks s \/
            OpSchedule (callback e) (due e) ∈ o :: ops) as Rest.
    { intros In. destruct (IH s1 In) as [In1|Later].
      - destruct (set_step_origin_op _ _ _ _ _ S In1) as [?|[_ ->]];
          [by left|right; apply list_elem_of_here].
      - right. by apply list_elem_of_further. }
    destruct (SchedulerSet.fired_by o s) as [e'|] eqn:F; [|exact Rest].
    intros In. apply elem_of_cons in In as [->|In]; [|by apply Rest].
    left. apply set_fired_by_spec in F as [T _]. by apply top_elem.
Qed.

Lemma map_fired_NoDup ops s :
  SchedulerMap.wf s -> NoDup (map token (SchedulerMap.fired ops s)).
Proof.
  revert s. induction ops as [|o ops IH]; intros s W; simpl; [constructor|].
  destruct (SchedulerMap.step o s) as [[s1 e1]|] eqn:S; [|constructor].
  destruct (map_wf_step _ _ _ _ W S) as [W1 L].
  destruct (SchedulerMap.fired_by o s) as [e|] eqn:F; [|by apply IH].
  simpl. apply NoDup_cons. split; [|by apply IH].
  intros In. apply list_elem_of_fmap in In as (e' & Eq & In).
  apply map_fired_by_spec in F as (T & _ & S'). rewrite S' in S.
  injection S as <- _.
  destruct (map_fired_origin _ _ _ W1 In) as [In1|Ge].
  - apply (wf_queue_pop_fresh _ _ _ W T). rewrite Eq. unfold tokens.
    by apply list_elem_of_fmap_2.
  - pose proof (wf_queue_bound _ _ _ W (top_elem _ _ T)) as B.
    simpl in Ge. lia.
Qed.

Lemma map_fired_scheduled ops s e :
  e ∈ SchedulerMap.fired ops s ->
  e ∈ SchedulerMap.scheduledCallbacks s \/
  OpSchedule (callback e) (due e) ∈ ops.
Proof.
  revert s. induction ops as [|o ops IH]; intros s; simpl.
  - intros In. inversion In.
  - destruct (SchedulerMap.step o s) as [[s1 e1]|] eqn:S.
    2:{ intros In. inversion In. }
    assert (e ∈ SchedulerMap.fired ops s1 ->
            e ∈ SchedulerMap.scheduledCallbacks s \/
            OpSchedule (callback e) (due e) ∈ o :: ops) as Rest.
    { intros In. destruct (IH s1 In) as [In1|Later].
      - destruct (map_step_origin _ _ _ _ _ S In1) as [?|[_ ->]];
          [by left|right; apply list_elem_of_here].
      - right. by apply list_elem_of_further. }
    destruct (SchedulerMap.fired_by o s) as [e'|] eqn:F; [|exact Rest].
    intros In. apply elem_of_cons in In as [->|In]; [|by apply Rest].
    left. apply map_fired_by_spec in F as [T _]. by apply top_elem.
Qed.

(** X2: at most once.  In every run from the freshly constructed scheduler
    the entries that fire carry pairwise distinct tokens: no registration is
    called twice, however often the worker is woken.  Both revisions. *)
Theorem X2_fires_at_most_once ops :
  NoDup (map token (SchedulerSet.fired ops SchedulerSet.init)) /\
  NoDup (map token (SchedulerMap.fired ops SchedulerMap.init)).
Proof.
  split.
  - apply set_fired_NoDup, set_wf_init.
  - apply map_fired_NoDup, map_wf_init.
Qed.

(** X3: the worker calls nothing of its own.  Every entry fired in a run
    from the freshly constructed scheduler was registered by a [Schedule]
    call of that run, with the callback and the due time of the entry.
    Both revisions. *)
Theorem X3_only_scheduled_callbacks_fire :
  (forall ops e,
     e ∈ SchedulerSet.fired ops SchedulerSet.init ->
     OpSchedule (callback e) (due e) ∈ ops) /\
  (forall ops e,
     e ∈ SchedulerMap.fired ops SchedulerMap.init ->
     OpSchedule (callback e) (due e) ∈ ops).
Proof.
  split; intros ops e In.
  - destruct (set_fired_scheduled _ _ _ In) as [In0|?]; [inversion In0|done].
  - destruct (map_fired_scheduled _ _ _ In) as [In0|?]; [inversion In0|done].
Qed.

Lemma X3_only_scheduled_callbacks_fire_witness :
  OpSchedule 7 10
  ∈ [OpSetClock (Some 1%nat); OpSchedule 7 10; OpWorker (fun _ => 10%Q)].
Proof.
  destruct X3_only_scheduled_callbacks_fire as [_ HM].
  refine (HM [OpSetClock (Some 1%nat); OpSchedule 7 10; OpWorker (fun _ => 10%Q)]
             (mkScheduledCallback 1 10 7) _).
  vm_compute. apply list_elem_of_here.
Defined.

(** ** Cancel takes effect *)

Lemma set_canceled_mono_step o s s' evs :
  SchedulerSet.step o s = Done (s', evs) ->
  SchedulerSet.canceledCallbacks s' =
  list_to_set (cancel_arguments [o]) ∪ SchedulerSet.canceledCallbacks s.
Proof.
  assert (forall X : gset Z, X = list_to_set [] ∪ X) as E0
    by (intros X; simpl; by rewrite (left_id_L ∅ (∪))).
  destruct o as [c0|cb d|tok| |time]; simpl.
  - intros [= <- <-]. apply E0.
  - destruct (SchedulerSet.Schedule cb d s) as [[[tok s1] e1]|] eqn:S;
      [|discriminate].
    intros [= <- <-].
    apply set_Schedule_spec in S as [(_ & _ & -> & _)|(_ & _ & _ & -> & _)];
      apply E0.
  - intros [= <- <-]. simpl. unfold cancel_arguments. simpl.
    by rewrite (right_id_L ∅ (∪)).
  - intros [= <- <-]. apply E0.
  - intros H. apply set_Worker_iteration_spec in H. destruct H; apply E0.
Qed.

Lemma set_canceled_run ops s s' evs :
  SchedulerSet.run ops s = Done (s', evs) ->
  SchedulerSet.canceledCallbacks s' =
  list_to_set (cancel_arguments ops) ∪ SchedulerSet.canceledCallbacks s.
Proof.
  revert s s' evs. induction ops as [|o ops IH]; intros s s' evs; simpl.
  - intros [= <- <-]. by rewrite (left_id_L ∅ (∪)).
  - destruct (SchedulerSet.step o s) as [[s1 e1]|] eqn:S; [|discriminate].
    destruct (SchedulerSet.run ops s1) as [[s2 e2]|] eqn:R; [|discriminate].
    intros [= <- <-].
    rewrite (IH _ _ _ R), (set_canceled_mono_step _ _ _ _ S).
    clear S R. apply set_eq. intros t.
    destruct o; unfold cancel_arguments; simpl;
      rewrite ?elem_of_union, ?elem_of_singleton, ?elem_of_empty; tauto.
Qed.

Lemma set_fired_by_not_canceled o s e :
  SchedulerSet.fired_by o s = Some e ->
  token e ∉ SchedulerSet.canceledCallbacks s.
Proof.
  destruct o as [c0|cb d|tok| |time]; simpl; try discriminate.
  destruct (SchedulerSet.Worker_iteration time s) as [[s' evs]|] eqn:H;
    [|discriminate].
  apply set_Worker_iteration_spec in H.
  destruct H as [St|St E|e' c ms St T C G N Wm|e' c St T C G N|e' c St T C N];
    simpl; try discriminate.
  rewrite T. by intros [= ->].
Qed.

Lemma set_canceled_never_fires ops s tok e :
  tok ∈ SchedulerSet.canceledCallbacks s ->
  e ∈ SchedulerSet.fired ops s ->
  token e <> tok.
Proof.
  revert s. induction ops as [|o ops IH]; intros s In; simpl.
  - intros F. inversion F.
  - destruct (SchedulerSet.step o s) as [[s1 e1]|] eqn:S.
    2:{ intros F. inversion F. }
    assert (tok ∈ SchedulerSet.canceledCallbacks s1) as In1.
    { rewrite (set_canceled_mono_step _ _ _ _ S). apply elem_of_union. by right. }
    destruct (SchedulerSet.fired_by o s) as [e'|] eqn:F; [|by apply IH].
    intros Fe. apply elem_of_cons in Fe as [->|Fe]; [|by apply (IH s1)].
    apply set_fired_by_not_canceled in F. intros Eq. by rewrite Eq in F.
Qed.

Lemma map_cancel_recorded_step tok o s s' evs :
  SchedulerMap.wf s -> SchedulerMap.cancel_recorded tok s ->
  SchedulerMap.step o s = Done (s', evs) ->
  SchedulerMap.cancel_recorded tok s'.
Proof.
  unfold SchedulerMap.cancel_recorded. intros W [Lt Fl].
  destruct o as [c0|cb d|tok'| |time]; simpl.
  - by intros [= <- <-].
  - destruct (SchedulerMap.Schedule cb d s) as [[[t s1] e1]|] eqn:S;
      [|discriminate].
    intros [= <- <-].
    apply map_Schedule_spec in S as [(_ & _ & -> & _)|(_ & _ & -> & -> & _)];
      [done|].
    simpl. split; [lia|]. rewrite tokens_push. intros In.
    apply elem_of_app in In as [In|In].
    + rewrite lookup_insert_ne by lia. by apply Fl.
    + apply list_elem_of_singleton in In. simpl in In. lia.
  - unfold SchedulerMap.Cancel. intros [= <- <-].
    destruct (SchedulerMap.isCallbackCanceled s !! tok') eqn:L; [|done].
    simpl. split; [done|]. intros In.
    destruct (decide (tok' = tok)) as [->|Ne].
    + apply lookup_insert_eq.
    + rewrite lookup_insert_ne by done. by apply Fl.
  - by intros [= <- <-].
  - intros H. apply map_Worker_iteration_spec in H.
    destruct H as [St|St E|e c ms St T C G N Wm|e c St T C G N|e c St T C N];
      try done; simpl; (split; [done|]); intros In.
    + unfold SchedulerMap.subscript.
      destruct (SchedulerMap.isCallbackCanceled s !! token e) eqn:L; simpl;
        [by apply Fl|].
      destruct (decide (token e = tok)) as [Eq|Ne].
      * rewrite Eq in L. rewrite (Fl In) in L. discriminate.
      * rewrite lookup_insert_ne by done. by apply Fl.
    + pose proof (wf_queue_pop_fresh _ _ _ W T) as Fr.
      rewrite lookup_delete_ne by (intros Eq; rewrite Eq in Fr; done).
      apply Fl. unfold tokens in *. apply list_elem_of_fmap in In as (x & -> & In).
      apply list_elem_of_fmap_2. by apply pop_subset.
    + pose proof (wf_queue_pop_fresh _ _ _ W T) as Fr.
      rewrite lookup_delete_ne by (intros Eq; rewrite Eq in Fr; done).
      apply Fl. unfold tokens in *. apply list_elem_of_fmap in In as (x & -> & In).
      apply list_elem_of_fmap_2. by apply pop_subset.
Qed.

Lemma map_cancel_recorded_never_fires ops s tok e :
  SchedulerMap.wf s -> SchedulerMap.cancel_recorded tok s ->
  e ∈ SchedulerMap.fired ops s ->
  token e <> tok.
Proof.
  revert s. induction ops as [|o ops IH]; intros s W J; simpl.
  - intros F. inversion F.
  - destruct (SchedulerMap.step o s) as [[s1 e1]|] eqn:S.
    2:{ intros F. inversion F. }
    pose proof (map_cancel_recorded_step _ _ _ _ _ W J S) as J1.
    destruct (map_wf_step _ _ _ _ W S) as [W1 _].
    destruct (SchedulerMap.fired_by o s) as [e'|] eqn:F; [|by apply IH].
    intros Fe. apply elem_of_cons in Fe as [->|Fe]; [|by apply (IH s1)].
    apply map_fired_by_spec in F as (T & N & _). intros Eq.
    destruct J as [_ Fl].
    assert (tok ∈ tokens (SchedulerMap.scheduledCallbacks s)) as In.
    { rewrite <- Eq. unfold tokens. apply list_elem_of_fmap_2. by apply top_elem. }
    apply Fl in In. unfold SchedulerMap.canceled in N.
    rewrite <- Eq in In. rewrite (subscript_present _ _ _ In) in N. discriminate.
Qed.

Lemma map_Cancel_records tok s :
  SchedulerMap.tracked s -> tok < SchedulerMap.nextToken s ->
  SchedulerMap.cancel_recorded tok (fst (SchedulerMap.Cancel tok s)).
Proof.
  intros Tr Lt. unfold SchedulerMap.Cancel, SchedulerMap.cancel_recorded. simpl.
  destruct (SchedulerMap.isCallbackCanceled s !! tok) eqn:L; simpl.
  - split; [done|]. intros _. apply lookup_insert_eq.
  - split; [done|]. intros In. exfalso.
    assert (tok ∈ dom (SchedulerMap.isCallbackCanceled s)) as D
      by (rewrite Tr; by apply elem_of_list_to_set).
    apply elem_of_dom in D as [v D]. congruence.
Qed.

(** X4: in the set-based revision, once [Cancel(token)] has returned, no
    entry carrying that token is ever fired again, in any run and from any
    state: the token stays in [canceledCallbacks], and the worker fires only
    entries whose token is not in it. *)
Theorem X4_set_cancel_is_final s tok ops e :
  e ∈ SchedulerSet.fired ops (fst (SchedulerSet.Cancel tok s)) ->
  token e <> tok.
Proof.
  apply set_canceled_never_fires. simpl. apply elem_of_union. left.
  by apply elem_of_singleton.
Qed.

Lemma X4_set_cancel_is_final_witness :
  token (mkScheduledCallback 2 0 8) <> 1.
Proof.
  refine (X4_set_cancel_is_final
            (SchedulerSet.mkImpl (Some 1%nat) [mkScheduledCallback 1 0 7]
               false 2 ∅)
            1
            [OpSchedule 8 0; OpWorker (fun _ => 0%Q); OpWorker (fun _ => 0%Q)]
            (mkScheduledCallback 2 0 8) _).
  vm_compute. apply list_elem_of_here.
Defined.

(** The evaluation of the loop up to the unlock, and the iteration taken in
    one piece. *)
Lemma map_Worker_evaluate_spec time s :
  match SchedulerMap.Worker_evaluate time s with
  | Undefined why => SchedulerMap.Worker_iteration time s = Undefined why
  | Done (s', inflight, evs) =>
      SchedulerMap.fired_by (OpWorker time) s = inflight /\
      calls evs = [] /\
      SchedulerMap.Worker_iteration time s
      = Done (s', match inflight with
                  | Some e => evs ++ [EvCall (callback e); EvLock]
                  | None => evs
                  end)
  end.
Proof.
  unfold SchedulerMap.fired_by, SchedulerMap.Worker_evaluate,
    SchedulerMap.Worker_iteration.
  destruct (SchedulerMap.stopWorker s); [done|].
  destruct (top (SchedulerMap.scheduledCallbacks s)) as [e|] eqn:T; [|done].
  destruct (SchedulerMap.clock s) as [c|]; [|done].
  destruct (SchedulerMap.subscript (SchedulerMap.isCallbackCanceled s) (token e))
    as [cn m].
  destruct (double_gt (due e - time c)%D 0%Q), cn; simpl; try done.
  by destruct (wait_milliseconds (due e - time c)%D).
Qed.

Lemma interleaved_step_impl a s fl s' fl' evs :
  SchedulerMap.interleaved_step a (s, fl) = Done (s', fl', evs) ->
  s' = s \/ s' = SchedulerMap.set_stopWorker true s \/
  exists o evs', SchedulerMap.step o s = Done (s', evs').
Proof.
  destruct (SchedulerMap.public a) as [o|] eqn:P.
  - rewrite (interleaved_step_public _ _ _ _ P).
    destruct (SchedulerMap.step o s) as [[s1 e1]|] eqn:S; [|discriminate].
    intros [= <- <- <-]. right. right. by exists o, e1.
  - destruct a; try discriminate; simpl.
    + intros [= <- <- <-]. right. by left.
    + destruct fl as [x|]; [intros [= <- <- <-]; by left|].
      intros E. pose proof (map_Worker_evaluate_spec GetCurrentTime s) as Sp.
      rewrite E in Sp. destruct Sp as (_ & _ & W).
      right. right. exists (OpWorker GetCurrentTime). by eexists.
    + destruct fl; intros [= <- <- <-]; by left.
Qed.

(** What a step does to the callback the worker holds. *)
Lemma interleaved_step_inflight a s fl s' fl' evs :
  SchedulerMap.interleaved_step a (s, fl) = Done (s', fl', evs) ->
  (a <> SchedulerMap.ActCall /\ fl' = fl) \/
  (a = SchedulerMap.ActCall /\ fl' = None /\ s' = s) \/
  (exists time, a = SchedulerMap.ActEvaluate time /\ fl = None /\
                fl' = SchedulerMap.fired_by (OpWorker time) s).
Proof.
  destruct (SchedulerMap.public a) as [o|] eqn:P.
  - rewrite (interleaved_step_public _ _ _ _ P).
    destruct (SchedulerMap.step o s) as [[s1 e1]|] eqn:S; [|discriminate].
    intros [= <- <- <-]. left. split; [|done]. intros ->. discriminate.
  - destruct a; try discriminate; simpl.
    + intros [= <- <- <-]. by left.
    + destruct fl as [x|]; [intros [= <- <- <-]; by left|].
      intros E. pose proof (map_Worker_evaluate_spec GetCurrentTime s) as Sp.
      rewrite E in Sp. destruct Sp as (F & _ & _).
      right. right. by exists GetCurrentTime.
    + destruct fl; intros [= <- <- <-]; right; by left.
Qed.

Lemma interleaved_invariant (P : SchedulerMap.Impl -> Prop) :
  (forall s, P s -> P (SchedulerMap.set_stopWorker true s)) ->
  (forall o s s' evs, P s -> SchedulerMap.step o s = Done (s', evs) -> P s') ->
  forall acts s fl s' fl' evs,
    P s ->
    SchedulerMap.interleaved_run acts (s, fl) = Done (s', fl', evs) ->
    P s'.
Proof.
  intros Stop Step acts.
  induction acts as [|a acts IH]; intros s fl s' fl' evs HP;
    cbn [SchedulerMap.interleaved_run].
  - by intros [= <- <- <-].
  - destruct (SchedulerMap.interleaved_step a (s, fl)) as [[[s1 fl1] e1]|] eqn:S;
      [|discriminate].
    destruct (SchedulerMap.interleaved_run acts (s1, fl1))
      as [[[s2 fl2] e2]|] eqn:R; [|discriminate].
    intros [= <- <- <-]. apply (IH s1 fl1 s2 fl2 e2); [|exact R].
    destruct (interleaved_step_impl _ _ _ _ _ _ S) as [->|[->|(o & ev & St)]].
    + exact HP.
    + by apply Stop.
    + by eapply Step.
Qed.

Lemma interleaved_run_wf acts s fl s' fl' evs :
  SchedulerMap.wf s /\ SchedulerMap.tracked s ->
  SchedulerMap.interleaved_run acts (s, fl) = Done (s', fl', evs) ->
  SchedulerMap.wf s' /\ SchedulerMap.tracked s'.
Proof.
  apply (interleaved_invariant
           (fun s => SchedulerMap.wf s /\ SchedulerMap.tracked s)).
  - intros s0 H. exact H.
  - intros o s0 s1 ev [W Tr] St. split.
    + by destruct (map_wf_step _ _ _ _ W St).
    + by eapply map_tracked_step.
Qed.

(** After [Cancel] has recorded a token, the only entry of that token whose
    callback can still be called is the one the worker holds already. *)
Lemma interleaved_cancel_recorded acts s fl tok e :
  SchedulerMap.wf s -> SchedulerMap.cancel_recorded tok s ->
  e ∈ SchedulerMap.interleaved_called acts (s, fl) ->
  token e = tok ->
  fl = Some e.
Proof.
  revert s fl. induction acts as [|a acts IH]; intros s fl W J;
    cbn [SchedulerMap.interleaved_called].
  - intros In. inversion In.
  - destruct (SchedulerMap.interleaved_step a (s, fl)) as [[[s1 fl1] e1]|] eqn:S.
    2:{ intros In. inversion In. }
    assert (SchedulerMap.wf s1 /\ SchedulerMap.cancel_recorded tok s1) as [W1 J1].
    { destruct (interleaved_step_impl _ _ _ _ _ _ S) as [->|[->|(o & ev & St)]].
      - done.
      - done.
      - split; [by destruct (map_wf_step _ _ _ _ W St)|].
        by eapply map_cancel_recorded_step. }
    specialize (IH s1 fl1 W1 J1).
    destruct (interleaved_step_inflight _ _ _ _ _ _ S)
      as [[Na ->]|[(-> & -> & ->)|(time & -> & -> & ->)]].
    + assert (e ∈ SchedulerMap.interleaved_called acts (s1, fl) ->
              token e = tok -> fl = Some e) as Rest by exact IH.
      destruct a; try done; by destruct fl.
    + destruct fl as [x|]; simpl.
      * intros In Eq. apply elem_of_cons in In as [->|In]; [done|].
        specialize (IH In Eq). discriminate.
      * exact IH.
    + simpl. intros In Eq. specialize (IH In Eq).
      apply map_fired_by_spec in IH as (T & N & _). exfalso.
      destruct J as [_ Fl].
      assert (tok ∈ tokens (SchedulerMap.scheduledCallbacks s)) as InT.
      { rewrite <- Eq. unfold tokens. apply list_elem_of_fmap_2.
        by apply top_elem. }
      apply Fl in InT. unfold SchedulerMap.canceled in N.
      rewrite <- Eq in InT. rewrite (subscript_present _ _ _ InT) in N.
      discriminate.
Qed.

(** The calls that a run makes are the callbacks of the entries it calls. *)
Lemma interleaved_calls_called acts s fl s' fl' evs :
  SchedulerMap.interleaved_run acts (s, fl) = Done (s', fl', evs) ->
  calls evs = map callback (SchedulerMap.interleaved_called acts (s, fl)).
Proof.
  revert s fl s' fl' evs.
  induction acts as [|a acts IH]; intros s fl s' fl' evs;
    cbn [SchedulerMap.interleaved_run SchedulerMap.interleaved_called].
  - by intros [= <- <- <-].
  - destruct (SchedulerMap.interleaved_step a (s, fl)) as [[[s1 fl1] e1]|] eqn:S;
      [|discriminate].
    destruct (SchedulerMap.interleaved_run acts (s1, fl1))
      as [[[s2 fl2] e2]|] eqn:R; [|discriminate].
    intros [= <- <- <-]. rewrite calls_app, (IH _ _ _ _ _ R). cbn [snd].
    destruct (SchedulerMap.public a) as [o|] eqn:P.
    + rewrite (interleaved_step_public _ _ _ _ P) in S.
      destruct (SchedulerMap.step o s) as [[s3 e3]|] eqn:St; [|discriminate].
      injection S as <- <- <-.
      assert (SchedulerMap.fired_by o s = None) as F
        by (destruct a; simpl in P; by simplify_eq).
      rewrite (map_fired_by_None _ _ _ _ F St).
      by destruct a.
    + destruct a; try discriminate; simpl in S.
      * by injection S as <- <- <-.
      * destruct fl as [x|]; [by injection S as <- <- <-|].
        pose proof (map_Worker_evaluate_spec GetCurrentTime s) as Sp.
        rewrite S in Sp. by destruct Sp as (_ & -> & _).
      * destruct fl as [x|]; by injection S as <- <- <-.
Qed.

(** The iterations of [run] are the evaluations that are followed by the
    call at once. *)
Lemma interleaved_run_atomic ops s :
  SchedulerMap.interleaved_run (concat (map SchedulerMap.atomic ops)) (s, None)
  = match SchedulerMap.run ops s with
    | Done (s', evs) => Done (s', None, evs)
    | Undefined why => Undefined why
    end.
Proof.
  revert s. induction ops as [|o ops IH]; intros s; [done|].
  destruct o as [c|cb d|tok| |time];
    cbn [map concat SchedulerMap.atomic app SchedulerMap.interleaved_run
         SchedulerMap.run SchedulerMap.step SchedulerMap.interleaved_step].
  - rewrite IH. by destruct (SchedulerMap.run ops _) as [[? ?]|].
  - destruct (SchedulerMap.Schedule cb d s) as [[[t s1] e1]|]; [|done].
    rewrite IH. by destruct (SchedulerMap.run ops s1) as [[? ?]|].
  - rewrite IH. unfold SchedulerMap.Cancel. simpl.
    by destruct (SchedulerMap.run ops _) as [[? ?]|].
  - rewrite IH. unfold SchedulerMap.WakeUp. simpl.
    by destruct (SchedulerMap.run ops _) as [[? ?]|].
  - pose proof (map_Worker_evaluate_spec time s) as Sp.
    destruct (SchedulerMap.Worker_evaluate time s) as [[[s1 fl1] e1]|why];
      [|by rewrite Sp].
    destruct Sp as (_ & _ & ->).
    destruct fl1 as [x|];
      cbn [SchedulerMap.interleaved_run SchedulerMap.interleaved_step];
      rewrite IH; destruct (SchedulerMap.run ops s1) as [[? ?]|]; try done.
    by rewrite <- app_assoc.
Qed.

(** [Cancel] returns while the worker is between the unlock and the call:
    the callback of the canceled registration is called after that. *)
Example map_cancel_close_to_due_time :
  let acts := [SchedulerMap.ActSetClock (Some 1%nat);
               SchedulerMap.ActSchedule 7 0;
               SchedulerMap.ActEvaluate (fun _ => 0%Q);
               SchedulerMap.ActCancel 1;
               SchedulerMap.ActCall] in
  exists s,
    SchedulerMap.interleaved_run acts (SchedulerMap.init, None)
    = Done (s, None,
            [EvLock; EvNotifyOne; EvUnlock; EvReturn 1;
             EvUnlock;
             EvLock; EvUnlock;
             EvCall 7; EvLock]) /\
    SchedulerMap.interleaved_called acts (SchedulerMap.init, None)
    = [mkScheduledCallback 1 0 7].
Proof.
  simpl. eexists. split; vm_compute; reflexivity.
Qed.

(** X5: in the map-based revision, with the mutex released around the call.
    In a state that the scheduler has reached from its construction, once
    [Cancel(token)] has returned for a token that was handed out before (or
    is below 1), no entry carrying that token is taken from the pending set
    to be called, in any continuation: if the entry was still pending it is
    flagged and will be dropped, and the token is never handed out again.
    The one call that can still be made for the token is that of the entry
    the worker had popped already when [Cancel] ran, whose callback it holds
    between [lock.unlock()] and [lock.lock()]; when the worker holds none,
    no entry carrying the token is called. *)
Theorem X5_map_cancel_is_final acts0 s inflight evs0 tok acts e :
  SchedulerMap.interleaved_run acts0 (SchedulerMap.init, None)
  = Done (s, inflight, evs0) ->
  tok < SchedulerMap.nextToken s ->
  e ∈ SchedulerMap.interleaved_called acts
        (fst (SchedulerMap.Cancel tok s), inflight) ->
  token e = tok ->
  inflight = Some e.
Proof.
  intros R Lt.
  assert (SchedulerMap.tracked SchedulerMap.init) as I0 by done.
  destruct (interleaved_run_wf _ _ _ _ _ _ (conj map_wf_init I0) R) as [W Tr].
  apply interleaved_cancel_recorded.
  - unfold SchedulerMap.Cancel. simpl.
    by destruct (SchedulerMap.isCallbackCanceled s !! tok).
  - by apply map_Cancel_records.
Qed.

Lemma X5_map_cancel_is_final_witness :
  Some (mkScheduledCallback 1 0 7) = Some (mkScheduledCallback 1 0 7).
Proof.
  refine (X5_map_cancel_is_final
            [SchedulerMap.ActSetClock (Some 1%nat);
             SchedulerMap.ActSchedule 7 0;
             SchedulerMap.ActEvaluate (fun _ => 0%Q)]
            (SchedulerMap.mkImpl (Some 1%nat) [] false 2
               (delete 1 (<[ 1 := false ]> ∅)))
            (Some (mkScheduledCallback 1 0 7))
            [EvLock; EvNotifyOne; EvUnlock; EvReturn 1; EvUnlock]
            1
            [SchedulerMap.ActCall]
            (mkScheduledCallback 1 0 7) _ _ _ _).
  - vm_compute. reflexivity.
  - reflexivity.
  - vm_compute. apply list_elem_of_here.
  - reflexivity.
Defined.

(** ** The size of the cancellation structures *)

(** X6: in the set-based revision [canceledCallbacks] only grows.  After any
    run it holds what it held before together with every token that was
    passed to [Cancel] during the run, whether or not an entry with that
    token existed, fired or was dropped in the meantime. *)
Theorem X6_set_canceled_tokens_accumulate ops s s' evs :
  SchedulerSet.run ops s = Done (s', evs) ->
  SchedulerSet.canceledCallbacks s'
  = list_to_set (cancel_arguments ops) ∪ SchedulerSet.canceledCallbacks s /\
  SchedulerSet.canceledCallbacks s ⊆ SchedulerSet.canceledCallbacks s' /\
  (size (SchedulerSet.canceledCallbacks s)
   <= size (SchedulerSet.canceledCallbacks s'))%nat.
Proof.
  intros R. pose proof (set_canceled_run _ _ _ _ R) as E.
  assert (SchedulerSet.canceledCallbacks s ⊆ SchedulerSet.canceledCallbacks s')
    as Sub.
  { rewrite E. intros t Ht. apply elem_of_union. by right. }
  split; [exact E|]. split; [exact Sub|]. by apply subseteq_size.
Qed.

Lemma X6_set_canceled_tokens_accumulate_witness :
  exists s',
    SchedulerSet.canceledCallbacks s'
    = list_to_set (cancel_arguments
                     [OpSetClock (Some 1%nat); OpSchedule 7 0; OpCancel 1;
                      OpCancel 5; OpWorker (fun _ => 0%Q)])
      ∪ SchedulerSet.canceledCallbacks SchedulerSet.init /\
    SchedulerSet.scheduledCallbacks s' = [].
Proof.
  eexists. split.
  - refine (proj1 (X6_set_canceled_tokens_accumulate
                     [OpSetClock (Some 1%nat); OpSchedule 7 0; OpCancel 1;
                      OpCancel 5; OpWorker (fun _ => 0%Q)]
                     SchedulerSet.init _ _ _)).
    vm_compute. reflexivity.
  - reflexivity.
Defined.

(** X7: in the map-based revision [isCallbackCanceled] holds exactly one key
    per pending entry, after every run from the freshly constructed
    scheduler: its size is the number of pending entries, so canceling,
    firing and dropping leave nothing behind. *)
Theorem X7_map_size_is_pending_count ops s evs :
  SchedulerMap.run ops SchedulerMap.init = Done (s, evs) ->
  size (SchedulerMap.isCallbackCanceled s)
  = length (SchedulerMap.scheduledCallbacks s).
Proof.
  intros R.
  assert (SchedulerMap.tracked SchedulerMap.init) as I0 by done.
  destruct (map_run_invariant _ _ _ _ map_wf_init I0 R) as [(ND & _) Tr].
  rewrite <- size_dom, Tr, size_list_to_set by done.
  unfold tokens. apply length_map.
Qed.

Lemma X7_map_size_is_pending_count_witness :
  size (<[ 3 := false ]> (<[ 2 := true ]> ∅) : gmap Z bool) = 2%nat.
Proof.
  refine (X7_map_size_is_pending_count
    [OpSetClock (Some 1%nat); OpSchedule 7 0; OpSchedule 8 20; OpCancel 2;
     OpCancel 9; OpWorker (fun _ => 5%Q); OpSchedule 9 30; OpWakeUp]
    (SchedulerMap.mkImpl (Some 1%nat)
       [mkScheduledCallback 2 20 8; mkScheduledCallback 3 30 9]
       false 4 (<[ 3 := false ]> (<[ 2 := true ]> ∅)))
    [EvLock; EvNotifyOne; EvUnlock; EvReturn 1;
     EvLock; EvNotifyOne; EvUnlock; EvReturn 2;
     EvLock; EvUnlock; EvLock; EvUnlock;
     EvUnlock; EvCall 7; EvLock;
     EvLock; EvNotifyOne; EvUnlock; EvReturn 3;
     EvLock; EvNotifyOne; EvUnlock] _).
  vm_compute. reflexivity.
Defined.

(** ** Everything that is due fires, earliest first *)

Lemma length_pop q e : top q = Some e -> length q = S (length (pop q)).
Proof.
  intros T. by rewrite <- (Permutation_length (top_Some_perm q e T)).
Qed.

Lemma top_is_Some q : q <> [] -> exists e, top q = Some e.
Proof. destruct q; [done|]. intros _. by eexists. Qed.

Lemma due_le_wait (d now : double) :
  (d <= now)%D -> double_gt (d - now)%D 0%Q = false.
Proof.
  intros H. destruct (double_le_number _ _ H). by apply wait_not_positive_le.
Qed.

Lemma due_le_numeric (q : priority_queue) (now : double) :
  (forall e, e ∈ q -> (due e <= now)%D) -> numeric_queue q.
Proof.
  intros H. apply Forall_forall. intros e In.
  by destruct (double_le_number _ _ (H e In)).
Qed.

Lemma set_drain time c n s :
  length (SchedulerSet.scheduledCallbacks s) = n ->
  SchedulerSet.stopWorker s = false ->
  SchedulerSet.clock s = Some c ->
  (forall e, e ∈ SchedulerSet.scheduledCallbacks s ->
             (due e <= time c)%D /\ token e ∉ SchedulerSet.canceledCallbacks s) ->
  exists s' evs,
    SchedulerSet.run (replicate n (OpWorker time)) s = Done (s', evs) /\
    SchedulerSet.scheduledCallbacks s' = [] /\
    SchedulerSet.fired (replicate n (OpWorker time)) s
    ≡ₚ SchedulerSet.scheduledCallbacks s /\
    StronglySorted due_le (SchedulerSet.fired (replicate n (OpWorker time)) s).
Proof.
  revert s. induction n as [|n IH]; intros s Len St C Due; simpl.
  - apply length_zero_iff_nil in Len. exists s, []. rewrite Len.
    repeat split; [done|constructor].
  - destruct (top_is_Some (SchedulerSet.scheduledCallbacks s)) as [e T].
    { intros E. by rewrite E in Len. }
    destruct (Due e (top_elem _ _ T)) as [De Ne].
    assert (SchedulerSet.Worker_iteration time s
            = Done (SchedulerSet.set_scheduledCallbacks
                      (pop (SchedulerSet.scheduledCallbacks s)) s,
                    [EvCall (callback e)])) as W.
    { apply set_Worker_iteration_spec. eapply SchedulerSet.Firing; eauto.
      by apply due_le_wait. }
    rewrite W. simpl. rewrite T.
    destruct (IH (SchedulerSet.set_scheduledCallbacks
                    (pop (SchedulerSet.scheduledCallbacks s)) s))
      as (s' & evs & R & Q & P & Srt); simpl; try done.
    { rewrite (length_pop _ _ T) in Len. by injection Len. }
    { intros e' In. apply Due. by apply pop_subset. }
    simpl in P. rewrite R. exists s', (EvCall (callback e) :: evs).
    split; [done|]. split; [done|]. split.
    + rewrite P. by apply top_Some_perm.
    + constructor; [done|]. apply Forall_forall. intros e' In.
      rewrite P in In. eapply top_min; [|done|by apply pop_subset].
      apply (due_le_numeric _ (time c)). intros x Hx. by apply Due.
Qed.

Lemma map_canceled_delete s m k tok :
  SchedulerMap.canceled s tok = false ->
  m = delete k (SchedulerMap.isCallbackCanceled s) ->
  SchedulerMap.canceled (SchedulerMap.set_isCallbackCanceled m s) tok = false.
Proof.
  unfold SchedulerMap.canceled, SchedulerMap.subscript. simpl. intros N ->.
  destruct (decide (k = tok)) as [->|Ne].
  - by rewrite lookup_delete_eq.
  - rewrite lookup_delete_ne by done.
    by destruct (SchedulerMap.isCallbackCanceled s !! tok).
Qed.

Lemma map_drain time c n s :
  length (SchedulerMap.scheduledCallbacks s) = n ->
  SchedulerMap.stopWorker s = false ->
  SchedulerMap.clock s = Some c ->
  (forall e, e ∈ SchedulerMap.scheduledCallbacks s ->
             (due e <= time c)%D /\ SchedulerMap.canceled s (token e) = false) ->
  exists s' evs,
    SchedulerMap.run (replicate n (OpWorker time)) s = Done (s', evs) /\
    SchedulerMap.scheduledCallbacks s' = [] /\
    SchedulerMap.fired (replicate n (OpWorker time)) s
    ≡ₚ SchedulerMap.scheduledCallbacks s /\
    StronglySorted due_le (SchedulerMap.fired (replicate n (OpWorker time)) s).
Proof.
  revert s. induction n as [|n IH]; intros s Len St C Due; simpl.
  - apply length_zero_iff_nil in Len. exists s, []. rewrite Len.
    repeat split; [done|constructor].
  - destruct (top_is_Some (SchedulerMap.scheduledCallbacks s)) as [e T].
    { intros E. by rewrite E in Len. }
    destruct (Due e (top_elem _ _ T)) as [De Ne].
    assert (SchedulerMap.Worker_iteration time s
            = Done (SchedulerMap.set_scheduledCallbacks
                      (pop (SchedulerMap.scheduledCallbacks s))
                      (SchedulerMap.set_isCallbackCanceled
                         (delete (token e) (SchedulerMap.isCallbackCanceled s)) s),
                    [EvUnlock; EvCall (callback e); EvLock])) as W.
    { apply map_Worker_iteration_spec. eapply SchedulerMap.Firing; eauto.
      by apply due_le_wait. }
    rewrite W. simpl. rewrite T.
    destruct (IH (SchedulerMap.set_scheduledCallbacks
                    (pop (SchedulerMap.scheduledCallbacks s))
                    (SchedulerMap.set_isCallbackCanceled
                       (delete (token e) (SchedulerMap.isCallbackCanceled s)) s)))
      as (s' & evs & R & Q & P & Srt); simpl; try done.
    { rewrite (length_pop _ _ T) in Len. by injection Len. }
    { intros e' In. apply pop_subset in In. destruct (Due e' In) as [D N].
      split; [done|].
      exact (map_canceled_delete s _ (token e) (token e') N eq_refl). }
    simpl in P. rewrite R.
    exists s', ([EvUnlock; EvCall (callback e); EvLock] ++ evs).
    split; [done|]. split; [done|]. split.
    + rewrite P. by apply top_Some_perm.
    + constructor; [done|]. apply Forall_forall. intros e' In.
      rewrite P in In. eapply top_min; [|done|by apply pop_subset].
      apply (due_le_numeric _ (time c)). intros x Hx. by apply Due.
Qed.

(** X8: set-based revision.  If the worker runs, the clock is set, and every
    pending entry is due and not canceled, then as many worker iterations as
    there are pending entries all succeed, empty the pending set, and fire
    exactly the entries that were pending, each once, in non-decreasing
    order of their due times; the calls made are their callbacks in that
    order. *)
Theorem X8_set_due_entries_all_fire_in_order time c s :
  SchedulerSet.stopWorker s = false ->
  SchedulerSet.clock s = Some c ->
  (forall e, e ∈ SchedulerSet.scheduledCallbacks s ->
             (due e <= time c)%D /\ token e ∉ SchedulerSet.canceledCallbacks s) ->
  let ops := replicate (length (SchedulerSet.scheduledCallbacks s)) (OpWorker time) in
  exists s' evs,
    SchedulerSet.run ops s = Done (s', evs) /\
    SchedulerSet.scheduledCallbacks s' = [] /\
    SchedulerSet.fired ops s ≡ₚ SchedulerSet.scheduledCallbacks s /\
    StronglySorted due_le (SchedulerSet.fired ops s) /\
    calls evs = map callback (SchedulerSet.fired ops s).
Proof.
  intros St C Due ops.
  destruct (set_drain time c _ s eq_refl St C Due) as (s' & evs & R & Q & P & Srt).
  exists s', evs. repeat split; try done. by eapply set_calls_fired.
Qed.

(** X9: the same for the map-based revision. *)
Theorem X9_map_due_entries_all_fire_in_order time c s :
  SchedulerMap.stopWorker s = false ->
  SchedulerMap.clock s = Some c ->
  (forall e, e ∈ SchedulerMap.scheduledCallbacks s ->
             (due e <= time c)%D /\ SchedulerMap.canceled s (token e) = false) ->
  let ops := replicate (length (SchedulerMap.scheduledCallbacks s)) (OpWorker time) in
  exists s' evs,
    SchedulerMap.run ops s = Done (s', evs) /\
    SchedulerMap.scheduledCallbacks s' = [] /\
    SchedulerMap.fired ops s ≡ₚ SchedulerMap.scheduledCallbacks s /\
    StronglySorted due_le (SchedulerMap.fired ops s) /\
    calls evs = map callback (SchedulerMap.fired ops s).
Proof.
  intros St C Due ops.
  destruct (map_drain time c _ s eq_refl St C Due) as (s' & evs & R & Q & P & Srt).
  exists s', evs. repeat split; try done. by eapply map_calls_fired.
Qed.

Lemma X8_set_due_entries_all_fire_in_order_witness :
  let s := SchedulerSet.mkImpl (Some 1%nat)
             [mkScheduledCallback 1 5 7; mkScheduledCallback 2 3 8] false 3 ∅ in
  let ops := replicate 2 (OpWorker (fun _ => 6%Q)) in
  exists s' evs,
    SchedulerSet.run ops s = Done (s', evs) /\
    SchedulerSet.scheduledCallbacks s' = [] /\
    SchedulerSet.fired ops s ≡ₚ SchedulerSet.scheduledCallbacks s /\
    StronglySorted due_le (SchedulerSet.fired ops s) /\
    calls evs = map callback (SchedulerSet.fired ops s).
Proof.
  refine (X8_set_due_entries_all_fire_in_order (fun _ => 6%Q) 1%nat
            (SchedulerSet.mkImpl (Some 1%nat)
               [mkScheduledCallback 1 5 7; mkScheduledCallback 2 3 8]
               false 3 ∅) _ _ _).
  - reflexivity.
  - reflexivity.
  - simpl. intros e In. split; [|apply not_elem_of_empty].
    apply elem_of_cons in In as [->|In]; [reflexivity|].
    apply list_elem_of_singleton in In as ->. reflexivity.
Defined.

Lemma X9_map_due_entries_all_fire_in_order_witness :
  let s := SchedulerMap.mkImpl (Some 1%nat)
             [mkScheduledCallback 1 5 7; mkScheduledCallback 2 3 8] false 3
             (<[ 2 := false ]> (<[ 1 := false ]> ∅)) in
  let ops := replicate 2 (OpWorker (fun _ => 6%Q)) in
  exists s' evs,
    SchedulerMap.run ops s = Done (s', evs) /\
    SchedulerMap.scheduledCallbacks s' = [] /\
    SchedulerMap.fired ops s ≡ₚ SchedulerMap.scheduledCallbacks s /\
    StronglySorted due_le (SchedulerMap.fired ops s) /\
    calls evs = map callback (SchedulerMap.fired ops s).
Proof.
  refine (X9_map_due_entries_all_fire_in_order (fun _ => 6%Q) 1%nat
            (SchedulerMap.mkImpl (Some 1%nat)
               [mkScheduledCallback 1 5 7; mkScheduledCallback 2 3 8]
               false 3 (<[ 2 := false ]> (<[ 1 := false ]> ∅))) _ _ _).
  - reflexivity.
  - reflexivity.
  - simpl. intros e In.
    apply elem_of_cons in In as [->|In];
      [split; [reflexivity|vm_compute; reflexivity]|].
    apply list_elem_of_singleton in In as ->.
    split; [reflexivity|vm_compute; reflexivity].
Defined.

(** ** Who calls, and the balance of the lock *)

Lemma replay_lock_guard t m evs :
  evs = [] \/ evs = [EvLock; EvUnlock] \/ evs = [EvLock; EvNotifyOne; EvUnlock]
  \/ (exists tok, evs = [EvLock; EvNotifyOne; EvUnlock] ++ [EvReturn tok])
  \/ (exists tok, evs = [] ++ [EvReturn tok]) ->
  m = None \/ (exists n, m = Some (t, S n)) ->
  replay t m evs = Some ([], m).
Proof.
  intros E [->|[n ->]];
    destruct E as [->|[->|[->|[[tok ->]|[tok ->]]]]]; simpl;
    rewrite ?decide_True by done; simpl; rewrite ?decide_True by done; done.
Qed.

Lemma set_public_events o s s' evs :
  is_Worker o = false ->
  SchedulerSet.step o s = Done (s', evs) ->
  calls evs = [] /\
  (evs = [] \/ evs = [EvLock; EvUnlock] \/ evs = [EvLock; EvNotifyOne; EvUnlock]
   \/ (exists tok, evs = [EvLock; EvNotifyOne; EvUnlock] ++ [EvReturn tok])
   \/ (exists tok, evs = [] ++ [EvReturn tok])).
Proof.
  destruct o as [c0|cb d|tok| |time]; simpl; try discriminate; intros _.
  - intros [= <- <-]. split; [done|]. by left.
  - destruct (SchedulerSet.Schedule cb d s) as [[[tok s1] e1]|] eqn:S;
      [|discriminate].
    intros [= <- <-].
    apply set_Schedule_spec in S as [(_ & _ & _ & ->)|(_ & _ & _ & _ & ->)];
      (split; [done|]); do 3 right; [right|left]; by eexists.
  - intros [= <- <-]. split; [done|]. right. by left.
  - intros [= <- <-]. split; [done|]. do 2 right. by left.
Qed.

Lemma map_public_events o s s' evs :
  is_Worker o = false ->
  SchedulerMap.step o s = Done (s', evs) ->
  calls evs = [] /\
  (evs = [] \/ evs = [EvLock; EvUnlock] \/ evs = [EvLock; EvNotifyOne; EvUnlock]
   \/ (exists tok, evs = [EvLock; EvNotifyOne; EvUnlock] ++ [EvReturn tok])
   \/ (exists tok, evs = [] ++ [EvReturn tok])).
Proof.
  destruct o as [c0|cb d|tok| |time]; simpl; try discriminate; intros _.
  - intros [= <- <-]. split; [done|]. by left.
  - destruct (SchedulerMap.Schedule cb d s) as [[[tok s1] e1]|] eqn:S;
      [|discriminate].
    intros [= <- <-].
    apply map_Schedule_spec in S as [(_ & _ & _ & ->)|(_ & _ & _ & _ & ->)];
      (split; [done|]); do 3 right; [right|left]; by eexists.
  - unfold SchedulerMap.Cancel. intros [= <- <-]. split; [done|]. right. by left.
  - intros [= <- <-]. split; [done|]. do 2 right. by left.
Qed.

(** X10: callbacks are called by the worker only, and the lock is balanced.
    In both revisions a public operation ([SetClock], [Schedule], [Cancel],
    [WakeUp]) never calls a callback, and the thread that executes it leaves
    the mutex as it found it, whether the mutex was free or already owned by
    that thread (a callback re-entering on the worker's thread).  An
    iteration of the worker that starts owning the mutex once makes at most
    one call, never unlocks a mutex it does not own, and ends owning the
    mutex once again, unless the stop flag was set, in which case it ends
    with the mutex free. *)
Theorem X10_calls_and_lock_balance :
  (forall o s s' evs t m,
     is_Worker o = false ->
     SchedulerSet.step o s = Done (s', evs) ->
     m = None \/ (exists n, m = Some (t, S n)) ->
     calls evs = [] /\ replay t m evs = Some ([], m)) /\
  (forall o s s' evs t m,
     is_Worker o = false ->
     SchedulerMap.step o s = Done (s', evs) ->
     m = None \/ (exists n, m = Some (t, S n)) ->
     calls evs = [] /\ replay t m evs = Some ([], m)) /\
  (forall time s s' evs,
     SchedulerSet.Worker_iteration time s = Done (s', evs) ->
     exists cs,
       replay WorkerThread (Some (WorkerThread, 1%nat)) evs
       = Some (cs, if SchedulerSet.stopWorker s then None
                   else Some (WorkerThread, 1%nat)) /\
       map fst cs = calls evs /\ (length cs <= 1)%nat) /\
  (forall time s s' evs,
     SchedulerMap.Worker_iteration time s = Done (s', evs) ->
     exists cs,
       replay WorkerThread (Some (WorkerThread, 1%nat)) evs
       = Some (cs, if SchedulerMap.stopWorker s then None
                   else Some (WorkerThread, 1%nat)) /\
       map fst cs = calls evs /\ (length cs <= 1)%nat).
Proof.
  split; [|split; [|split]].
  - intros o s s' evs t m P S M.
    destruct (set_public_events _ _ _ _ P S) as [C E].
    split; [done|]. by apply replay_lock_guard.
  - intros o s s' evs t m P S M.
    destruct (map_public_events _ _ _ _ P S) as [C E].
    split; [done|]. by apply replay_lock_guard.
  - intros time s s' evs H. apply set_Worker_iteration_spec in H.
    destruct H as [St|St E|e c ms St T C G N Wm|e c St T C G N|e c St T C N];
      rewrite St; eexists; (split; [reflexivity|]); simpl; split; (done || lia).
  - intros time s s' evs H. apply map_Worker_iteration_spec in H.
    destruct H as [St|St E|e c ms St T C G N Wm|e c St T C G N|e c St T C N];
      rewrite St; eexists; (split; [reflexivity|]); simpl; split; (done || lia).
Qed.

Lemma X10_calls_and_lock_balance_witness :
  (calls [EvLock; EvUnlock] = [] /\
   replay WorkerThread (Some (WorkerThread, 1%nat)) [EvLock; EvUnlock]
   = Some ([], Some (WorkerThread, 1%nat))) /\
  (exists cs,
     replay WorkerThread (Some (WorkerThread, 1%nat))
       [EvUnlock; EvCall 7; EvLock]
     = Some (cs, Some (WorkerThread, 1%nat)) /\
     map fst cs = calls [EvUnlock; EvCall 7; EvLock] /\ (length cs <= 1)%nat).
Proof.
  destruct X10_calls_and_lock_balance as (HS & _ & _ & HM). split.
  - refine (HS (OpCancel 1) SchedulerSet.init
              (SchedulerSet.mkImpl None [] false 1 ({[ 1 ]} ∪ ∅))
              [EvLock; EvUnlock] WorkerThread (Some (WorkerThread, 1%nat))
              _ _ _).
    + reflexivity.
    + reflexivity.
    + right. by exists 0%nat.
  - refine (HM (fun _ => 10%Q)
              (SchedulerMap.mkImpl (Some 1%nat) [mkScheduledCallback 1 10 7]
                 false 2 (<[ 1 := false ]> ∅))
              (SchedulerMap.mkImpl (Some 1%nat) [] false 2
                 (delete 1 (<[ 1 := false ]> ∅)))
              [EvUnlock; EvCall 7; EvLock] _).
    vm_compute. reflexivity.
Defined.

(** ** Scheduling something that is already due *)

Lemma top_push_least x q :
  (forall e, e ∈ q -> (due x < due e)%D) -> top (push x q) = Some x.
Proof.
  intros Least.
  destruct (top_is_Some (push x q)) as [m T].
  { unfold push. intros E. by apply app_eq_nil in E as [_ E]. }
  rewrite T. f_equal.
  pose proof (top_elem _ _ T) as In. unfold push in In.
  apply elem_of_app in In as [In|In].
  - exfalso. assert (x ∈ push x q) as Inx
      by (unfold push; apply elem_of_app; right; apply list_elem_of_here).
    assert (numeric_queue (push x q)) as Nq.
    { apply numeric_queue_push;
        [by destruct (double_lt_number _ _ (Least m In))|].
      apply Forall_forall. intros e He.
      by destruct (double_lt_number _ _ (Least e He)). }
    pose proof (top_min _ _ _ Nq T Inx) as Le.
    exact (double_lt_not_le _ _ (Least m In) Le).
  - by apply list_elem_of_singleton in In.
Qed.

Lemma pop_push_least x q :
  (forall e, e ∈ q -> (due x < due e)%D) -> pop (push x q) ≡ₚ q.
Proof.
  intros Least. pose proof (top_Some_perm _ _ (top_push_least x q Least)) as P.
  unfold push in P at 2. rewrite <- Permutation_cons_append in P.
  by apply Permutation_cons_inv in P.
Qed.

(** X11: [Schedule] of a callback that is due already and earlier than
    everything pending, followed by one iteration of the worker, calls that
    callback and nothing else, returns the next token, and leaves the
    scheduler as it was apart from the token counter: the same pending
    entries, the same cancellation structure, the same clock.  In the
    map-based revision this holds in every state that a run has reached; in
    the set-based revision it holds in every state in which the next token
    has not been passed to [Cancel]. *)
Theorem X11_schedule_due_fires_next :
  (forall ops0 s evs0 cb d time c,
     SchedulerMap.run ops0 SchedulerMap.init = Done (s, evs0) ->
     SchedulerMap.stopWorker s = false ->
     SchedulerMap.clock s = Some c ->
     SchedulerMap.nextToken s <> INT_MAX ->
     (d <= time c)%D ->
     (forall e, e ∈ SchedulerMap.scheduledCallbacks s -> (d < due e)%D) ->
     exists s',
       SchedulerMap.run [OpSchedule cb d; OpWorker time] s
       = Done (s', [EvLock; EvNotifyOne; EvUnlock;
                    EvReturn (SchedulerMap.nextToken s);
                    EvUnlock; EvCall cb; EvLock]) /\
       SchedulerMap.scheduledCallbacks s' ≡ₚ SchedulerMap.scheduledCallbacks s /\
       SchedulerMap.isCallbackCanceled s' = SchedulerMap.isCallbackCanceled s /\
       SchedulerMap.nextToken s' = SchedulerMap.nextToken s + 1 /\
       SchedulerMap.clock s' = SchedulerMap.clock s) /\
  (forall s cb d time c,
     SchedulerSet.stopWorker s = false ->
     SchedulerSet.clock s = Some c ->
     SchedulerSet.nextToken s <> INT_MAX ->
     SchedulerSet.nextToken s ∉ SchedulerSet.canceledCallbacks s ->
     (d <= time c)%D ->
     (forall e, e ∈ SchedulerSet.scheduledCallbacks s -> (d < due e)%D) ->
     exists s',
       SchedulerSet.run [OpSchedule cb d; OpWorker time] s
       = Done (s', [EvLock; EvNotifyOne; EvUnlock;
                    EvReturn (SchedulerSet.nextToken s); EvCall cb]) /\
       SchedulerSet.scheduledCallbacks s' ≡ₚ SchedulerSet.scheduledCallbacks s /\
       SchedulerSet.canceledCallbacks s' = SchedulerSet.canceledCallbacks s /\
       SchedulerSet.nextToken s' = SchedulerSet.nextToken s + 1 /\
       SchedulerSet.clock s' = SchedulerSet.clock s).
Proof.
  split.
  - intros ops0 s evs0 cb d time c R St C Nm Due Least.
    assert (SchedulerMap.tracked SchedulerMap.init) as I0 by done.
    destruct (map_run_invariant _ _ _ _ map_wf_init I0 R) as [W Tr].
    set (x := mkScheduledCallback (SchedulerMap.nextToken s) d cb).
    assert (SchedulerMap.isCallbackCanceled s !! SchedulerMap.nextToken s = None)
      as Fresh.
    { apply not_elem_of_dom. rewrite Tr. intros In.
      apply elem_of_list_to_set in In. destruct W as (_ & B & _).
      rewrite Forall_forall in B. specialize (B _ In). lia. }
    assert (SchedulerMap.Schedule cb d s
            = Done (SchedulerMap.nextToken s,
                    SchedulerMap.set_scheduledCallbacks
                      (push x (SchedulerMap.scheduledCallbacks s))
                      (SchedulerMap.set_isCallbackCanceled
                         (<[SchedulerMap.nextToken s := false]>
                            (SchedulerMap.isCallbackCanceled s))
                         (SchedulerMap.set_nextToken
                            (SchedulerMap.nextToken s + 1) s)),
                    [EvLock; EvNotifyOne; EvUnlock])) as S.
    { apply map_Schedule_spec. right. rewrite C. done. }
    eexists. split; [|split; [|split; [|split]]].
    + simpl. rewrite S. simpl.
      match goal with
      | |- context [SchedulerMap.Worker_iteration time ?s1] =>
          assert (SchedulerMap.worker_step time s1
                    (SchedulerMap.set_scheduledCallbacks
                       (pop (SchedulerMap.scheduledCallbacks s1))
                       (SchedulerMap.set_isCallbackCanceled
                          (delete (token x) (SchedulerMap.isCallbackCanceled s1))
                          s1))
                    [EvUnlock; EvCall (callback x); EvLock]) as Wk
      end.
      { eapply SchedulerMap.Firing; simpl; eauto.
        - by apply top_push_least.
        - by apply due_le_wait.
        - unfold SchedulerMap.canceled. simpl.
          by rewrite (subscript_present _ _ false) by apply lookup_insert_eq. }
      apply map_Worker_iteration_spec in Wk. rewrite Wk. reflexivity.
    + simpl. by apply pop_push_least.
    + simpl. rewrite delete_insert_eq. by apply delete_id.
    + reflexivity.
    + reflexivity.
  - intros s cb d time c St C Nm Nc Due Least.
    set (x := mkScheduledCallback (SchedulerSet.nextToken s) d cb).
    assert (SchedulerSet.Schedule cb d s
            = Done (SchedulerSet.nextToken s,
                    SchedulerSet.set_scheduledCallbacks
                      (push x (SchedulerSet.scheduledCallbacks s))
                      (SchedulerSet.set_nextToken
                         (SchedulerSet.nextToken s + 1) s),
                    [EvLock; EvNotifyOne; EvUnlock])) as S.
    { apply set_Schedule_spec. right. rewrite C. done. }
    eexists. split; [|split; [|split; [|split]]].
    + simpl. rewrite S. simpl.
      match goal with
      | |- context [SchedulerSet.Worker_iteration time ?s1] =>
          assert (SchedulerSet.worker_step time s1
                    (SchedulerSet.set_scheduledCallbacks
                       (pop (SchedulerSet.scheduledCallbacks s1)) s1)
                    [EvCall (callback x)]) as Wk
      end.
      { eapply SchedulerSet.Firing; simpl; eauto.
        - by apply top_push_least.
        - by apply due_le_wait. }
      apply set_Worker_iteration_spec in Wk. rewrite Wk. reflexivity.
    + simpl. by apply pop_push_least.
    + reflexivity.
    + reflexivity.
    + reflexivity.
Qed.

Lemma X11_schedule_due_fires_next_witness :
  (exists s',
     SchedulerMap.run [OpSchedule 7 5; OpWorker (fun _ => 6%Q)]
       (SchedulerMap.mkImpl (Some 1%nat) [mkScheduledCallback 1 20 8] false 2
          (<[ 1 := false ]> ∅))
     = Done (s', [EvLock; EvNotifyOne; EvUnlock; EvReturn 2;
                  EvUnlock; EvCall 7; EvLock]) /\
     SchedulerMap.scheduledCallbacks s' ≡ₚ [mkScheduledCallback 1 20 8] /\
     SchedulerMap.isCallbackCanceled s' = <[ 1 := false ]> ∅ /\
     SchedulerMap.nextToken s' = 2 + 1 /\
     SchedulerMap.clock s' = Some 1%nat) /\
  (exists s',
     SchedulerSet.run [OpSchedule 7 5; OpWorker (fun _ => 6%Q)]
       (SchedulerSet.mkImpl (Some 1%nat) [mkScheduledCallback 1 20 8] false 2 ∅)
     = Done (s', [EvLock; EvNotifyOne; EvUnlock; EvReturn 2; EvCall 7]) /\
     SchedulerSet.scheduledCallbacks s' ≡ₚ [mkScheduledCallback 1 20 8] /\
     SchedulerSet.canceledCallbacks s' = ∅ /\
     SchedulerSet.nextToken s' = 2 + 1 /\
     SchedulerSet.clock s' = Some 1%nat).
Proof.
  destruct X11_schedule_due_fires_next as [HM HS]. split.
  - refine (HM [OpSetClock (Some 1%nat); OpSchedule 8 20]
              (SchedulerMap.mkImpl (Some 1%nat) [mkScheduledCallback 1 20 8]
                 false 2 (<[ 1 := false ]> ∅))
              [EvLock; EvNotifyOne; EvUnlock; EvReturn 1]
              7%nat 5%Q (fun _ => 6%Q) 1%nat _ _ _ _ _ _).
    + vm_compute. reflexivity.
    + reflexivity.
    + reflexivity.
    + vm_compute. discriminate.
    + reflexivity.
    + simpl. intros e In. apply list_elem_of_singleton in In as ->.
      vm_compute. reflexivity.
  - refine (HS (SchedulerSet.mkImpl (Some 1%nat) [mkScheduledCallback 1 20 8]
                  false 2 ∅)
              7%nat 5%Q (fun _ => 6%Q) 1%nat _ _ _ _ _ _).
    + reflexivity.
    + reflexivity.
    + vm_compute. discriminate.
    + apply not_elem_of_empty.
    + reflexivity.
    + simpl. intros e In. apply list_elem_of_singleton in In as ->.
      vm_compute. reflexivity.
Defined.

(** ** The clock that GetClock returns *)

Lemma map_clock_step o s s' evs :
  SchedulerMap.step o s = Done (s', evs) ->
  SchedulerMap.clock s' = last_SetClock [o] (SchedulerMap.clock s).
Proof.
  destruct o as [c0|cb d|tok| |time]; simpl.
  - by intros [= <- <-].
  - destruct (SchedulerMap.Schedule cb d s) as [[[tok s1] e1]|] eqn:S;
      [|discriminate].
    intros [= <- <-].
    by apply map_Schedule_spec in S as [(_ & _ & -> & _)|(_ & _ & _ & -> & _)].
  - unfold SchedulerMap.Cancel. intros [= <- <-].
    by destruct (SchedulerMap.isCallbackCanceled s !! tok).
  - by intros [= <- <-].
  - intros H. apply map_Worker_iteration_spec in H. by destruct H.
Qed.

(** X12: [GetClock] returns the clock of the latest [SetClock] call, null
    included, or the clock there was before if the run has no [SetClock]:
    no other operation and no iteration of the worker replaces the clock
    (map-based revision, which has [GetClock]). *)
Theorem X12_GetClock_is_last_SetClock ops s s' evs :
  SchedulerMap.run ops s = Done (s', evs) ->
  SchedulerMap.GetClock s' = last_SetClock ops (SchedulerMap.GetClock s).
Proof.
  unfold SchedulerMap.GetClock.
  revert s s' evs. induction ops as [|o ops IH]; intros s s' evs; simpl.
  - by intros [= <- <-].
  - destruct (SchedulerMap.step o s) as [[s1 e1]|] eqn:S; [|discriminate].
    destruct (SchedulerMap.run ops s1) as [[s2 e2]|] eqn:R; [|discriminate].
    intros [= <- <-]. rewrite (IH _ _ _ R), (map_clock_step _ _ _ _ S).
    by destruct o.
Qed.

Lemma X12_GetClock_is_last_SetClock_witness :
  exists s',
    SchedulerMap.GetClock s'
    = last_SetClock
        [OpSetClock (Some 1%nat); OpSchedule 7 0; OpSetClock (Some 2%nat);
         OpWorker (fun _ => 0%Q); OpCancel 1]
        (SchedulerMap.GetClock SchedulerMap.init) /\
    SchedulerMap.GetClock s' = Some 2%nat.
Proof.
  eexists. split.
  - refine (X12_GetClock_is_last_SetClock
              [OpSetClock (Some 1%nat); OpSchedule 7 0; OpSetClock (Some 2%nat);
               OpWorker (fun _ => 0%Q); OpCancel 1]
              SchedulerMap.init _ _ _).
    vm_compute. reflexivity.
  - reflexivity.
Defined.

(** ** The comparison of entries *)

(** X14: [ScheduledCallback::operator>] looks at the due time only.  It is
    irreflexive, asymmetric and transitive on all entries.  On the entries
    whose due time is a number it is a strict weak ordering, as the
    priority queue requires of its comparison: "not greater" is transitive,
    and two entries are greater neither way exactly when their due times are
    equal, whatever their tokens and callbacks.  An entry whose due time is
    NaN is greater neither way than every entry, those of different due
    times included, so with such an entry "not greater" is not transitive
    and the comparison is no strict weak ordering. *)
Theorem X14_operator_gt_strict_weak_order :
  (forall a, ScheduledCallback_gt a a = false) /\
  (forall a b, ScheduledCallback_gt a b = true -> ScheduledCallback_gt b a = false) /\
  (forall a b c,
     ScheduledCallback_gt a b = true -> ScheduledCallback_gt b c = true ->
     ScheduledCallback_gt a c = true) /\
  (forall a b c,
     is_number (due a) -> is_number (due b) -> is_number (due c) ->
     ScheduledCallback_gt a b = false -> ScheduledCallback_gt b c = false ->
     ScheduledCallback_gt a c = false) /\
  (forall a b,
     is_number (due a) -> is_number (due b) ->
     (ScheduledCallback_gt a b = false /\ ScheduledCallback_gt b a = false)
     <-> double_eq (due a) (due b)) /\
  (forall a b,
     due a = NaN ->
     ScheduledCallback_gt a b = false /\ ScheduledCallback_gt b a = false) /\
  (let a := mkScheduledCallback 1 2 7 in
   let b := mkScheduledCallback 2 NaN 8 in
   let c := mkScheduledCallback 3 1 9 in
   ScheduledCallback_gt a b = false /\ ScheduledCallback_gt b c = false /\
   ScheduledCallback_gt a c = true).
Proof.
  unfold ScheduledCallback_gt.
  split; [|split; [|split; [|split; [|split; [|split]]]]].
  - intros a. destruct (due a); simpl; try done.
    apply Qgt_bool_false, Qle_refl.
  - intros a b H. destruct (double_lt_number _ _ H) as [Nb Na].
    apply double_gt_false; [done..|]. by apply double_lt_le.
  - intros a b c H1 H2. by eapply double_lt_trans.
  - intros a b c Na Nb Nc H1 H2.
    apply double_gt_false in H1; [|done..]. apply double_gt_false in H2; [|done..].
    apply double_gt_false; [done..|]. by eapply double_le_trans.
  - intros a b Na Nb. split.
    + intros [H1 H2].
      apply double_gt_false in H1; [|done..]. apply double_gt_false in H2; [|done..].
      by apply double_le_antisym.
    + intros E. apply double_eq_le in E as [L1 L2].
      split; by apply double_gt_false.
  - intros a b E. rewrite E. by destruct (due b).
  - done.
Qed.

Lemma X14_operator_gt_strict_weak_order_witness :
  ScheduledCallback_gt (mkScheduledCallback 1 3 7) (mkScheduledCallback 2 10 8)
  = false.
Proof.
  destruct X14_operator_gt_strict_weak_order as (_ & H & _).
  refine (H (mkScheduledCallback 2 10 8) (mkScheduledCallback 1 3 7) _).
  vm_compute. reflexivity.
Defined.

(** ** Tokens and order in the map-based revision *)

Lemma map_run_tokens ops s s' evs :
  SchedulerMap.wf s -> SchedulerMap.run ops s = Done (s', evs) ->
  SchedulerMap.wf s' /\
  SchedulerMap.nextToken s <= SchedulerMap.nextToken s' /\
  successful (returned evs)
  = seqZ (SchedulerMap.nextToken s)
         (SchedulerMap.nextToken s' - SchedulerMap.nextToken s).
Proof.
  revert s s' evs. induction ops as [|o ops IH]; intros s s' evs W; simpl.
  - intros [= <- <-]. split; [exact W|split; [lia|]]. by rewrite Z.sub_diag.
  - destruct (SchedulerMap.step o s) as [[s1 e1]|] eqn:S; [|discriminate].
    destruct (SchedulerMap.run ops s1) as [[s2 e2]|] eqn:R; [|discriminate].
    intros [= <- <-].
    pose proof (map_returned_step _ _ _ _ W S) as T1.
    apply (map_wf_step _ _ _ _ W) in S as [W1 L1].
    destruct (IH _ _ _ W1 R) as (W2 & L2 & T2).
    split; [exact W2|split; [lia|]].
    rewrite returned_app, successful_app, T1, T2.
    replace (SchedulerMap.nextToken s2 - SchedulerMap.nextToken s)
      with ((SchedulerMap.nextToken s1 - SchedulerMap.nextToken s)
            + (SchedulerMap.nextToken s2 - SchedulerMap.nextToken s1)) by lia.
    rewrite seqZ_app by lia. do 2 f_equal. lia.
Qed.

Lemma map_Schedule_next cb d s :
  SchedulerMap.clock s <> None ->
  SchedulerMap.nextToken s <> INT_MAX ->
  SchedulerMap.Schedule cb d s
  = Done (SchedulerMap.nextToken s,
          SchedulerMap.set_scheduledCallbacks
            (push (mkScheduledCallback (SchedulerMap.nextToken s) d cb)
                  (SchedulerMap.scheduledCallbacks s))
            (SchedulerMap.set_isCallbackCanceled
               (<[SchedulerMap.nextToken s := false]>
                  (SchedulerMap.isCallbackCanceled s))
               (SchedulerMap.set_nextToken (SchedulerMap.nextToken s + 1) s)),
          [EvLock; EvNotifyOne; EvUnlock]).
Proof.
  intros C N. apply map_Schedule_spec. right. done.
Qed.

Lemma map_Schedule_overflow cb d s :
  SchedulerMap.clock s <> None ->
  SchedulerMap.nextToken s = INT_MAX ->
  SchedulerMap.Schedule cb d s = Undefined SignedOverflow.
Proof.
  intros C N. unfold SchedulerMap.Schedule.
  destruct (SchedulerMap.clock s); [|done]. by rewrite N.
Qed.

Lemma map_nextToken_step o s s' evs :
  SchedulerMap.step o s = Done (s', evs) ->
  SchedulerMap.nextToken s'
  <= SchedulerMap.nextToken s + (if is_Schedule o then 1 else 0).
Proof.
  destruct o as [c|cb d|tok| |time]; simpl.
  - intros [= <- <-]. simpl. lia.
  - destruct (SchedulerMap.Schedule cb d s) as [[[tok s1] e1]|] eqn:S;
      [|discriminate].
    intros [= <- <-].
    apply map_Schedule_spec in S as [(_ & _ & -> & _)|(_ & _ & -> & -> & _)];
      simpl; lia.
  - unfold SchedulerMap.Cancel. intros [= <- <-].
    destruct (SchedulerMap.isCallbackCanceled s !! tok); simpl; lia.
  - intros [= <- <-]. simpl. lia.
  - intros H. apply map_Worker_iteration_spec in H.
    destruct H; simpl; lia.
Qed.

Lemma map_step_overflow o s :
  SchedulerMap.step o s = Undefined SignedOverflow ->
  is_Schedule o = true /\ SchedulerMap.nextToken s = INT_MAX.
Proof.
  destruct o as [c|cb d|tok| |time]; simpl; try discriminate.
  - unfold SchedulerMap.Schedule, post_increment. intros H.
    destruct (SchedulerMap.clock s); [|discriminate].
    destruct (Z.eqb_spec (SchedulerMap.nextToken s) INT_MAX); [done|discriminate].
  - unfold SchedulerMap.Worker_iteration. intros H.
    repeat case_match; simplify_eq.
    match goal with
    | W : wait_milliseconds _ = Undefined _ |- _ =>
        apply wait_milliseconds_why in W; discriminate
    end.
Qed.

Lemma map_run_overflow ops s :
  SchedulerMap.run ops s = Undefined SignedOverflow ->
  INT_MAX < SchedulerMap.nextToken s + schedule_calls ops.
Proof.
  revert s. induction ops as [|o ops IH]; intros s; simpl; [discriminate|].
  rewrite schedule_calls_cons.
  destruct (SchedulerMap.step o s) as [[s1 e1]|why] eqn:S.
  - destruct (SchedulerMap.run ops s1) as [[s2 e2]|why] eqn:R; [discriminate|].
    intros [= ->]. specialize (IH _ R).
    pose proof (map_nextToken_step _ _ _ _ S). lia.
  - intros [= ->]. apply map_step_overflow in S as [-> N].
    pose proof (schedule_calls_nonneg ops). lia.
Qed.

(** X15: the tokens of the map-based revision, as long as the counter stays
    below [INT_MAX].  Along every run from the freshly constructed scheduler
    that ends without undefined behaviour, the tokens returned by the
    successful calls of [Schedule] are positive, the first is 1, each is
    greater than all returned before, none occurs twice.  In the state
    reached, a further call of [Schedule] returns 0 and changes nothing
    when no clock is set; when a clock is set and the counter is not
    [INT_MAX] it does return a token, the counter's value, which is positive
    and greater than all tokens returned so far; at [INT_MAX] the increment
    of the counter overflows.  A run can end in that overflow only if it
    makes at least [INT_MAX] calls of [Schedule]. *)
Theorem X15_map_tokens :
  (forall ops s evs,
     SchedulerMap.run ops SchedulerMap.init = Done (s, evs) ->
     let toks := successful (returned evs) in
     Forall (fun t => 0 < t) toks /\
     (forall t rest, toks = t :: rest -> t = 1) /\
     StronglySorted Z.lt toks /\
     NoDup toks /\
     (forall cb d tok s' evs',
        SchedulerMap.Schedule cb d s = Done (tok, s', evs') ->
        (tok = 0 <-> SchedulerMap.clock s = None) /\
        (tok <> 0 -> Forall (fun t => t < tok) toks)) /\
     (forall cb d,
        SchedulerMap.clock s = None ->
        SchedulerMap.Schedule cb d s = Done (0, s, [])) /\
     (forall cb d,
        SchedulerMap.clock s <> None ->
        SchedulerMap.nextToken s <> INT_MAX ->
        exists s',
          SchedulerMap.Schedule cb d s
          = Done (SchedulerMap.nextToken s, s', [EvLock; EvNotifyOne; EvUnlock]) /\
          0 < SchedulerMap.nextToken s /\
          Forall (fun t => t < SchedulerMap.nextToken s) toks) /\
     (forall cb d,
        SchedulerMap.clock s <> None ->
        SchedulerMap.nextToken s = INT_MAX ->
        SchedulerMap.Schedule cb d s = Undefined SignedOverflow)) /\
  (forall ops,
     SchedulerMap.run ops SchedulerMap.init = Undefined SignedOverflow ->
     INT_MAX <= schedule_calls ops).
Proof.
  split.
  2:{ intros ops R. apply map_run_overflow in R. simpl in R. lia. }
  intros ops s evs R toks.
  destruct (map_run_tokens _ _ _ _ map_wf_init R) as (W & L & T).
  simpl in T, L. fold toks in T.
  split; [|split; [|split; [|split; [|split; [|split; [|split]]]]]].
  - rewrite T. apply Forall_seqZ. intros; lia.
  - intros t rest E. rewrite E in T.
    destruct (Z.le_gt_cases (SchedulerMap.nextToken s - 1) 0) as [Hn|Hn].
    + rewrite seqZ_nil in T by lia. discriminate.
    + rewrite seqZ_cons in T by lia. by injection T.
  - rewrite T. apply StronglySorted_seqZ.
  - rewrite T. apply NoDup_seqZ.
  - intros cb d tok s' evs' S. destruct W as (_ & _ & Hn).
    apply map_Schedule_spec in S as [(C & -> & _)|(C & _ & -> & _)].
    + split; [done|]. intros; done.
    + split; [split; [lia|done]|]. intros _.
      rewrite T. apply Forall_seqZ. intros; lia.
  - intros cb d C. unfold SchedulerMap.Schedule. by rewrite C.
  - intros cb d C N. eexists. split; [by apply map_Schedule_next|].
    split; [lia|]. rewrite T. apply Forall_seqZ. intros; lia.
  - intros cb d. apply map_Schedule_overflow.
Qed.

Lemma X15_map_tokens_witness :
  let toks := [1; 2] in
  Forall (fun t => 0 < t) toks /\
  (forall t rest, toks = t :: rest -> t = 1) /\
  StronglySorted Z.lt toks /\
  NoDup toks.
Proof.
  pose proof (proj1 X15_map_tokens
    [OpSchedule 6 1; OpSetClock (Some 1%nat); OpSchedule 7 10; OpCancel 1;
     OpSchedule 8 5]
    (SchedulerMap.mkImpl (Some 1%nat)
       [mkScheduledCallback 1 10 7; mkScheduledCallback 2 5 8]
       false 3 (<[ 2 := false ]> (<[ 1 := true ]> (<[ 1 := false ]> ∅))))
    [EvReturn 0; EvLock; EvNotifyOne; EvUnlock; EvReturn 1; EvLock; EvUnlock;
     EvLock; EvNotifyOne; EvUnlock; EvReturn 2]) as H.
  simpl in H. destruct H as (H1 & H2 & H3 & H4 & _).
  - vm_compute. reflexivity.
  - repeat split; assumption.
Defined.

Lemma map_numeric_step o s s' evs :
  numeric_op o ->
  numeric_queue (SchedulerMap.scheduledCallbacks s) ->
  SchedulerMap.step o s = Done (s', evs) ->
  numeric_queue (SchedulerMap.scheduledCallbacks s').
Proof.
  intros No Nq. destruct o as [c|cb d|tok| |time]; simpl.
  - by intros [= <- <-].
  - destruct (SchedulerMap.Schedule cb d s) as [[[tok s1] e1]|] eqn:S;
      [|discriminate].
    intros [= <- <-].
    apply map_Schedule_spec in S as [(_ & _ & -> & _)|(_ & _ & _ & -> & _)];
      [done|].
    simpl. by apply numeric_queue_push.
  - unfold SchedulerMap.Cancel. intros [= <- <-].
    by destruct (SchedulerMap.isCallbackCanceled s !! tok).
  - by intros [= <- <-].
  - intros H. apply map_Worker_iteration_spec in H.
    destruct H as [St|St E|e c ms St T C G N Wm|e c St T C G N|e c St T C N];
      try done; simpl; by apply numeric_queue_pop.
Qed.

Lemma map_numeric_run ops s s' evs :
  numeric_dues ops ->
  numeric_queue (SchedulerMap.scheduledCallbacks s) ->
  SchedulerMap.run ops s = Done (s', evs) ->
  numeric_queue (SchedulerMap.scheduledCallbacks s').
Proof.
  revert s s' evs. induction ops as [|o ops IH]; intros s s' evs No Nq; simpl.
  - by intros [= <- <-].
  - apply Forall_cons in No as [No1 No].
    destruct (SchedulerMap.step o s) as [[s1 e1]|] eqn:S; [|discriminate].
    destruct (SchedulerMap.run ops s1) as [[s2 e2]|] eqn:R; [|discriminate].
    intros [= <- <-].
    exact (IH _ _ _ No (map_numeric_step _ _ _ _ No1 Nq S) R).
Qed.

Lemma map_fired_order ops s e1 e2 l1 l3 :
  SchedulerMap.wf s ->
  numeric_queue (SchedulerMap.scheduledCallbacks s) ->
  numeric_dues ops ->
  e1 ∈ SchedulerMap.scheduledCallbacks s ->
  e2 ∈ SchedulerMap.scheduledCallbacks s ->
  (due e1 < due e2)%D ->
  SchedulerMap.fired ops s = l1 ++ e2 :: l3 ->
  e1 ∈ SchedulerMap.fired ops s ->
  e1 ∈ l1.
Proof.
  intros W Nq No In1 In2 Lt. revert s l1 W Nq In1 In2.
  induction ops as [|o ops IH]; intros s l1 W Nq In1 In2; simpl.
  - intros E. by destruct l1.
  - apply Forall_cons in No as [No1 No]. specialize (IH No).
    destruct (SchedulerMap.step o s) as [[s1 ev1]|] eqn:S.
    2:{ intros E. by destruct l1. }
    destruct (map_wf_step _ _ _ _ W S) as [W1 L].
    pose proof (map_numeric_step _ _ _ _ No1 Nq S) as Nq1.
    assert (top (SchedulerMap.scheduledCallbacks s) <> Some e2) as NotTop.
    { intros T. pose proof (top_min _ _ _ Nq T In1) as Le.
      exact (double_lt_not_le _ _ Lt Le). }
    destruct (map_step_keeps _ _ _ _ _ S In2) as [In2'|[T _]]; [|done].
    destruct (SchedulerMap.fired_by o s) as [e|] eqn:F.
    + apply map_fired_by_spec in F as (T & _ & S').
      destruct l1 as [|x l1]; simpl.
      { intros [= ->]. done. }
      intros [= <- E] In.
      destruct (map_step_keeps _ _ _ _ _ S In1) as [In1'|[T1 _]].
      * apply elem_of_cons in In as [->|In]; [apply list_elem_of_here|].
        apply list_elem_of_further. by apply (IH s1).
      * rewrite T in T1. injection T1 as ->. apply list_elem_of_here.
    + intros E In.
      destruct (map_step_keeps _ _ _ _ _ S In1) as [In1'|[T1 Q1]].
      * by apply (IH s1).
      * exfalso.
        destruct (map_fired_origin _ _ _ W1 In) as [In1'|Ge].
        -- apply (wf_queue_pop_fresh _ _ _ W T1). rewrite <- Q1.
           unfold tokens. by apply list_elem_of_fmap_2.
        -- pose proof (wf_queue_bound _ _ _ W In1). lia.
Qed.

(** X16: the order of the calls in the map-based revision, for due times
    that are numbers (with a NaN among them the comparison of the priority
    queue is no strict weak ordering and the queue promises no order).  When
    the due times of the pending entries are numbers, an entry that the
    worker fires is the earliest pending one; and in a run that schedules
    only due times that are numbers, of two entries that are pending
    together in a state the run has reached, the one with the smaller due
    time, if both fire in what follows, fires first. *)
Theorem X16_map_ordering :
  (forall o s e e',
     numeric_queue (SchedulerMap.scheduledCallbacks s) ->
     SchedulerMap.fired_by o s = Some e ->
     e' ∈ SchedulerMap.scheduledCallbacks s ->
     (due e <= due e')%D) /\
  (forall ops0 s evs0 ops e1 e2 l1 l3,
     numeric_dues ops0 ->
     numeric_dues ops ->
     SchedulerMap.run ops0 SchedulerMap.init = Done (s, evs0) ->
     e1 ∈ SchedulerMap.scheduledCallbacks s ->
     e2 ∈ SchedulerMap.scheduledCallbacks s ->
     (due e1 < due e2)%D ->
     SchedulerMap.fired ops s = l1 ++ e2 :: l3 ->
     e1 ∈ SchedulerMap.fired ops s ->
     e1 ∈ l1).
Proof.
  split.
  - intros o s e e' Nq F In. apply map_fired_by_spec in F as [T _].
    by eapply top_min.
  - intros ops0 s evs0 ops e1 e2 l1 l3 No0 No R. apply map_fired_order.
    + exact (map_run_wf _ _ _ _ map_wf_init R).
    + exact (map_numeric_run ops0 SchedulerMap.init _ _ No0 (Forall_nil_2 _) R).
    + exact No.
Qed.

Lemma X16_map_ordering_witness :
  mkScheduledCallback 2 3 8 ∈ [mkScheduledCallback 2 3 8].
Proof.
  destruct X16_map_ordering as (_ & H).
  refine (H [OpSetClock (Some 1%nat); OpSchedule 7 5; OpSchedule 8 3]
            (SchedulerMap.mkImpl (Some 1%nat)
               [mkScheduledCallback 1 5 7; mkScheduledCallback 2 3 8]
               false 3 (<[ 2 := false ]> (<[ 1 := false ]> ∅)))
            [EvLock; EvNotifyOne; EvUnlock; EvReturn 1;
             EvLock; EvNotifyOne; EvUnlock; EvReturn 2]
            [OpWorker (fun _ => 6%Q); OpWorker (fun _ => 6%Q)]
            (mkScheduledCallback 2 3 8) (mkScheduledCallback 1 5 7)
            [mkScheduledCallback 2 3 8] [] _ _ _ _ _ _ _ _).
  - repeat (apply Forall_cons; split; [done|]). apply Forall_nil_2.
  - repeat (apply Forall_cons; split; [done|]). apply Forall_nil_2.
  - vm_compute. reflexivity.
  - apply list_elem_of_further, list_elem_of_here.
  - apply list_elem_of_here.
  - reflexivity.
  - vm_compute. reflexivity.
  - apply list_elem_of_here.
Defined.

(** ** The two revisions side by side *)

Lemma agree_init : revisions_agree SchedulerSet.init SchedulerMap.init.
Proof.
  repeat split; try done; simpl; try constructor; try lia.
Qed.

Lemma agree_key_present ss sm t :
  revisions_agree ss sm ->
  t ∈ tokens (SchedulerMap.scheduledCallbacks sm) ->
  exists v, SchedulerMap.isCallbackCanceled sm !! t = Some v /\
            (v = true <-> t ∈ SchedulerSet.canceledCallbacks ss).
Proof.
  intros (_ & _ & _ & _ & _ & Tr & _ & Ag) In.
  assert (t ∈ dom (SchedulerMap.isCallbackCanceled sm)) as D
    by (rewrite Tr; by apply elem_of_list_to_set).
  apply elem_of_dom in D as [v D]. exists v. split; [done|].
  rewrite (Ag t In), D. split; [by intros ->|by intros [= ->]].
Qed.

Lemma agree_pop ss sm e :
  revisions_agree ss sm ->
  top (SchedulerMap.scheduledCallbacks sm) = Some e ->
  revisions_agree
    (SchedulerSet.set_scheduledCallbacks
       (pop (SchedulerSet.scheduledCallbacks ss)) ss)
    (SchedulerMap.set_scheduledCallbacks
       (pop (SchedulerMap.scheduledCallbacks sm))
       (SchedulerMap.set_isCallbackCanceled
          (delete (token e) (SchedulerMap.isCallbackCanceled sm)) sm)).
Proof.
  intros (C & Q & St & N & W & Tr & B & Ag) T.
  unfold revisions_agree. simpl. rewrite Q.
  split; [done|]. split; [done|]. split; [done|]. split; [done|].
  split; [by apply wf_queue_pop|]. split.
  - unfold SchedulerMap.tracked. simpl. rewrite dom_delete_L, Tr. symmetry.
    by eapply tokens_pop_set.
  - split; [done|]. intros t In.
    pose proof (wf_queue_pop_fresh _ _ _ W T) as Fr.
    rewrite lookup_delete_ne by (intros Eq; rewrite Eq in Fr; done).
    apply Ag. unfold tokens in *. apply list_elem_of_fmap in In as (x & -> & In).
    apply list_elem_of_fmap_2. by apply pop_subset.
Qed.

Lemma agree_Cancel ss sm tok :
  revisions_agree ss sm ->
  tok < SchedulerMap.nextToken sm ->
  revisions_agree (fst (SchedulerSet.Cancel tok ss)) (fst (SchedulerMap.Cancel tok sm)).
Proof.
  intros (C & Q & St & N & W & Tr & B & Ag) Lt.
  unfold SchedulerSet.Cancel, SchedulerMap.Cancel. simpl.
  destruct (SchedulerMap.isCallbackCanceled sm !! tok) as [v|] eqn:L.
  - unfold revisions_agree. simpl.
    split; [done|]. split; [done|]. split; [done|]. split; [done|].
    split; [done|]. split.
    + unfold SchedulerMap.tracked in *. simpl. rewrite dom_insert_L, Tr.
      assert (tok ∈ dom (SchedulerMap.isCallbackCanceled sm)) as D
        by (apply elem_of_dom; eauto).
      rewrite Tr in D. apply set_eq. intros t.
      rewrite elem_of_union, elem_of_singleton.
      split; [intros [->|?]; done|tauto].
    + split.
      * intros t In. apply elem_of_union in In as [In|In]; [|by apply B].
        apply elem_of_singleton in In. lia.
      * intros t In. rewrite elem_of_union, elem_of_singleton.
        destruct (decide (tok = t)) as [->|Ne].
        -- rewrite lookup_insert_eq. tauto.
        -- rewrite lookup_insert_ne by done. rewrite <- (Ag t In).
           split; [intros [?|?]; [congruence|done]|tauto].
  - unfold revisions_agree. simpl.
    split; [done|]. split; [done|]. split; [done|]. split; [done|].
    split; [done|]. split; [done|]. split.
    + intros t In. apply elem_of_union in In as [In|In]; [|by apply B].
      apply elem_of_singleton in In. lia.
    + intros t In. rewrite elem_of_union, elem_of_singleton.
      rewrite <- (Ag t In). split; [|tauto]. intros [->|?]; [|done].
      exfalso.
      assert (tok ∈ dom (SchedulerMap.isCallbackCanceled sm)) as D
        by (rewrite Tr; by apply elem_of_list_to_set).
      apply elem_of_dom in D as [v D]. congruence.
Qed.

Lemma agree_Schedule ss sm cb d :
  revisions_agree ss sm ->
  match SchedulerSet.Schedule cb d ss, SchedulerMap.Schedule cb d sm with
  | Done (t1, ss', e1), Done (t2, sm', e2) =>
      t1 = t2 /\ e1 = e2 /\ revisions_agree ss' sm'
  | Undefined w1, Undefined w2 => w1 = w2
  | _, _ => False
  end.
Proof.
  intros H. pose proof H as (C & Q & St & N & W & Tr & B & Ag).
  unfold SchedulerSet.Schedule, SchedulerMap.Schedule. rewrite C, N.
  destruct (SchedulerMap.clock sm) as [c|] eqn:Cm.
  2:{ split; [done|]. split; [done|]. exact H. }
  unfold post_increment.
  destruct (Z.eqb_spec (SchedulerMap.nextToken sm) INT_MAX) as [E|Ne]; [done|].
  split; [done|]. split; [done|].
  unfold revisions_agree. simpl. rewrite Q.
  split; [by rewrite C|]. split; [done|]. split; [done|]. split; [done|].
  split; [by apply wf_queue_push|]. split.
  - unfold SchedulerMap.tracked in *. simpl.
    rewrite dom_insert_L, tokens_push, list_to_set_app_L, Tr. simpl.
    apply set_eq. intros t.
    rewrite !elem_of_union, elem_of_singleton, elem_of_empty. tauto.
  - split; [intros t In; specialize (B t In); lia|].
    intros t In. rewrite tokens_push in In. apply elem_of_app in In as [In|In].
    + destruct W as (_ & Bd & _). rewrite Forall_forall in Bd.
      specialize (Bd t In). rewrite lookup_insert_ne by lia. by apply Ag.
    + apply list_elem_of_singleton in In. simpl in In. subst t.
      rewrite lookup_insert_eq. split; [|discriminate].
      intros In. specialize (B _ In). lia.
Qed.

Lemma map_set_isCallbackCanceled_same s :
  SchedulerMap.set_isCallbackCanceled (SchedulerMap.isCallbackCanceled s) s = s.
Proof. by destruct s. Qed.

Lemma agree_Worker time ss sm :
  revisions_agree ss sm ->
  match SchedulerSet.Worker_iteration time ss,
        SchedulerMap.Worker_iteration time sm with
  | Done (ss', e1), Done (sm', e2) =>
      observable e1 = observable e2 /\ revisions_agree ss' sm'
  | Undefined w1, Undefined w2 => w1 = w2
  | _, _ => False
  end.
Proof.
  intros H. pose proof H as (C & Q & St & N & W & Tr & B & Ag).
  unfold SchedulerSet.Worker_iteration, SchedulerMap.Worker_iteration.
  rewrite St, Q, C.
  destruct (SchedulerMap.stopWorker sm); [by split|].
  destruct (top (SchedulerMap.scheduledCallbacks sm)) as [e|] eqn:T; [|by split].
  destruct (SchedulerMap.clock sm) as [c|]; [|done].
  destruct (agree_key_present ss sm (token e) H) as (v & L & Iff).
  { unfold tokens. apply list_elem_of_fmap_2. by apply top_elem. }
  rewrite (subscript_present _ _ _ L).
  assert (bool_decide (token e ∉ SchedulerSet.canceledCallbacks ss) = negb v)
    as ->.
  { destruct v; simpl.
    - apply bool_decide_eq_false_2. intros Nin. apply Nin. by apply Iff.
    - apply bool_decide_eq_true_2. intros In. apply Iff in In. discriminate. }
  pose proof (agree_pop _ _ _ H T) as AP. rewrite Q in AP.
  destruct (double_gt (due e - time c)%D 0%Q), v; simpl; try (by split).
  destruct (wait_milliseconds (due e - time c)%D); [|done].
  rewrite map_set_isCallbackCanceled_same. by split.
Qed.

Lemma agree_step o ss sm :
  revisions_agree ss sm ->
  match o with
  | OpCancel tok => tok < SchedulerMap.nextToken sm
  | _ => True
  end ->
  match SchedulerSet.step o ss, SchedulerMap.step o sm with
  | Done (ss', e1), Done (sm', e2) =>
      observable e1 = observable e2 /\ revisions_agree ss' sm'
  | Undefined w1, Undefined w2 => w1 = w2
  | _, _ => False
  end.
Proof.
  intros H G. destruct o as [c0|cb d|tok| |time]; simpl.
  - split; [done|]. destruct H as (C & Q & St & N & W & Tr & B & Ag).
    exact (conj eq_refl (conj Q (conj St (conj N (conj W (conj Tr (conj B Ag))))))).
  - pose proof (agree_Schedule ss sm cb d H) as A.
    destruct (SchedulerSet.Schedule cb d ss) as [[[t1 ss'] e1]|w1],
             (SchedulerMap.Schedule cb d sm) as [[[t2 sm'] e2]|w2]; try done.
    destruct A as (-> & -> & A). by split.
  - split; [done|]. by apply agree_Cancel.
  - by split.
  - by apply agree_Worker.
Qed.

Lemma observable_app l1 l2 : observable (l1 ++ l2) = observable l1 ++ observable l2.
Proof. apply filter_app. Qed.

Lemma agree_run ops ss sm :
  revisions_agree ss sm ->
  cancels_issued ops sm ->
  match SchedulerSet.run ops ss, SchedulerMap.run ops sm with
  | Done (ss', e1), Done (sm', e2) =>
      observable e1 = observable e2 /\ revisions_agree ss' sm'
  | Undefined w1, Undefined w2 => w1 = w2
  | _, _ => False
  end.
Proof.
  revert ss sm. induction ops as [|o ops IH]; intros ss sm H G; simpl.
  - by split.
  - destruct G as [G1 G2]. pose proof (agree_step o ss sm H G1) as A.
    destruct (SchedulerSet.step o ss) as [[ss1 e1]|w1],
             (SchedulerMap.step o sm) as [[sm1 e2]|w2]; try done.
    destruct A as [E A]. specialize (IH ss1 sm1 A G2).
    destruct (SchedulerSet.run ops ss1) as [[ss2 e3]|w1],
             (SchedulerMap.run ops sm1) as [[sm2 e4]|w2]; try done.
    destruct IH as [E' A']. split; [|done].
    by rewrite !observable_app, E, E'.
Qed.

Lemma calls_observable evs : calls (observable evs) = calls evs.
Proof.
  induction evs as [|a evs IH]; [done|].
  unfold observable. rewrite filter_cons. fold (observable evs).
  destruct a; simpl; try done; unfold calls in *; simpl; by rewrite IH.
Qed.

Lemma returned_observable evs : returned (observable evs) = returned evs.
Proof.
  induction evs as [|a evs IH]; [done|].
  unfold observable. rewrite filter_cons. fold (observable evs).
  destruct a; simpl; try done; unfold returned in *; simpl; by rewrite IH.
Qed.

(** X17: the two revisions behave alike as long as [Cancel] is only given
    tokens that are below [nextToken] at the time of the call.  For every
    such run from the freshly constructed scheduler, either both revisions
    end in the same undefined behaviour, or both complete and show the same
    events apart from locking and unlocking (the same tokens returned, the
    same waits with the same timeouts, the same calls in the same order),
    and end with the same clock, pending entries, stop flag and counter. *)
Theorem X17_revisions_agree ops :
  cancels_issued ops SchedulerMap.init ->
  match SchedulerSet.run ops SchedulerSet.init,
        SchedulerMap.run ops SchedulerMap.init with
  | Done (ss, e1), Done (sm, e2) =>
      observable e1 = observable e2 /\
      calls e1 = calls e2 /\ returned e1 = returned e2 /\
      SchedulerSet.clock ss = SchedulerMap.clock sm /\
      SchedulerSet.scheduledCallbacks ss = SchedulerMap.scheduledCallbacks sm /\
      SchedulerSet.stopWorker ss = SchedulerMap.stopWorker sm /\
      SchedulerSet.nextToken ss = SchedulerMap.nextToken sm
  | Undefined w1, Undefined w2 => w1 = w2
  | _, _ => False
  end.
Proof.
  intros G. pose proof (agree_run ops _ _ agree_init G) as A.
  destruct (SchedulerSet.run ops SchedulerSet.init) as [[ss e1]|w1],
           (SchedulerMap.run ops SchedulerMap.init) as [[sm e2]|w2]; try done.
  destruct A as (E & C & Q & St & N & _).
  split; [done|]. split; [|split; [|by repeat split]].
  - by rewrite <- (calls_observable e1), E, calls_observable.
  - by rewrite <- (returned_observable e1), E, returned_observable.
Qed.

Lemma X17_revisions_agree_witness :
  match SchedulerSet.run
          [OpSetClock (Some 1%nat); OpSchedule 7 10; OpCancel 1; OpSchedule 8 0;
           OpWorker (fun _ => 5%Q); OpWorker (fun _ => 5%Q)]
          SchedulerSet.init,
        SchedulerMap.run
          [OpSetClock (Some 1%nat); OpSchedule 7 10; OpCancel 1; OpSchedule 8 0;
           OpWorker (fun _ => 5%Q); OpWorker (fun _ => 5%Q)]
          SchedulerMap.init with
  | Done (ss, e1), Done (sm, e2) =>
      observable e1 = observable e2 /\
      calls e1 = calls e2 /\ returned e1 = returned e2 /\
      SchedulerSet.clock ss = SchedulerMap.clock sm /\
      SchedulerSet.scheduledCallbacks ss = SchedulerMap.scheduledCallbacks sm /\
      SchedulerSet.stopWorker ss = SchedulerMap.stopWorker sm /\
      SchedulerSet.nextToken ss = SchedulerMap.nextToken sm
  | Undefined w1, Undefined w2 => w1 = w2
  | _, _ => False
  end.
Proof.
  refine (X17_revisions_agree
            [OpSetClock (Some 1%nat); OpSchedule 7 10; OpCancel 1; OpSchedule 8 0;
             OpWorker (fun _ => 5%Q); OpWorker (fun _ => 5%Q)] _).
  vm_compute. repeat split.
Defined.
